(** * Statement-line parsing and reconciliation engine

    A shallow embedding of the line parsers ([transactionParser.ts] in its
    two schema variants), of the customer-mapping overlay of
    [AppLayout.tsx] and of the deduplicating persistence routine of
    [databaseService.ts], together with the properties the specification
    states about them.

    Strings.  A JavaScript string is modelled by a Rocq [string]: a
    sequence of code units below 256 (the Latin-1 range).  Character
    classes, trimming and case mapping are the ECMAScript ones restricted
    to that range. *)

From Stdlib Require Import Ascii String List Arith Lia Bool.
From stdpp Require Import base option list strings pretty gmap.

Local Open Scope string_scope.
Local Open Scope list_scope.
Local Open Scope nat_scope.

(* ===================================================================== *)
(** ** Characters and strings of the JavaScript runtime *)
(* ===================================================================== *)

Definition chars (s : string) : list ascii := list_ascii_of_string s.
Definition text (l : list ascii) : string := string_of_list_ascii l.

Definition code (a : ascii) : nat := nat_of_ascii a.

Definition in_range (lo hi : nat) (a : ascii) : bool :=
  (lo <=? code a) && (code a <=? hi).

(** [\d] *)
Definition is_digit (a : ascii) : bool := in_range 48 57 a.
Definition is_upper (a : ascii) : bool := in_range 65 90 a.
Definition is_lower (a : ascii) : bool := in_range 97 122 a.
(** [[A-Za-z]] *)
Definition is_letter (a : ascii) : bool := is_upper a || is_lower a.
(** [[a-zA-Z0-9]] *)
Definition is_alnum (a : ascii) : bool := is_letter a || is_digit a.
(** [\w], the word characters that [\b] looks at *)
Definition is_word (a : ascii) : bool := is_alnum a || (code a =? 95).

(** [\s], which is also the set that [String.prototype.trim] strips:
    TAB, LF, VT, FF, CR, SPACE and NBSP are the white space and line
    terminator code units below 256. *)
Definition is_space (a : ascii) : bool :=
  in_range 9 13 a || (code a =? 32) || (code a =? 160).

Definition is_char (c : ascii) (a : ascii) : bool := code a =? code c.

(** Canonicalize of a case-insensitive, non-unicode regular expression:
    the upper-case mapping when it is a single code unit, never mapping a
    non-ASCII unit to an ASCII one. *)
Definition canonicalize (a : ascii) : ascii :=
  if is_lower a then ascii_of_nat (code a - 32)
  else if in_range 224 254 a && negb (code a =? 247)
       then ascii_of_nat (code a - 32)
       else a.

(** [String.prototype.toLowerCase] on one code unit. *)
Definition lower_char (a : ascii) : ascii :=
  if is_upper a then ascii_of_nat (code a + 32)
  else if in_range 192 222 a && negb (code a =? 215)
       then ascii_of_nat (code a + 32)
       else a.

(** A class [p] under the [i] flag: [a] is taken when some member of the
    class has the canonical form of [a], that is when [a], its upper case
    or its lower case is a member. *)
Definition ignore_case (p : ascii -> bool) (a : ascii) : bool :=
  p a || p (canonicalize a) || p (lower_char a).

Definition toLowerCase (s : string) : string := text (map lower_char (chars s)).

Fixpoint drop_spaces (l : list ascii) : list ascii :=
  match l with
  | a :: l' => if is_space a then drop_spaces l' else l
  | [] => []
  end.

(** [String.prototype.trim] *)
Definition trim_chars (l : list ascii) : list ascii :=
  rev (drop_spaces (rev (drop_spaces l))).
Definition trim (s : string) : string := text (trim_chars (chars s)).

(** JavaScript truthiness of a string: non-empty. *)
Definition truthy (s : string) : bool :=
  match s with EmptyString => false | String _ _ => true end.

(** [a || b] on strings *)
Definition or_else (a b : string) : string := if truthy a then a else b.

Fixpoint is_prefix (p l : list ascii) : bool :=
  match p, l with
  | [], _ => true
  | a :: p', b :: l' => (code a =? code b) && is_prefix p' l'
  | _ :: _, [] => false
  end.

Fixpoint includes_chars (l p : list ascii) : bool :=
  is_prefix p l || match l with
                   | [] => false
                   | _ :: l' => includes_chars l' p
                   end.

(** [String.prototype.includes] *)
Definition includes (s p : string) : bool := includes_chars (chars s) (chars p).

(** [rawData.split('\n')]: the pieces between line feeds; always at least
    one piece. *)
Fixpoint split_lines_chars (cur : list ascii) (l : list ascii) : list (list ascii) :=
  match l with
  | [] => [rev cur]
  | a :: l' =>
      if code a =? 10 then rev cur :: split_lines_chars [] l'
      else split_lines_chars (a :: cur) l'
  end.

Definition split_lines (s : string) : list string :=
  map text (split_lines_chars [] (chars s)).

(** [pieces.join('\n')], the inverse of the split. *)
Fixpoint join_lines (pieces : list (list ascii)) : list ascii :=
  match pieces with
  | [] => []
  | [p] => p
  | p :: more => p ++ "010"%char :: join_lines more
  end.

(** A line the batch parser drops: nothing but white space. *)
Definition blank_line (line : string) : bool := forallb is_space (chars line).

(* ===================================================================== *)
(** ** Regular expressions: the backtracking matcher of ECMAScript *)
(* ===================================================================== *)

Inductive regex : Type :=
| Empty                                   (* the empty pattern *)
| Class (p : ascii -> bool)               (* one character of a class *)
| Cat (r1 r2 : regex)                     (* r1 r2 *)
| Alt (r1 r2 : regex)                     (* r1|r2 *)
| Quant (greedy : bool) (min : nat) (max : option nat) (r : regex)
                                          (* r{min,max}, r{min,max}? *)
| Group (i : nat) (r : regex)             (* the i-th capturing group *)
| Ahead (r : regex)                       (* (?=r) *)
| WordBoundary                            (* \b *)
| EndAnchor.                              (* $ without the m flag *)

(** The matcher's state: the code unit before the current position, the
    input still to read, and the captures made so far. *)
Record MatchState : Type := mkState {
  ms_prev : option ascii;
  ms_rest : list ascii;
  ms_caps : list (nat * list ascii)
}.

Definition Continuation : Type := MatchState -> option MatchState.
Definition Matcher : Type := MatchState -> Continuation -> option MatchState.

Fixpoint groups_of (r : regex) : list nat :=
  match r with
  | Empty | Class _ | WordBoundary | EndAnchor => []
  | Cat r1 r2 | Alt r1 r2 => groups_of r1 ++ groups_of r2
  | Quant _ _ _ r' | Ahead r' => groups_of r'
  | Group i r' => i :: groups_of r'
  end.

Definition clear_caps (gs : list nat) (x : MatchState) : MatchState :=
  mkState (ms_prev x) (ms_rest x)
          (List.filter (fun c => negb (existsb (Nat.eqb (fst c)) gs)) (ms_caps x)).

Definition set_cap (i : nat) (v : list ascii) (y : MatchState) : MatchState :=
  mkState (ms_prev y) (ms_rest y)
          ((i, v) :: List.filter (fun c => negb (fst c =? i)) (ms_caps y)).

Fixpoint get_cap (i : nat) (caps : list (nat * list ascii)) : option (list ascii) :=
  match caps with
  | [] => None
  | (j, v) :: caps' => if j =? i then Some v else get_cap i caps'
  end.

(** The text read between state [x] and a later state [y]. *)
Definition consumed (x y : MatchState) : list ascii :=
  firstn (length (ms_rest x) - length (ms_rest y)) (ms_rest x).

Definition pred_max (mx : option nat) : option nat :=
  match mx with Some n => Some (pred n) | None => None end.

(** RepeatMatcher of the language specification.  [fuel] bounds the number
    of iterations; every iteration either lowers [mn] or reads input. *)
Fixpoint repeat_matcher (m : Matcher) (gs : list nat) (greedy : bool)
    (fuel mn : nat) (mx : option nat) (x : MatchState) (c : Continuation)
    : option MatchState :=
  match fuel with
  | 0 => None
  | S fuel' =>
      match mx with
      | Some 0 => c x
      | _ =>
          let d : Continuation := fun y =>
            if (mn =? 0) && (length (ms_rest y) =? length (ms_rest x)) then None
            else repeat_matcher m gs greedy fuel' (pred mn) (pred_max mx) y c in
          let xr := clear_caps gs x in
          if negb (mn =? 0) then m xr d
          else if greedy then
                 match m xr d with
                 | Some z => Some z
                 | None => c x
                 end
               else
                 match c x with
                 | Some z => Some z
                 | None => m xr d
                 end
      end
  end.

Definition word_at (o : option ascii) : bool :=
  match o with Some a => is_word a | None => false end.

Fixpoint rmatch (r : regex) (x : MatchState) (c : Continuation) {struct r}
    : option MatchState :=
  match r with
  | Empty => c x
  | Class p =>
      match ms_rest x with
      | a :: s => if p a then c (mkState (Some a) s (ms_caps x)) else None
      | [] => None
      end
  | Cat r1 r2 => rmatch r1 x (fun y => rmatch r2 y c)
  | Alt r1 r2 =>
      match rmatch r1 x c with
      | Some z => Some z
      | None => rmatch r2 x c
      end
  | Quant greedy mn mx r' =>
      repeat_matcher (rmatch r') (groups_of r') greedy
                     (mn + length (ms_rest x) + 1) mn mx x c
  | Group i r' => rmatch r' x (fun y => c (set_cap i (consumed x y) y))
  | Ahead r' =>
      match rmatch r' x (fun y => Some y) with
      | Some y => c (mkState (ms_prev x) (ms_rest x) (ms_caps y))
      | None => None
      end
  | WordBoundary =>
      if xorb (word_at (ms_prev x)) (word_at (head (ms_rest x))) then c x else None
  | EndAnchor =>
      match ms_rest x with
      | [] => c x
      | _ :: _ => None
      end
  end.

(** One successful match: the text before it, the matched text, the
    captures, and the state at its end. *)
Record Found : Type := mkFound {
  f_before : list ascii;
  f_match : list ascii;
  f_caps : list (nat * list ascii);
  f_end : MatchState
}.

(** The leftmost match at or after the current position ([before] is the
    reversed text already skipped). *)
Fixpoint search (r : regex) (before : list ascii) (prev : option ascii)
    (l : list ascii) : option Found :=
  let x := mkState prev l [] in
  match rmatch r x (fun y => Some y) with
  | Some y => Some (mkFound (rev before) (consumed x y) (ms_caps y) y)
  | None =>
      match l with
      | [] => None
      | a :: l' => search r (a :: before) (Some a) l'
      end
  end.

(** A RegExpMatchArray as TypeScript types it, an array of strings: index 0
    is the matched text and index [i] the i-th group (the empty string
    stands for a group that took no part in the match). *)
Definition MatchArray : Type := list string.

Definition match_array (ngroups : nat) (f : Found) : MatchArray :=
  text (f_match f)
  :: map (fun i => match get_cap i (f_caps f) with
                   | Some v => text v
                   | None => ""
                   end) (seq 1 ngroups).

Definition at_index (m : MatchArray) (i : nat) : string := nth i m "".

Definition ngroups (r : regex) : nat := list_max (groups_of r).

(** [s.match(r)] for a regular expression without the [g] flag. *)
Definition regex_match (r : regex) (s : string) : option MatchArray :=
  match search r [] None (chars s) with
  | Some f => Some (match_array (ngroups r) f)
  | None => None
  end.

(** The successive matches of a [g] regular expression; after an empty
    match the scan moves on by one code unit, which then belongs to the
    text before the next match. *)
Fixpoint all_matches (r : regex) (fuel : nat) (before : list ascii)
    (prev : option ascii) (l : list ascii) : list Found :=
  match fuel with
  | 0 => []
  | S fuel' =>
      match search r before prev l with
      | None => []
      | Some f =>
          let y := f_end f in
          match f_match f, ms_rest y with
          | [], [] => [f]
          | [], a :: l' => f :: all_matches r fuel' [a] (Some a) l'
          | _ :: _, _ => f :: all_matches r fuel' [] (ms_prev y) (ms_rest y)
          end
      end
  end.

Definition scan (r : regex) (s : string) : list Found :=
  all_matches r (S (String.length s)) [] None (chars s).

(** [[...s.matchAll(r)]] *)
Definition regex_matchAll (r : regex) (s : string) : list MatchArray :=
  map (match_array (ngroups r)) (scan r s).

(** [s.replace(r, by)] for a [g] regular expression and a replacement
    text without [$] patterns: the text between the matches is kept, every
    match becomes [by], and the text after the last match is kept. *)
Definition after_matches (fs : list Found) (whole : list ascii) : list ascii :=
  match last fs with
  | Some f => ms_rest (f_end f)
  | None => whole
  end.

Definition regex_replaceAll (r : regex) (by_ : string) (s : string) : string :=
  let fs := scan r s in
  text (concat (map (fun f => f_before f ++ chars by_) fs)
        ++ after_matches fs (chars s)).

(* ===================================================================== *)
(** ** The regular-expression literals of the parsers *)
(* ===================================================================== *)

Definition plus (r : regex) : regex := Quant true 1 None r.
Definition lazy_plus (r : regex) : regex := Quant false 1 None r.
Definition star (r : regex) : regex := Quant true 0 None r.
Definition opt (r : regex) : regex := Quant true 0 (Some 1) r.
Definition times (lo hi : nat) (r : regex) : regex := Quant true lo (Some hi) r.

Fixpoint cat_all (rs : list regex) : regex :=
  match rs with
  | [] => Empty
  | [r] => r
  | r :: rs' => Cat r (cat_all rs')
  end.

Definition lit (s : string) : regex :=
  cat_all (map (fun c => Class (is_char c)) (chars s)).
(** a literal under the [i] flag *)
Definition lit_i (s : string) : regex :=
  cat_all (map (fun c => Class (ignore_case (is_char c))) (chars s)).

Definition digit : regex := Class is_digit.
Definition space : regex := Class is_space.
Definition tab : regex := Class (is_char "009"%char).

(** [\d+(?:,\d{3})*(?:\.\d{2})?], the numeric group of the NMB amount
    patterns. *)
Definition numeric_group : regex :=
  cat_all [plus digit;
           star (Cat (lit ",") (times 3 3 digit));
           opt (Cat (lit ".") (times 2 2 digit))].

Module Pattern.

(** [/(\d{1,2}\s+[A-Za-z]{3}\s+\d{4})/] *)
Definition nmbDate : regex :=
  Group 1 (cat_all [times 1 2 digit; plus space; times 3 3 (Class is_letter);
                    plus space; times 4 4 digit]).

(** [/\s+/g] *)
Definition spaces : regex := plus space.

(** [/Description\s+(\d+)/i] *)
Definition description : regex :=
  cat_all [lit_i "Description"; plus space; Group 1 (plus digit)].

(** [/@(\d+)@/] *)
Definition userId : regex := cat_all [lit "@"; Group 1 (plus digit); lit "@"].

(** [/=>\s*([A-Z\s]+?)(?:\t|$)/i] *)
Definition userName : regex :=
  cat_all [lit "=>"; star space;
           Group 1 (lazy_plus (Class (ignore_case (fun a => is_upper a || is_space a))));
           Alt tab EndAnchor].

(** [/\t(\d+(?:,\d{3})*(?:\.\d{2})?)\t+(?:TZS|$)/i] *)
Definition amount : regex :=
  cat_all [tab; Group 1 numeric_group; plus tab; Alt (lit_i "TZS") EndAnchor].

(** [/\t(\d+(?:,\d{3})*(?:\.\d{2})?)\s*\t*\s*TZS/i] *)
Definition altAmount : regex :=
  cat_all [tab; Group 1 numeric_group; star space; star tab; star space;
           lit_i "TZS"].

(** [/(\d+(?:,\d{3})*(?:\.\d{2})?)\s*(?:\t|TZS)/] *)
Definition deposit : regex :=
  cat_all [Group 1 numeric_group; star space; Alt tab (lit "TZS")].

(** [/\d{3}\s*-\s*([^-]+)\s*-/] *)
Definition productName : regex :=
  cat_all [times 3 3 digit; star space; lit "-"; star space;
           Group 1 (plus (Class (fun a => negb (is_char "-"%char a))));
           star space; lit "-"].

(** [/(\d{2}\.\d{2}\.\d{4})/] *)
Definition crdbDate : regex :=
  Group 1 (cat_all [times 2 2 digit; lit "."; times 2 2 digit; lit ".";
                    times 4 4 digit]).

(** [/\./g] *)
Definition dot : regex := lit ".".

(** [/([\d,]+\.\d{2})/g] *)
Definition amounts : regex :=
  Group 1 (cat_all [plus (Class (fun a => is_digit a || is_char ","%char a));
                    lit "."; times 2 2 digit]).

(** [/:(\d{10,14})\s+/] *)
Definition account : regex :=
  cat_all [lit ":"; Group 1 (times 10 14 digit); plus space].

(** [/REF:([a-zA-Z0-9]+)/] *)
Definition ref : regex := cat_all [lit "REF:"; Group 1 (plus (Class is_alnum))].

(** [/:([a-zA-Z\s]+):(?=\d{10,14})/] *)
Definition name : regex :=
  cat_all [lit ":"; Group 1 (plus (Class (fun a => is_letter a || is_space a)));
           lit ":"; Ahead (times 10 14 digit)].

(** [/\b(MC\d{3}[A-Z]{3})\b/i] *)
Definition memberCode : regex :=
  cat_all [WordBoundary;
           Group 1 (cat_all [lit_i "MC"; times 3 3 digit;
                             times 3 3 (Class (ignore_case is_upper))]);
           WordBoundary].

End Pattern.

(* ===================================================================== *)
(** ** Completions: what a block of code may do besides returning *)
(* ===================================================================== *)

(** A thrown value: an [Error] with its message, or anything else. *)
Inductive Thrown : Type :=
| ThrownError (message : string)
| ThrownOther.

Inductive Completion (A : Type) : Type :=
| Normal (a : A)
| Throw (e : Thrown).
Arguments Normal {A} a.
Arguments Throw {A} e.

(** Sequencing: a throw skips what follows.  With these instances
    [x ← m; k] reads as the statement [const x = m; k]. *)
#[global] Instance completion_ret : MRet Completion := fun A a => Normal a.
#[global] Instance completion_bind : MBind Completion := fun A B k m =>
  match m with
  | Normal a => k a
  | Throw e => Throw e
  end.

(** [error instanceof Error ? error.message : 'Unknown error'] *)
Definition describe (e : Thrown) : string :=
  match e with
  | ThrownError msg => msg
  | ThrownOther => "Unknown error"
  end.

(** The regular-expression services the extraction rules call.  Each call
    completes normally or throws. *)
Record RegExpRuntime : Type := {
  rt_match : regex -> string -> Completion (option MatchArray);
  rt_matchAll : regex -> string -> Completion (list MatchArray);
  rt_replace : regex -> string -> string -> Completion string
}.

(** The runtime of the language: the matcher above, which never throws. *)
Definition ecma : RegExpRuntime := {|
  rt_match := fun r s => Normal (regex_match r s);
  rt_matchAll := fun r s => Normal (regex_matchAll r s);
  rt_replace := fun r by_ s => Normal (regex_replaceAll r by_ s)
|}.

Inductive BankType : Type := NMB | CRDB.

(** The amount choice of the CRDB extractor among the amounts found on the
    line: with three or more the one before the last (debit, credit,
    balance), with two the last, with one that one, with none the empty
    string. *)
Definition pick_amount (allAmounts : list string) : string :=
  let n := length allAmounts in
  if 2 <=? n then
    if 3 <=? n then nth (n - 2) allAmounts "" else nth (n - 1) allAmounts ""
  else if n =? 1 then nth 0 allAmounts ""
  else "".

Definition group1 (m : option MatchArray) : string :=
  match m with
  | Some a => at_index a 1
  | None => ""
  end.

(** [ParseResult]; the two revisions of the parser differ in the record
    type [Tx] of one transaction only. *)
Record ParseResult (Tx : Type) : Type := {
  successful : list Tx;
  failed : list Tx;
  totalLines : nat;
  successCount : nat;
  failCount : nat;
  bankType : BankType
}.
Arguments successful {Tx} _.
Arguments failed {Tx} _.
Arguments totalLines {Tx} _.
Arguments successCount {Tx} _.
Arguments failCount {Tx} _.
Arguments bankType {Tx} _.

(** One turn of the [for] loop of [parseTransactions]: [acc] holds the
    arrays [successful] and [failed], [parsed] is the record of [line]. *)
Definition push_parsed {Tx : Type} (valid : Tx -> bool) (line : string)
    (parsed : Tx) (acc : list Tx * list Tx) : list Tx * list Tx :=
  if valid parsed then (acc.1 ++ [parsed], acc.2)
  else if truthy (trim line) then (acc.1, acc.2 ++ [parsed])
  else acc.

(** [rawData.split('\n').filter(line => line.trim())] *)
Definition input_lines (rawData : string) : list string :=
  List.filter (fun line => truthy (trim line)) (split_lines rawData).

(* ===================================================================== *)
(** ** The parser with the detailed record schema *)
(* ===================================================================== *)

Module Ledger.

Record ParsedTransaction : Type := {
  clientName : string;
  memberId : string;
  refId : string;
  userId : string;
  emailAddress : string;
  productType : string;
  productName : string;
  accountNumber : string;
  amount : string;
  type : string;
  principal : string;
  interest : string;
  charges : string;
  chargeName : string;
  transactionDate : string;
  operationType : string;
  transactionMode : string;
  transactionReferenceNumber : string;
  receiptNumber : string;
  chequeNumber : string;
  comment : string;
  rawLine : string;
  isValid : bool;
  errorMessage : option string;
  nationalId : option string
}.

(** The record of an unparsed line: every field empty. *)
Definition blank (raw : string) (msg : option string) (nid : option string)
    : ParsedTransaction := {|
  clientName := ""; memberId := ""; refId := ""; userId := "";
  emailAddress := ""; productType := ""; productName := "";
  accountNumber := ""; amount := ""; type := ""; principal := "";
  interest := ""; charges := ""; chargeName := ""; transactionDate := "";
  operationType := ""; transactionMode := "";
  transactionReferenceNumber := ""; receiptNumber := ""; chequeNumber := "";
  comment := ""; rawLine := raw; isValid := false; errorMessage := msg;
  nationalId := nid
|}.

Definition createEmptyTransaction (line : string) (errorMessage : option string)
    : ParsedTransaction :=
  blank line errorMessage (Some "").

Section Extractors.
Context (rt : RegExpRuntime).

(** The [try] block of [parseTransactionLine]. *)
Definition nmb_rules (trimmedLine : string) : Completion ParsedTransaction :=
  dateMatch ← rt_match rt Pattern.nmbDate trimmedLine;
  transactionDate ←
    match dateMatch with
    | Some m => d ← rt_replace rt Pattern.spaces " " (at_index m 1); mret (trim d)
    | None => mret ""
    end;
  descriptionMatch ← rt_match rt Pattern.description trimmedLine;
  let refId := group1 descriptionMatch in
  userIdMatch ← rt_match rt Pattern.userId trimmedLine;
  let userId0 := group1 userIdMatch in
  userNameMatch ← rt_match rt Pattern.userName trimmedLine;
  let userName := match userNameMatch with
                  | Some m => trim (at_index m 1)
                  | None => ""
                  end in
  let userId := if negb (truthy userId0) && truthy userName
                then userName else userId0 in
  amountMatch ← rt_match rt Pattern.amount trimmedLine;
  let amount0 := group1 amountMatch in
  amount1 ←
    (if negb (truthy amount0)
     then altMatch ← rt_match rt Pattern.altAmount trimmedLine;
          mret (group1 altMatch)
     else mret amount0);
  amount ←
    (if negb (truthy amount1)
     then depositMatch ← rt_match rt Pattern.deposit trimmedLine;
          mret (match depositMatch with
                | Some m => at_index m 1
                | None => amount1
                end)
     else mret amount1);
  let lower := toLowerCase trimmedLine in
  let productType :=
    if includes lower "cash deposit" then "Cash Deposit"
    else if includes lower "transfer" then "Transfer"
    else if includes lower "withdrawal" then "Withdrawal"
    else if includes lower "payment" then "Payment"
    else "Cash Deposit" in
  let operationType :=
    if includes lower "agency banking" then "Agency Banking"
    else if includes lower "mobile" then "Mobile Banking"
    else if includes lower "atm" then "ATM"
    else if includes lower "branch" then "Branch"
    else "Agency Banking" in
  productNameMatch ← rt_match rt Pattern.productName trimmedLine;
  let productName := match productNameMatch with
                     | Some m => trim (at_index m 1)
                     | None => "NMB Banking"
                     end in
  let type :=
    if includes lower "withdrawal" || includes lower "debit"
       || includes lower "payment"
    then "Debit" else "Credit" in
  let isValid := truthy refId || truthy amount || truthy transactionDate in
  mret {|
    clientName := ""; memberId := ""; refId := refId; userId := userId;
    emailAddress := ""; productType := productType;
    productName := productName; accountNumber := ""; amount := amount;
    type := type; principal := ""; interest := ""; charges := "";
    chargeName := ""; transactionDate := transactionDate;
    operationType := operationType; transactionMode := "";
    transactionReferenceNumber := ""; receiptNumber := "";
    chequeNumber := ""; comment := ""; rawLine := trimmedLine;
    isValid := isValid;
    errorMessage := if isValid then None
                    else Some "Could not extract required fields";
    nationalId := Some ""
  |}.

Definition parseTransactionLine (line : string) : ParsedTransaction :=
  let trimmedLine := trim line in
  if negb (truthy trimmedLine) then blank line (Some "Empty line") None
  else
    match nmb_rules trimmedLine with
    | Normal parsed => parsed
    | Throw error =>
        blank trimmedLine (Some ("Parse error: " +:+ describe error)) None
    end.

(** The [try] block of [parseCRDBTransactionLine]. *)
Definition crdb_rules (trimmedLine : string) : Completion ParsedTransaction :=
  dateMatch ← rt_match rt Pattern.crdbDate trimmedLine;
  transactionDate ←
    match dateMatch with
    | Some m => rt_replace rt Pattern.dot "-" (at_index m 1)
    | None => mret ""
    end;
  found ← rt_matchAll rt Pattern.amounts trimmedLine;
  let allAmounts := map (fun m => at_index m 1) found in
  let amount := pick_amount allAmounts in
  accountMatch ← rt_match rt Pattern.account trimmedLine;
  let accountNumber := group1 accountMatch in
  let userId := accountNumber in
  refMatch ← rt_match rt Pattern.ref trimmedLine;
  let refId := group1 refMatch in
  nameMatch ← rt_match rt Pattern.name trimmedLine;
  let possibleClientName := match nameMatch with
                            | Some m => trim (at_index m 1)
                            | None => ""
                            end in
  let isValid := truthy amount || truthy transactionDate in
  mret {|
    clientName := possibleClientName; memberId := ""; refId := refId;
    userId := userId; emailAddress := ""; productType := "Transfer";
    productName := "CRDB Transaction"; accountNumber := accountNumber;
    amount := amount; type := "Credit"; principal := ""; interest := "";
    charges := ""; chargeName := ""; transactionDate := transactionDate;
    operationType := "Digital Banking"; transactionMode := "Digital";
    transactionReferenceNumber := refId; receiptNumber := "";
    chequeNumber := ""; comment := trimmedLine; rawLine := trimmedLine;
    isValid := isValid;
    errorMessage := if isValid then None
                    else Some "Could not extract required fields from CRDB line";
    nationalId := Some ""
  |}.

Definition parseCRDBTransactionLine (line : string) : ParsedTransaction :=
  let trimmedLine := trim line in
  if negb (truthy trimmedLine) then createEmptyTransaction line (Some "Empty line")
  else
    match crdb_rules trimmedLine with
    | Normal parsed => parsed
    | Throw error =>
        createEmptyTransaction line (Some ("Parse error: " +:+ describe error))
    end.

Definition parse_line (bankType : BankType) (line : string) : ParsedTransaction :=
  match bankType with
  | CRDB => parseCRDBTransactionLine line
  | NMB => parseTransactionLine line
  end.

Definition parseTransactions (rawData : string) (bankType : BankType)
    : ParseResult ParsedTransaction :=
  let lines := input_lines rawData in
  let out :=
    fold_left (fun acc line =>
                 push_parsed isValid line (parse_line bankType line) acc)
              lines ([], []) in
  {| successful := out.1;
     failed := out.2;
     totalLines := length lines;
     successCount := length out.1;
     failCount := length out.2;
     bankType := bankType |}.

End Extractors.

End Ledger.

(* ===================================================================== *)
(** ** The customer directory service ([customerMappingService.ts]) *)
(* ===================================================================== *)

Module Directory.

Record CustomerMapping : Type := {
  memberId : string;
  customerName : string;
  phoneNumber : string;
  transactionNumber : string
}.

(** [String.prototype.toUpperCase] on code units whose upper case is a
    single code unit below 256. *)
Definition toUpperCase (s : string) : string := text (map canonicalize (chars s)).

Definition extractMemberIdFromDescription (description : string) : string :=
  match regex_match Pattern.memberCode description with
  | Some m => toUpperCase (at_index m 1)
  | None => ""
  end.

Definition findCustomerByMemberId (memberId_ : string)
    (mappings : list CustomerMapping) : string :=
  match List.find (fun m => String.eqb (memberId m) memberId_) mappings with
  | Some mapping => customerName mapping
  | None => ""
  end.

End Directory.

(* ===================================================================== *)
(** ** The parser with the bookkeeping-export record schema *)
(* ===================================================================== *)

Module QuickBooks.

Record ParsedTransaction : Type := {
  paymentDate : string;
  customer : string;
  paymentMethod : string;
  depositToAccountName : string;
  invoiceNo : string;
  journalNo : string;
  amount : string;
  referenceMemo : string;
  countryCode : string;
  exchangeRate : string;
  rawLine : string;
  isValid : bool;
  errorMessage : option string
}.

Definition createEmptyTransaction (line : string) (errorMessage : option string)
    : ParsedTransaction := {|
  paymentDate := ""; customer := ""; paymentMethod := "";
  depositToAccountName := ""; invoiceNo := ""; journalNo := ""; amount := "";
  referenceMemo := ""; countryCode := ""; exchangeRate := "";
  rawLine := line; isValid := false; errorMessage := errorMessage
|}.

(** [parsed.customer = customerName] *)
Definition set_customer (name : string) (t : ParsedTransaction)
    : ParsedTransaction := {|
  paymentDate := paymentDate t; customer := name;
  paymentMethod := paymentMethod t;
  depositToAccountName := depositToAccountName t; invoiceNo := invoiceNo t;
  journalNo := journalNo t; amount := amount t;
  referenceMemo := referenceMemo t; countryCode := countryCode t;
  exchangeRate := exchangeRate t; rawLine := rawLine t;
  isValid := isValid t; errorMessage := errorMessage t
|}.

Section Extractors.
Context (rt : RegExpRuntime).

(** The [try] block of [parseTransactionLine]. *)
Definition nmb_rules (trimmedLine : string) : Completion ParsedTransaction :=
  dateMatch ← rt_match rt Pattern.nmbDate trimmedLine;
  paymentDate ←
    match dateMatch with
    | Some m => d ← rt_replace rt Pattern.spaces " " (at_index m 1); mret (trim d)
    | None => mret ""
    end;
  descriptionMatch ← rt_match rt Pattern.description trimmedLine;
  let invoiceNo := group1 descriptionMatch in
  userIdMatch ← rt_match rt Pattern.userId trimmedLine;
  let userId0 := group1 userIdMatch in
  userNameMatch ← rt_match rt Pattern.userName trimmedLine;
  let userName := match userNameMatch with
                  | Some m => trim (at_index m 1)
                  | None => ""
                  end in
  let userId := if negb (truthy userId0) && truthy userName
                then userName else userId0 in
  amountMatch ← rt_match rt Pattern.amount trimmedLine;
  let amount0 := group1 amountMatch in
  amount1 ←
    (if negb (truthy amount0)
     then altMatch ← rt_match rt Pattern.altAmount trimmedLine;
          mret (group1 altMatch)
     else mret amount0);
  amount ←
    (if negb (truthy amount1)
     then depositMatch ← rt_match rt Pattern.deposit trimmedLine;
          mret (match depositMatch with
                | Some m => at_index m 1
                | None => amount1
                end)
     else mret amount1);
  let lower := toLowerCase trimmedLine in
  let paymentMethod :=
    if includes lower "transfer" then "Transfer"
    else if includes lower "mobile" then "Mobile Banking"
    else if includes lower "atm" then "ATM"
    else if includes lower "cheque" then "Cheque"
    else "Cash" in
  productNameMatch ← rt_match rt Pattern.productName trimmedLine;
  let depositToAccountName := match productNameMatch with
                              | Some m => trim (at_index m 1)
                              | None => "NMB Collection AC"
                              end in
  let customer := or_else userName "" in
  let referenceMemo := if truthy userId then userId else invoiceNo in
  let isValid := truthy invoiceNo || truthy amount || truthy paymentDate in
  mret {|
    paymentDate := paymentDate; customer := customer;
    paymentMethod := paymentMethod;
    depositToAccountName := depositToAccountName; invoiceNo := invoiceNo;
    journalNo := ""; amount := amount; referenceMemo := referenceMemo;
    countryCode := ""; exchangeRate := ""; rawLine := trimmedLine;
    isValid := isValid;
    errorMessage := if isValid then None
                    else Some "Could not extract required fields"
  |}.

Definition parseTransactionLine (line : string) : ParsedTransaction :=
  let trimmedLine := trim line in
  if negb (truthy trimmedLine) then createEmptyTransaction line (Some "Empty line")
  else
    match nmb_rules trimmedLine with
    | Normal parsed => parsed
    | Throw error =>
        createEmptyTransaction trimmedLine
          (Some ("Parse error: " +:+ describe error))
    end.

(** The [try] block of [parseCRDBTransactionLine]. *)
Definition crdb_rules (trimmedLine : string) : Completion ParsedTransaction :=
  dateMatch ← rt_match rt Pattern.crdbDate trimmedLine;
  paymentDate ←
    match dateMatch with
    | Some m => rt_replace rt Pattern.dot "/" (at_index m 1)
    | None => mret ""
    end;
  found ← rt_matchAll rt Pattern.amounts trimmedLine;
  let allAmounts := map (fun m => at_index m 1) found in
  let amount := pick_amount allAmounts in
  accountMatch ← rt_match rt Pattern.account trimmedLine;
  let accountNumber := group1 accountMatch in
  refMatch ← rt_match rt Pattern.ref trimmedLine;
  let invoiceNo := group1 refMatch in
  nameMatch ← rt_match rt Pattern.name trimmedLine;
  let customer := match nameMatch with
                  | Some m => trim (at_index m 1)
                  | None => ""
                  end in
  let isValid := truthy amount || truthy paymentDate in
  mret {|
    paymentDate := paymentDate; customer := customer;
    paymentMethod := "Transfer";
    depositToAccountName := "CRDB Collection AC"; invoiceNo := invoiceNo;
    journalNo := ""; amount := amount;
    referenceMemo := or_else accountNumber invoiceNo;
    countryCode := ""; exchangeRate := ""; rawLine := trimmedLine;
    isValid := isValid;
    errorMessage := if isValid then None
                    else Some "Could not extract required fields from CRDB line"
  |}.

Definition parseCRDBTransactionLine (line : string) : ParsedTransaction :=
  let trimmedLine := trim line in
  if negb (truthy trimmedLine) then createEmptyTransaction line (Some "Empty line")
  else
    match crdb_rules trimmedLine with
    | Normal parsed => parsed
    | Throw error =>
        createEmptyTransaction line (Some ("Parse error: " +:+ describe error))
    end.

Definition parse_line (bankType : BankType) (line : string) : ParsedTransaction :=
  match bankType with
  | CRDB => parseCRDBTransactionLine line
  | NMB => parseTransactionLine line
  end.

(** The enrichment inside the loop of [parseTransactions]: a valid
    record whose raw line carries a member code known to the directory
    takes that customer's name. *)
Definition enrich (customerMappings : list Directory.CustomerMapping)
    (parsed : ParsedTransaction) : ParsedTransaction :=
  if isValid parsed && (0 <? length customerMappings) then
    let memberId := Directory.extractMemberIdFromDescription (rawLine parsed) in
    if truthy memberId then
      let customerName := Directory.findCustomerByMemberId memberId customerMappings in
      if truthy customerName then set_customer customerName parsed else parsed
    else parsed
  else parsed.

Definition parseTransactions (rawData : string) (bankType : BankType)
    (customerMappings : list Directory.CustomerMapping)
    : ParseResult ParsedTransaction :=
  let lines := input_lines rawData in
  let out :=
    fold_left (fun acc line =>
                 push_parsed isValid line
                   (enrich customerMappings (parse_line bankType line)) acc)
              lines ([], []) in
  {| successful := out.1;
     failed := out.2;
     totalLines := length lines;
     successCount := length out.1;
     failCount := length out.2;
     bankType := bankType |}.

End Extractors.

End QuickBooks.

(* ===================================================================== *)
(** ** The identity resolver ([handleDataSubmit] of [AppLayout.tsx]) *)
(* ===================================================================== *)

(** A nullable text column: [string | null]. *)
Definition nullable : Type := option string.

(** [v || d] for a nullable [v] *)
Definition nullable_or (v : nullable) (d : string) : string :=
  match v with
  | Some s => or_else s d
  | None => d
  end.

(** [v && v === s] for a nullable [v] *)
Definition present_and_equal (v : nullable) (s : string) : bool :=
  match v with
  | Some x => truthy x && String.eqb x s
  | None => false
  end.

Module Resolver.
Import Ledger.

(** A row of the table [customer_mappings]. *)
Record CustomerMapping : Type := {
  id : string;
  member_id : string;
  ref_id : nullable;
  customer_name : nullable;
  email : nullable;
  account_number : nullable;
  phone_number : nullable;
  loan_product : nullable;
  created_at : string
}.

(** The three checks of the predicate handed to [find]. *)
Definition by_member_id (t : ParsedTransaction) (m : CustomerMapping) : bool :=
  truthy (member_id m) && String.eqb (member_id m) (userId t).

Definition by_ref_id (t : ParsedTransaction) (m : CustomerMapping) : bool :=
  present_and_equal (ref_id m) (refId t).

Definition by_account_number (t : ParsedTransaction) (m : CustomerMapping) : bool :=
  present_and_equal (account_number m) (userId t)
  || present_and_equal (account_number m) (refId t).

(** The predicate of [customerMappings.find(m => ...)]. *)
Definition is_match (t : ParsedTransaction) (m : CustomerMapping) : bool :=
  if by_member_id t m then true
  else if by_ref_id t m then true
  else if by_account_number t m then true
  else false.

Definition find_mapping (customerMappings : list CustomerMapping)
    (t : ParsedTransaction) : option CustomerMapping :=
  List.find (is_match t) customerMappings.

(** The object spread [{ ...t, clientName: ..., ... }]. *)
Definition overlay (mapping : CustomerMapping) (t : ParsedTransaction)
    : ParsedTransaction := {|
  clientName := nullable_or (customer_name mapping) "";
  memberId := or_else (member_id mapping) "";
  refId := refId t;
  userId := userId t;
  emailAddress := nullable_or (email mapping) (emailAddress t);
  productType := productType t;
  productName := nullable_or (loan_product mapping) (productName t);
  accountNumber :=
    or_else (nullable_or (account_number mapping) (accountNumber t))
            (if String.eqb (member_id mapping) (userId t) then userId t else "");
  amount := amount t;
  type := type t;
  principal := principal t;
  interest := interest t;
  charges := charges t;
  chargeName := chargeName t;
  transactionDate := transactionDate t;
  operationType := operationType t;
  transactionMode := transactionMode t;
  transactionReferenceNumber := transactionReferenceNumber t;
  receiptNumber := receiptNumber t;
  chequeNumber := chequeNumber t;
  comment := match customer_name mapping with
             | Some n => if truthy n then "Mapped to " +:+ n else comment t
             | None => comment t
             end;
  rawLine := rawLine t;
  isValid := isValid t;
  errorMessage := errorMessage t;
  nationalId := nationalId t
|}.

Definition resolve (customerMappings : list CustomerMapping)
    (t : ParsedTransaction) : ParsedTransaction :=
  match find_mapping customerMappings t with
  | Some mapping => overlay mapping t
  | None => t
  end.

(** The enrichment step of [handleDataSubmit] on the parse result. *)
Definition applyCustomerMappings (customerMappings : list CustomerMapping)
    (result : ParseResult ParsedTransaction) : ParseResult ParsedTransaction :=
  if 0 <? length customerMappings then
    {| successful := map (resolve customerMappings) (successful result);
       failed := failed result;
       totalLines := totalLines result;
       successCount := successCount result;
       failCount := failCount result;
       bankType := bankType result |}
  else result.

End Resolver.

(* ===================================================================== *)
(** ** The record store and [databaseService.ts] *)
(* ===================================================================== *)

Module Store.

(** The error object of a failed request.  The service reads its
    [message], and asks whether it is an [Error] when it has thrown it. *)
Record PostgrestError : Type := {
  message : string;
  instanceof_Error : bool
}.

(** [throw error] *)
Definition thrown (error : PostgrestError) : Thrown :=
  if instanceof_Error error then ThrownError (message error) else ThrownOther.

(** The payload of one row inserted into [parsed_transactions]
    ([national_id] is a column of the later schema only). *)
Record StoredTransaction : Type := {
  batch_id : string;
  ref_id : string;
  user_id : string;
  email_address : string;
  product_type : string;
  product_name : string;
  account_number : string;
  amount : string;
  transaction_type : string;
  principal : string;
  interest : string;
  charges : string;
  charge_name : string;
  transaction_date : string;
  operation_type : string;
  transaction_mode : string;
  transaction_ref_no : string;
  receipt_no : string;
  cheque_no : string;
  comment : string;
  raw_line : string;
  is_valid : bool;
  error_message : nullable;
  national_id : option nullable
}.

(** The two columns the existence check selects and filters on. *)
Inductive Column : Type := user_id_column | ref_id_column.

Definition column (c : Column) (row : StoredTransaction) : string :=
  match c with
  | user_id_column => user_id row
  | ref_id_column => ref_id row
  end.

(** What the two revisions of the service do differently: the record
    type, the deduplication key and its column, and the row written for
    a record. *)
Class Schema (Tx : Type) : Type := {
  dedup_key : BankType -> Tx -> string;
  key_column : BankType -> Column;
  amount_text : Tx -> string;
  saved_row : string -> Tx -> StoredTransaction;
  failed_row : string -> Tx -> StoredTransaction
}.

Inductive LogEntry : Type :=
| ConsoleLog (text : string) (values : list nat)
| ConsoleError (label : string) (error : Thrown).

(** [array.slice(i, i + size)] for [i = 0, size, 2 size, ...] below the
    length of the array. *)
Fixpoint slices {A : Type} (size fuel : nat) (l : list A) : list (list A) :=
  match fuel with
  | 0 => []
  | S fuel' =>
      match l with
      | [] => []
      | _ :: _ => take size l :: slices size fuel' (drop size l)
      end
  end.

Definition chunked {A : Type} (l : list A) : list (list A) :=
  slices 100 (length l) l.

(** The first failure among the next [n] requests, if there is one. *)
Fixpoint first_outage (n : nat) (outs : list (option PostgrestError))
    : option PostgrestError :=
  match n, outs with
  | S n', Some e :: _ => Some e
  | S n', None :: later => first_outage n' later
  | _, _ => None
  end.

(** The chunks that reach the store when [chunks] are sent one request
    each: those whose request does not fail. *)
Fixpoint delivered {A : Type} (chunks : list (list A))
    (outs : list (option PostgrestError)) : list (list A) :=
  match chunks, outs with
  | [], _ => []
  | chunk :: more, Some _ :: later => delivered more later
  | chunk :: more, None :: later => chunk :: delivered more later
  | chunk :: more, [] => chunk :: delivered more []
  end.

(** The errors of the requests that fail among them. *)
Fixpoint refused {A : Type} (chunks : list (list A))
    (outs : list (option PostgrestError)) : list PostgrestError :=
  match chunks, outs with
  | _ :: more, Some e :: later => e :: refused more later
  | _ :: more, None :: later => refused more later
  | _, _ => []
  end.

(** The result object of [saveBatchToDatabase]. *)
Record SaveResult : Type := {
  batchId : nullable;
  error : nullable;
  skippedCount : nat
}.

Section Service.
(** JavaScript numbers are left abstract: [amount_value s] stands for
    [parseFloat(s.replace(/,/g, '')) || 0]. *)
Context {Number : Type} (number_zero : Number)
        (number_add : Number -> Number -> Number)
        (amount_value : string -> Number).
(** The identifier the store gives to its n-th batch. *)
Context (new_batch_id : nat -> string).
(** [getSessionId()] and [new Date().toLocaleString()]. *)
Context (sessionId localeNow : string).

Record TransactionBatch : Type := {
  id : string;
  session_id : string;
  batch_name : string;
  total_lines : nat;
  success_count : nat;
  fail_count : nat;
  total_amount : Number
}.

Record Database : Type := {
  transaction_batches : list TransactionBatch;
  parsed_transactions : list StoredTransaction
}.

(** The world the service runs in: the store, the fate of the requests
    still to come ([Some e]: the request fails with [e] and changes
    nothing; requests beyond the list succeed), and the console. *)
Record World : Type := {
  db : Database;
  outages : list (option PostgrestError);
  console : list LogEntry
}.

Definition log (e : LogEntry) (w : World) : World :=
  {| db := db w; outages := outages w; console := console w ++ [e] |}.

(** One awaited request: [{ data, error }]. *)
Definition request {A : Type} (run : Database -> A * Database) (w : World)
    : (PostgrestError + A) * World :=
  match outages w with
  | Some e :: later =>
      (inl e, {| db := db w; outages := later; console := console w |})
  | None :: later =>
      let '(a, d) := run (db w) in
      (inr a, {| db := d; outages := later; console := console w |})
  | [] =>
      let '(a, d) := run (db w) in
      (inr a, {| db := d; outages := []; console := console w |})
  end.

(** The answer of the store to [select(c).in(c, keys)]: column [c] of
    the rows whose [c] is one of [keys]. *)
Definition matching (c : Column) (keys : list string) (d : Database)
    : list string :=
  map (column c)
      (List.filter (fun row => existsb (String.eqb (column c row)) keys)
                   (parsed_transactions d)).

(** [from('parsed_transactions').select(c).in(c, keys)] *)
Definition select_in (c : Column) (keys : list string)
    : World -> (PostgrestError + list string) * World :=
  request (fun d => (matching c keys d, d)).

(** [from('transaction_batches').insert(...).select().single()] *)
Definition insert_batch (name : string) (lines successes failures : nat)
    (total : Number) : World -> (PostgrestError + TransactionBatch) * World :=
  request (fun d =>
    let b := {| id := new_batch_id (length (transaction_batches d));
                session_id := sessionId; batch_name := name;
                total_lines := lines; success_count := successes;
                fail_count := failures; total_amount := total |} in
    (b, {| transaction_batches := transaction_batches d ++ [b];
           parsed_transactions := parsed_transactions d |})).

(** [from('parsed_transactions').insert(chunk)] *)
Definition insert_transactions (chunk : list StoredTransaction)
    : World -> (PostgrestError + unit) * World :=
  request (fun d =>
    (tt, {| transaction_batches := transaction_batches d;
            parsed_transactions := parsed_transactions d ++ chunk |})).

Context {Tx : Type} `{Schema Tx}.

Definition bank_name (bankType : BankType) : string :=
  match bankType with NMB => "NMB" | CRDB => "CRDB" end.

(** The [for] loop of [checkExistingTransactions] over the chunks of
    keys; a failed query throws its error out of the loop. *)
Fixpoint check_chunks (bankType : BankType) (chunks : list (list string))
    (existingIds : gset string) (w : World)
    : (PostgrestError + gset string) * World :=
  match chunks with
  | [] => (inr existingIds, w)
  | chunk :: more =>
      let '(response, w1) := select_in (key_column bankType) chunk w in
      match response with
      | inl error => (inl error, w1)
      | inr data =>
          let w2 :=
            log (ConsoleLog ("[CheckDuplicates] Found ${data.length} existing "
                             +:+ bank_name bankType +:+ " transactions in chunk")
                            [length data]) w1 in
          check_chunks bankType more (existingIds ∪ list_to_set data) w2
      end
  end.

(** [transactions.map(t => key).filter(id => id)] *)
Definition candidate_keys (transactions : list Tx) (bankType : BankType)
    : list string :=
  List.filter truthy (map (dedup_key bankType) transactions).

Definition checkExistingTransactions (transactions : list Tx)
    (bankType : BankType) (w : World) : (gset string * nullable) * World :=
  let ids := candidate_keys transactions bankType in
  let '(outcome, w1) :=
    if 0 <? length ids then check_chunks bankType (chunked ids) ∅ w
    else (inr ∅, w) in
  match outcome with
  | inr existingIds =>
      ((existingIds, None),
       log (ConsoleLog "[CheckDuplicates] Total existing IDs found: ${existingIds.size}"
                       [size existingIds]) w1)
  | inl error =>
      ((∅, Some (describe (thrown error))),
       log (ConsoleError "Error checking duplicates:" (thrown error)) w1)
  end.

(** The [for] loop of [saveBatchToDatabase] over the chunks of rows: a
    failed insert is reported on the console and the loop goes on. *)
Fixpoint insert_chunks (chunks : list (list StoredTransaction)) (w : World)
    : World :=
  match chunks with
  | [] => w
  | chunk :: more =>
      let '(response, w1) := insert_transactions chunk w in
      match response with
      | inl txError =>
          insert_chunks more
            (log (ConsoleError "Error saving transactions:" (thrown txError)) w1)
      | inr _ => insert_chunks more w1
      end
  end.

Definition has (existingIds : gset string) (key : string) : bool :=
  bool_decide (key ∈ existingIds).

(** [transactionsToSave] *)
Definition to_save (result : ParseResult Tx) (existingIds : gset string)
    : list Tx :=
  List.filter (fun t => negb (has existingIds (dedup_key (bankType result) t)))
              (successful result).

(** [allTransactions] *)
Definition write_set (batch : string) (saved : list Tx) (result : ParseResult Tx)
    : list StoredTransaction :=
  map (saved_row batch) saved ++ map (failed_row batch) (failed result).

(** The candidate keys that some stored row carries: the answer of the
    existence check when no query fails. *)
Definition known_keys (transactions : list Tx) (bankType : BankType)
    (d : Database) : gset string :=
  list_to_set (matching (key_column bankType)
                        (candidate_keys transactions bankType) d).

(** [transactionsToSave] after a check without failure. *)
Definition survivors (result : ParseResult Tx) (d : Database) : list Tx :=
  to_save result (known_keys (successful result) (bankType result) d).

Definition saveBatchToDatabase (result : ParseResult Tx) (batchName : nullable)
    (w : World) : SaveResult * World :=
  let '((existingIds, checkError), w1) :=
    checkExistingTransactions (successful result) (bankType result) w in
  if truthy (nullable_or checkError "") then
    ({| batchId := None; error := checkError; skippedCount := 0 |}, w1)
  else
    let transactionsToSave := to_save result existingIds in
    let skipped := length (successful result) - length transactionsToSave in
    if length transactionsToSave =? 0 then
      ({| batchId := None; error := None; skippedCount := skipped |},
       log (ConsoleLog "All transactions were duplicates. Skipping batch creation." [])
           w1)
    else
      let totalAmount :=
        fold_left (fun sum t => number_add sum (amount_value (amount_text t)))
                  transactionsToSave number_zero in
      let '(response, w2) :=
        insert_batch (nullable_or batchName ("Batch " +:+ localeNow))
                     (totalLines result) (length transactionsToSave)
                     (failCount result) totalAmount w1 in
      match response with
      | inl batchError =>
          ({| batchId := None; error := Some (message batchError);
              skippedCount := 0 |},
           log (ConsoleError "Error saving batch:" (thrown batchError)) w2)
      | inr batchData =>
          let allTransactions := write_set (id batchData) transactionsToSave result in
          ({| batchId := Some (id batchData); error := None;
              skippedCount := skipped |},
           insert_chunks (chunked allTransactions) w2)
      end.

End Service.

End Store.

(** [t.errorMessage || null] *)
Definition message_or_null (errorMessage : option string) : nullable :=
  match errorMessage with
  | Some s => if truthy s then Some s else None
  | None => None
  end.

(** The service over the detailed schema: NMB records are deduplicated on
    [userId] against the column [user_id], CRDB records on [refId] against
    [ref_id]. *)
Module LedgerStore.
Import Ledger Store.

Definition row (batchId : string) (valid : bool) (msg : nullable)
    (t : ParsedTransaction) : StoredTransaction := {|
  batch_id := batchId;
  ref_id := refId t;
  user_id := userId t;
  email_address := emailAddress t;
  product_type := productType t;
  product_name := productName t;
  account_number := accountNumber t;
  Store.amount := Ledger.amount t;
  transaction_type := type t;
  Store.principal := Ledger.principal t;
  Store.interest := Ledger.interest t;
  Store.charges := Ledger.charges t;
  charge_name := chargeName t;
  transaction_date := transactionDate t;
  operation_type := operationType t;
  transaction_mode := transactionMode t;
  transaction_ref_no := transactionReferenceNumber t;
  receipt_no := receiptNumber t;
  cheque_no := chequeNumber t;
  Store.comment := Ledger.comment t;
  raw_line := rawLine t;
  is_valid := valid;
  error_message := msg;
  national_id := None
|}.

#[global] Instance schema : Schema ParsedTransaction := {|
  dedup_key := fun bankType t =>
    match bankType with NMB => userId t | CRDB => refId t end;
  key_column := fun bankType =>
    match bankType with NMB => user_id_column | CRDB => ref_id_column end;
  amount_text := Ledger.amount;
  saved_row := fun batchId t => row batchId true None t;
  failed_row := fun batchId t =>
    row batchId false (message_or_null (errorMessage t)) t
|}.

End LedgerStore.

(** The service over the bookkeeping-export schema: every record is
    deduplicated on [invoiceNo] against the column [ref_id]. *)
Module QuickBooksStore.
Import QuickBooks Store.

Definition row (batchId : string) (valid : bool) (msg : nullable)
    (t : ParsedTransaction) : StoredTransaction := {|
  batch_id := batchId;
  ref_id := invoiceNo t;
  user_id := referenceMemo t;
  email_address := "";
  product_type := paymentMethod t;
  product_name := depositToAccountName t;
  account_number := "";
  Store.amount := QuickBooks.amount t;
  transaction_type := "Credit";
  principal := "";
  interest := "";
  charges := "";
  charge_name := "";
  transaction_date := paymentDate t;
  operation_type := paymentMethod t;
  transaction_mode := paymentMethod t;
  transaction_ref_no := invoiceNo t;
  receipt_no := journalNo t;
  cheque_no := "";
  comment := referenceMemo t;
  raw_line := rawLine t;
  is_valid := valid;
  error_message := msg;
  national_id := Some None
|}.

#[global] Instance schema : Schema ParsedTransaction := {|
  dedup_key := fun _ t => invoiceNo t;
  key_column := fun _ => ref_id_column;
  amount_text := QuickBooks.amount;
  saved_row := fun batchId t => row batchId true None t;
  failed_row := fun batchId t =>
    row batchId false (message_or_null (errorMessage t)) t
|}.

End QuickBooksStore.

(* ===================================================================== *)
(** ** What a regular expression denotes *)
(* ===================================================================== *)

(** The code unit before the position reached after reading [s]. *)
Definition last_char (prev : option ascii) (s : list ascii) : option ascii :=
  match last s with
  | Some a => Some a
  | None => prev
  end.

(** [n] iterations of a quantified expression with denotation [D]: an
    iteration made once the minimum is reached reads at least one code
    unit. *)
Fixpoint reps (D : option ascii -> list ascii -> list ascii -> Prop)
    (n mn : nat) (mx : option nat) (prev : option ascii) (s next : list ascii)
    : Prop :=
  match n with
  | 0 => s = [] /\ (mn = 0 \/ mx = Some 0)
  | S n' =>
      mx <> Some 0
      /\ exists s1 s2,
          s = s1 ++ s2
          /\ D prev s1 (s2 ++ next)
          /\ (mn = 0 -> s1 <> [])
          /\ reps D n' (pred mn) (pred_max mx) (last_char prev s1) s2 next
  end.

(** [denotes r prev s next]: the text [s], found after the code unit
    [prev] and before the text [next], is matched by [r]. *)
Fixpoint denotes (r : regex) (prev : option ascii) (s next : list ascii)
    {struct r} : Prop :=
  match r with
  | Empty => s = []
  | Class p => exists a, s = [a] /\ p a = true
  | Cat r1 r2 =>
      exists s1 s2, s = s1 ++ s2
                    /\ denotes r1 prev s1 (s2 ++ next)
                    /\ denotes r2 (last_char prev s1) s2 next
  | Alt r1 r2 => denotes r1 prev s next \/ denotes r2 prev s next
  | Quant _ mn mx r' => exists n, reps (denotes r') n mn mx prev s next
  | Group _ r' => denotes r' prev s next
  | Ahead r' =>
      s = [] /\ exists s' rest, next = s' ++ rest /\ denotes r' prev s' rest
  | WordBoundary => s = [] /\ xorb (word_at prev) (word_at (head next)) = true
  | EndAnchor => s = [] /\ next = []
  end.

(** What it means for a matcher to be sound for a denotation [D]. *)
Definition sound_for (D : option ascii -> list ascii -> list ascii -> Prop)
    (m : Matcher) : Prop :=
  forall x c z, m x c = Some z ->
    exists y s, c y = Some z
                /\ ms_rest x = s ++ ms_rest y
                /\ ms_prev y = last_char (ms_prev x) s
                /\ D (ms_prev x) s (ms_rest y).

(** What it means for a matcher to be complete for a denotation [D]: when
    it fails, the continuation fails after every text that [D] admits. *)
Definition complete_for (D : option ascii -> list ascii -> list ascii -> Prop)
    (m : Matcher) : Prop :=
  forall x c, m x c = None ->
    forall s next, ms_rest x = s ++ next -> D (ms_prev x) s next ->
      exists y, ms_rest y = next
                /\ ms_prev y = last_char (ms_prev x) s
                /\ c y = None.

(** Group [i] takes part in every match of [r]: it lies on every path
    through [r] and nothing after it clears it. *)
Fixpoint always_captures (i : nat) (r : regex) : bool :=
  match r with
  | Empty | Class _ | WordBoundary | EndAnchor => false
  | Cat r1 r2 =>
      (always_captures i r1 && negb (existsb (Nat.eqb i) (groups_of r2)))
      || always_captures i r2
  | Alt r1 r2 => always_captures i r1 && always_captures i r2
  | Quant _ mn mx r' =>
      negb (mn =? 0)
      && match mx with Some 0 => false | _ => true end
      && always_captures i r'
  | Group j r' => (j =? i) || always_captures i r'
  | Ahead r' => always_captures i r'
  end.

(** The captures of the groups outside [gs] are the same in [x] and [y]. *)
Definition caps_kept (gs : list nat) (x y : MatchState) : Prop :=
  forall i, ~ In i gs -> get_cap i (ms_caps y) = get_cap i (ms_caps x).

(** The groups that take part in every match of [r] are set in [y]. *)
Definition caps_set (r : regex) (y : MatchState) : Prop :=
  forall i, always_captures i r = true -> get_cap i (ms_caps y) <> None.

(** The regular expressions whose first group the parsers read. *)
Definition patterns_read_at_1 : list regex :=
  [Pattern.nmbDate; Pattern.description; Pattern.userId; Pattern.userName;
   Pattern.amount; Pattern.altAmount; Pattern.deposit; Pattern.productName;
   Pattern.crdbDate; Pattern.amounts; Pattern.account; Pattern.ref;
   Pattern.name; Pattern.memberCode].

(** The text of a scan up to the end of a found match. *)
Definition piece (f : Found) : list ascii := f_before f ++ f_match f.

(** Position [pos] of the scanned text lies in one of the found matches:
    at its first code unit or after it, and before its end. *)
Definition inside_a_match (fs : list Found) (pos : nat) : Prop :=
  exists earlier f later,
    fs = earlier ++ f :: later
    /\ length (concat (map piece earlier)) + length (f_before f) <= pos
    /\ pos < length (concat (map piece earlier)) + length (f_before f)
              + length (f_match f).

(** The texts of [[\d,]+\.\d{2}]: a run of digits and commas that is not
    empty, the commas standing anywhere in it, then a point and two
    digits.  The decimal numbers with two places are among them, and so
    are [,.00] and [,12500.00]. *)
Definition amount_text (m : list ascii) : Prop :=
  exists (whole : list ascii) (d1 d2 : ascii),
    m = whole ++ ["."%char; d1; d2]
    /\ whole <> []
    /\ Forall (fun a => is_digit a = true \/ a = ","%char) whole
    /\ is_digit d1 = true /\ is_digit d2 = true.

(** Some text matched by [r] starts at the beginning of [l], after
    [prev]. *)
Definition matches_here (r : regex) (prev : option ascii) (l : list ascii) : Prop :=
  exists s next, l = s ++ next /\ denotes r prev s next.

(** Every amount text of [l] begins in one of the found matches. *)
Definition every_amount_collected (fs : list Found) (l : list ascii) : Prop :=
  forall pre m rest,
    l = pre ++ m ++ rest -> amount_text m -> inside_a_match fs (length pre).

(* ===================================================================== *)
(** ** Properties stated by the specification, as predicates *)
(* ===================================================================== *)

(** Modelled from the spec: a decimal number with two places, optionally
    comma-grouped: digits, then any number of groups of a comma and three
    digits, then a point and two digits ([(\d+(?:,\d{3})*\.\d{2})]). *)
Definition spec_number : regex :=
  Group 1 (cat_all [plus digit;
                    star (Cat (lit ",") (times 3 3 digit));
                    lit "."; times 2 2 digit]).

(** Modelled from the spec: every occurrence of such a number in the
    line, from left to right. *)
Definition spec_amounts (line : string) : list string :=
  map (fun m => at_index m 1) (regex_matchAll spec_number line).

(** Modelled from the spec: the amount that the selection rule gives over
    these occurrences. *)
Definition spec_amount (line : string) : string :=
  pick_amount (spec_amounts line).

(** The record invariant of the data model over the fields it names. *)
Definition record_invariant (valid : bool) (referenceId amount transactionDate : string)
    (errorMessage : option string) : Prop :=
  (valid = true <-> referenceId <> "" \/ amount <> "" \/ transactionDate <> "")
  /\ (valid = false -> exists msg, errorMessage = Some msg /\ msg <> "").

(** The validity rule of the CRDB extractor. *)
Definition crdb_invariant (valid : bool) (amount transactionDate : string)
    (errorMessage : option string) : Prop :=
  (valid = true <-> amount <> "" \/ transactionDate <> "")
  /\ (valid = false -> exists msg, errorMessage = Some msg /\ msg <> "").

(** A runtime whose every service throws. *)
Definition broken (e : Thrown) : RegExpRuntime := {|
  rt_match := fun _ _ => Throw e;
  rt_matchAll := fun _ _ => Throw e;
  rt_replace := fun _ _ _ => Throw e
|}.

Definition nmb_sample : string :=
  "20  Jan 2026  20  Jan 2026    101 - NMB Head Office - Cash Deposit Agency banking - 2001 12 17 35 agency @22410063786@TPS900 Trx ID PS2085594242  Ter ID 2245105627   Description 963330000141!! From SAVCOM LIMITED COLLECTION ACC => VITUS VICENT ITABA  101AGD126020A4OE  12500.00    TZS 3826000.00".






(** A concrete world to run the service in: amounts counted in whole
    units, batches numbered in order, and an empty store. *)
Module Demo.

Fixpoint whole_units_from (acc : N) (l : list ascii) : N :=
  match l with
  | a :: l' =>
      if is_digit a then whole_units_from (10 * acc + N.of_nat (code a - 48)) l'
      else if is_char ","%char a then whole_units_from acc l'
      else acc
  | [] => acc
  end.

Definition whole_units (s : string) : N := whole_units_from 0 (chars s).

Definition batch_id (n : nat) : string := "batch-" +:+ pretty n.

Definition save {Tx : Type} {schema : Store.Schema Tx}
    : ParseResult Tx -> nullable -> Store.World -> Store.SaveResult * Store.World :=
  Store.saveBatchToDatabase 0%N N.add whole_units batch_id
                            "session_1768917540_k3x9" "1/20/2026, 1:59:00 PM".

Definition world (rows : list Store.StoredTransaction)
    (outages : list (option Store.PostgrestError)) : Store.World (Number := N) :=
  {| Store.db := {| Store.transaction_batches := [];
                    Store.parsed_transactions := rows |};
     Store.outages := outages;
     Store.console := [] |}.

(** A failure whose error is an [Error] with an empty message. *)
Definition silent_failure : Store.PostgrestError :=
  {| Store.message := ""; Store.instanceof_Error := true |}.

Definition timeout : Store.PostgrestError :=
  {| Store.message := "canceling statement due to statement timeout";
     Store.instanceof_Error := false |}.

(** The sample line as a batch of one. *)
Definition sample_batch : ParseResult Ledger.ParsedTransaction :=
  Ledger.parseTransactions ecma nmb_sample NMB.


(** One valid and one invalid line. *)
Definition mixed_batch : ParseResult Ledger.ParsedTransaction :=
  Ledger.parseTransactions ecma (nmb_sample +:+ "
no fields here") NMB.

(** A batch of 150 short valid NMB lines: two chunks of keys and two
    chunks of rows. *)
Definition bulk_batch : ParseResult Ledger.ParsedTransaction :=
  Ledger.parseTransactions ecma
    (String.concat (String "010"%char "") (repeat "20 Jan 2026 @1@" 150)) NMB.


End Demo.

(* ===================================================================== *)
(** * The rest of the application

    The functions around the parsers and the persistence routine: the
    extra batch used below, and further on the export tables, the
    comma-separated and XML writers, the export of stored rows, the
    session identifier, the directory reader and the handlers of the
    pages. *)
(* ===================================================================== *)

Module Samples.

(** The sample line pasted twice: two valid records with one key. *)
Definition doubled_batch : ParseResult Ledger.ParsedTransaction :=
  Ledger.parseTransactions ecma (nmb_sample +:+ "
" +:+ nmb_sample) NMB.

End Samples.

(* ===================================================================== *)
(** ** Global replacements, read without the matcher *)
(* ===================================================================== *)

(** Every code unit of the class [p] replaced by [by_]: what
    [s.replace(/c/g, by)] comes to for a one-character pattern. *)
Definition substitute (p : ascii -> bool) (by_ : list ascii) (l : list ascii)
    : list ascii :=
  flat_map (fun a => if p a then by_ else [a]) l.

(** The longest prefix of [l] in the class [p], and what follows it. *)
Fixpoint run_of (p : ascii -> bool) (l : list ascii) : list ascii :=
  match l with
  | a :: l' => if p a then a :: run_of p l' else []
  | [] => []
  end.

Fixpoint after_run (p : ascii -> bool) (l : list ascii) : list ascii :=
  match l with
  | a :: l' => if p a then after_run p l' else l
  | [] => []
  end.

(** Every maximal run of code units of the class [p] replaced by [by_]:
    what [s.replace(/c+/g, by)] comes to.  [in_run] tells that the code
    unit before belongs to a run already replaced. *)
Fixpoint squeeze_from (p : ascii -> bool) (by_ : list ascii) (in_run : bool)
    (l : list ascii) : list ascii :=
  match l with
  | [] => []
  | a :: l' =>
      if p a then (if in_run then [] else by_) ++ squeeze_from p by_ true l'
      else a :: squeeze_from p by_ false l'
  end.

Definition squeeze (p : ascii -> bool) (by_ : list ascii) (l : list ascii)
    : list ascii :=
  squeeze_from p by_ false l.

(* ===================================================================== *)
(** ** The shapes of the extracted fields *)
(* ===================================================================== *)

Definition all_in (p : ascii -> bool) (l : list ascii) : Prop :=
  Forall (fun a => p a = true) l.

(** A date as the NMB extractor returns it: one or two digits, a space,
    three letters, a space, four digits. *)
Definition nmb_date_text (s : string) : Prop :=
  exists day month year,
    s = text (day ++ " "%char :: month ++ " "%char :: year)
    /\ 1 <= length day <= 2 /\ all_in is_digit day
    /\ length month = 3 /\ all_in is_letter month
    /\ length year = 4 /\ all_in is_digit year.

(** A date as the CRDB extractor returns it: the eight digits of day,
    month and year with the separator [sep] after the second and after
    the fourth. *)
Definition crdb_date (sep : ascii) (digits : list ascii) : string :=
  match digits with
  | [d1; d2; m1; m2; y1; y2; y3; y4] =>
      text [d1; d2; sep; m1; m2; sep; y1; y2; y3; y4]
  | _ => ""
  end.

(** A date as a CRDB line writes it, [dd.mm.yyyy]: the text that the
    extractor rewrites. *)
Definition dotted_date (m : list ascii) : Prop :=
  exists digits,
    length digits = 8 /\ all_in is_digit digits
    /\ m = chars (crdb_date "."%char digits).

(** A number as the NMB amount patterns capture it: digits, then groups
    of a comma and three digits, then possibly a point and two digits. *)
Definition number_text (s : string) : Prop :=
  exists whole groups cents,
    s = text (whole ++ concat groups ++ cents)
    /\ whole <> [] /\ all_in is_digit whole
    /\ Forall (fun g => exists a b c, g = [","%char; a; b; c]
                                      /\ all_in is_digit [a; b; c]) groups
    /\ (cents = []
        \/ exists a b, cents = ["."%char; a; b] /\ all_in is_digit [a; b]).

(** A member code in upper case: [MC], three digits, three letters. *)
Definition member_code_text (s : string) : Prop :=
  exists d1 d2 d3 l1 l2 l3,
    s = text ["M"%char; "C"%char; d1; d2; d3; l1; l2; l3]
    /\ all_in is_digit [d1; d2; d3] /\ all_in is_upper [l1; l2; l3].

(** The message of a record whose line gave none of the key fields. *)
Definition no_fields_message (bankType : BankType) : string :=
  match bankType with
  | NMB => "Could not extract required fields"
  | CRDB => "Could not extract required fields from CRDB line"
  end.

(* ===================================================================== *)
(** ** The export tables ([generateExcelData]) *)
(* ===================================================================== *)

Module LedgerSheet.
Import Ledger.

Definition headers : list string :=
  ["Client Name"; "Member ID"; "Ref Id"; "User Id"; "Email Address";
   "Product Type"; "Product Name"; "AccountNumber"; "Amount"; "Type";
   "Principal"; "Interest"; "Charges"; "Charge Name"; "Transaction Date";
   "Operation Type"; "Transaction Mode"; "Transaction Reference Number";
   "Receipt Number"; "Cheque Number"; "Comment"].

(** The row of one transaction. *)
Definition cells (t : ParsedTransaction) : list string :=
  [clientName t; memberId t; refId t; userId t; emailAddress t; productType t;
   productName t; accountNumber t; amount t; type t; principal t; interest t;
   charges t; chargeName t; transactionDate t; operationType t;
   transactionMode t; transactionReferenceNumber t; receiptNumber t;
   chequeNumber t; comment t].

Definition generateExcelData (transactions : list ParsedTransaction)
    : list (list string) :=
  headers :: map cells transactions.

End LedgerSheet.

Module QuickBooksSheet.
Import QuickBooks.

Definition headers : list string :=
  ["Payment Date"; "Customer"; "Payment Method"; "Deposit To Account Name";
   "Invoice No"; "Journal No"; "Amount"; "Reference Memo"; "Country Code";
   "Exchange Rate"].

Definition cells (t : ParsedTransaction) : list string :=
  [paymentDate t; customer t; paymentMethod t; depositToAccountName t;
   invoiceNo t; journalNo t; amount t; referenceMemo t; countryCode t;
   exchangeRate t].

Definition generateExcelData (transactions : list ParsedTransaction)
    : list (list string) :=
  headers :: map cells transactions.

End QuickBooksSheet.

(* ===================================================================== *)
(** ** The writers of the export utility *)
(* ===================================================================== *)

Module Writer.

Definition quote : ascii := "034"%char.
Definition line_feed : ascii := "010"%char.
Definition comma : ascii := ","%char.

(** [array.join(sep)] on an array of strings *)
Fixpoint join (sep : string) (l : list string) : string :=
  match l with
  | [] => ""
  | [x] => x
  | x :: more => x +:+ sep +:+ join sep more
  end.

(** One cell of the comma-separated text: a cell with a comma, a quote or
    a line feed is wrapped in quotes, its quotes doubled. *)
Definition csv_cell (cell : string) : string :=
  let cellStr := or_else cell "" in
  if includes cellStr (text [comma]) || includes cellStr (text [quote])
     || includes cellStr (text [line_feed])
  then text [quote]
       +:+ regex_replaceAll (lit (text [quote])) (text [quote; quote]) cellStr
       +:+ text [quote]
  else cellStr.

(** The body of [generateCSV] on the table of [generateExcelData]. *)
Definition csv_text (data : list (list string)) : string :=
  join (text [line_feed])
       (map (fun row => join (text [comma]) (map csv_cell row)) data).

(** [escapeXML], the local function of [generateExcelXML]. *)
Definition escapeXML (str : string) : string :=
  regex_replaceAll (lit "'") "&apos;"
    (regex_replaceAll (lit (text [quote])) "&quot;"
       (regex_replaceAll (lit ">") "&gt;"
          (regex_replaceAll (lit "<") "&lt;"
             (regex_replaceAll (lit "&") "&amp;" (or_else str ""))))).

(** What [escapeXML] writes for one code unit. *)
Definition escaped (a : ascii) : list ascii :=
  if is_char "&"%char a then chars "&amp;"
  else if is_char "<"%char a then chars "&lt;"
  else if is_char ">"%char a then chars "&gt;"
  else if is_char quote a then chars "&quot;"
  else if is_char "'"%char a then chars "&apos;"
  else [a].

(** The code unit whose escape starts the text [l], and the text after
    that escape. *)
Definition unescape_head (l : list ascii) : option (ascii * list ascii) :=
  if is_prefix (chars "&amp;") l then Some ("&"%char, drop 5 l)
  else if is_prefix (chars "&lt;") l then Some ("<"%char, drop 4 l)
  else if is_prefix (chars "&gt;") l then Some (">"%char, drop 4 l)
  else if is_prefix (chars "&quot;") l then Some (quote, drop 6 l)
  else if is_prefix (chars "&apos;") l then Some ("'"%char, drop 6 l)
  else match l with
       | a :: r => Some (a, r)
       | [] => None
       end.

(** A code unit that is markup in XML text or in an attribute value. *)
Definition is_markup (a : ascii) : bool :=
  is_char "<"%char a || is_char ">"%char a || is_char quote a
  || is_char "'"%char a.

(** A reader of comma-separated text, the counterpart of [csv_text]: a
    cell that starts with a quote runs to the next quote that is not
    doubled, any other cell to the next comma or line feed.  [cur] is
    the cell being read and [row] the cells of the row read so far, both
    reversed. *)
Inductive ReaderMode : Type := AtStart | InPlain | InQuoted | AfterQuote.

Fixpoint read_from (mode : ReaderMode) (cur : list ascii) (row : list string)
    (l : list ascii) : list (list string) :=
  match l with
  | [] => [rev (text (rev cur) :: row)]
  | a :: l' =>
      match mode with
      | InQuoted =>
          if is_char quote a then read_from AfterQuote cur row l'
          else read_from InQuoted (a :: cur) row l'
      | _ =>
          if is_char comma a then read_from AtStart [] (text (rev cur) :: row) l'
          else if is_char line_feed a
               then rev (text (rev cur) :: row) :: read_from AtStart [] [] l'
               else if is_char quote a
                    then match mode with
                         | AtStart => read_from InQuoted [] row l'
                         | AfterQuote => read_from InQuoted (a :: cur) row l'
                         | _ => read_from InPlain (a :: cur) row l'
                         end
                    else read_from InPlain (a :: cur) row l'
      end
  end.

Definition read_csv (s : string) : list (list string) :=
  read_from AtStart [] [] (chars s).

End Writer.

Module LedgerWriter.

(** [generateCSV] over the detailed schema. *)
Definition generateCSV (transactions : list Ledger.ParsedTransaction) : string :=
  Writer.csv_text (LedgerSheet.generateExcelData transactions).

End LedgerWriter.

Module QuickBooksWriter.

Definition generateCSV (transactions : list QuickBooks.ParsedTransaction) : string :=
  Writer.csv_text (QuickBooksSheet.generateExcelData transactions).

End QuickBooksWriter.

(** A code unit that makes the writer quote its cell. *)
Definition special (a : ascii) : bool :=
  is_char Writer.comma a || is_char Writer.quote a || is_char Writer.line_feed a.

(** What the reader does at the end of a cell. *)
Definition cell_done (cell : string) (row : list string) (rest : list ascii)
    : list (list string) :=
  match rest with
  | [] => [rev (cell :: row)]
  | a :: more =>
      if is_char Writer.comma a
      then Writer.read_from Writer.AtStart [] (cell :: row) more
      else rev (cell :: row) :: Writer.read_from Writer.AtStart [] [] more
  end.

(** The text after a cell: nothing, or a comma or a line feed first. *)
Definition ends_cell (rest : list ascii) : Prop :=
  match rest with
  | [] => True
  | a :: _ => is_char Writer.comma a || is_char Writer.line_feed a = true
  end.


(* ===================================================================== *)
(** ** Reading stored rows back for export *)
(* ===================================================================== *)

Module Cloud.

(** A row of [parsed_transactions] as the store returns it (the
    interface [StoredTransaction]). *)
Record StoredTransaction : Type := {
  id : string;
  batch_id : string;
  ref_id : string;
  user_id : string;
  email_address : nullable;
  product_type : string;
  product_name : string;
  account_number : nullable;
  amount : string;
  transaction_type : string;
  principal : nullable;
  interest : nullable;
  charges : nullable;
  charge_name : nullable;
  transaction_date : string;
  operation_type : string;
  transaction_mode : nullable;
  transaction_ref_no : nullable;
  receipt_no : nullable;
  cheque_no : nullable;
  comment : nullable;
  raw_line : string;
  is_valid : bool;
  error_message : nullable;
  national_id : option nullable;
  created_at : string
}.

(** How the store returns a row that was inserted with the payload
    [row]: the columns as they were given, under the identifier and the
    creation time that the store has set. *)
Definition stored_as (id_ created : string) (row : Store.StoredTransaction)
    : StoredTransaction := {|
  id := id_;
  batch_id := Store.batch_id row;
  ref_id := Store.ref_id row;
  user_id := Store.user_id row;
  email_address := Some (Store.email_address row);
  product_type := Store.product_type row;
  product_name := Store.product_name row;
  account_number := Some (Store.account_number row);
  amount := Store.amount row;
  transaction_type := Store.transaction_type row;
  principal := Some (Store.principal row);
  interest := Some (Store.interest row);
  charges := Some (Store.charges row);
  charge_name := Some (Store.charge_name row);
  transaction_date := Store.transaction_date row;
  operation_type := Store.operation_type row;
  transaction_mode := Some (Store.transaction_mode row);
  transaction_ref_no := Some (Store.transaction_ref_no row);
  receipt_no := Some (Store.receipt_no row);
  cheque_no := Some (Store.cheque_no row);
  comment := Some (Store.comment row);
  raw_line := Store.raw_line row;
  is_valid := Store.is_valid row;
  error_message := Store.error_message row;
  national_id := Store.national_id row;
  created_at := created
|}.

(** [v || undefined] for a nullable [v] *)
Definition or_undefined (v : nullable) : option string :=
  match v with
  | Some s => if truthy s then Some s else None
  | None => None
  end.

End Cloud.

Module LedgerCloud.
Import Cloud.

(** [convertToExportFormat] of the service over the detailed schema. *)
Definition convertToExportFormat (transactions : list StoredTransaction)
    : list Ledger.ParsedTransaction :=
  map (fun t => {|
    Ledger.clientName := "";
    Ledger.memberId := "";
    Ledger.refId := ref_id t;
    Ledger.userId := user_id t;
    Ledger.emailAddress := nullable_or (email_address t) "";
    Ledger.productType := product_type t;
    Ledger.productName := product_name t;
    Ledger.accountNumber := nullable_or (account_number t) "";
    Ledger.amount := amount t;
    Ledger.type := transaction_type t;
    Ledger.principal := nullable_or (principal t) "";
    Ledger.interest := nullable_or (interest t) "";
    Ledger.charges := nullable_or (charges t) "";
    Ledger.chargeName := nullable_or (charge_name t) "";
    Ledger.transactionDate := transaction_date t;
    Ledger.operationType := operation_type t;
    Ledger.transactionMode := nullable_or (transaction_mode t) "";
    Ledger.transactionReferenceNumber := nullable_or (transaction_ref_no t) "";
    Ledger.receiptNumber := nullable_or (receipt_no t) "";
    Ledger.chequeNumber := nullable_or (cheque_no t) "";
    Ledger.comment := nullable_or (comment t) "";
    Ledger.rawLine := raw_line t;
    Ledger.isValid := is_valid t;
    Ledger.errorMessage := or_undefined (error_message t);
    Ledger.nationalId := None
  |}) transactions.

End LedgerCloud.

Module QuickBooksCloud.
Import Cloud.

(** [convertToExportFormat] of the service over the bookkeeping schema. *)
Definition convertToExportFormat (transactions : list StoredTransaction)
    : list QuickBooks.ParsedTransaction :=
  map (fun t => {|
    QuickBooks.paymentDate := transaction_date t;
    QuickBooks.customer := "";
    QuickBooks.paymentMethod := product_type t;
    QuickBooks.depositToAccountName := product_name t;
    QuickBooks.invoiceNo := ref_id t;
    QuickBooks.journalNo := nullable_or (receipt_no t) "";
    QuickBooks.amount := amount t;
    QuickBooks.referenceMemo := nullable_or (comment t) (user_id t);
    QuickBooks.countryCode := "";
    QuickBooks.exchangeRate := "";
    QuickBooks.rawLine := raw_line t;
    QuickBooks.isValid := is_valid t;
    QuickBooks.errorMessage := or_undefined (error_message t)
  |}) transactions.

End QuickBooksCloud.

(* ===================================================================== *)
(** ** The session identifier ([getSessionId]) *)
(* ===================================================================== *)

Module Session.

(** [localStorage]: [getItem] is the lookup, [setItem] the insertion. *)
Abbreviation Storage := (gmap string string).

Definition storageKey : string := "nmb_parser_session_id".

(** [s.substring(2, 15)] *)
Definition substring_2_15 (s : string) : string :=
  text (take 13 (drop 2 (chars s))).

(** [getSessionId()], given what [Date.now()] and
    [Math.random().toString(36)] return when they are called. *)
Definition getSessionId (now : nat) (random36 : string) (localStorage : Storage)
    : string * Storage :=
  let stored := match localStorage !! storageKey with
                | Some sessionId => sessionId
                | None => ""
                end in
  if negb (truthy stored) then
    let sessionId := "session_" +:+ pretty now +:+ "_" +:+ substring_2_15 random36 in
    (sessionId, <[storageKey := sessionId]> localStorage)
  else (stored, localStorage).

End Session.

(* ===================================================================== *)
(** ** The pages of the tables ([ResultsTable], [FailedRecordsPanel]) *)
(* ===================================================================== *)

Module Paging.

(** [Math.ceil(length / itemsPerPage)]; the quotient of two array
    lengths is far enough from the next integer for the floating-point
    division not to reach it. *)
Definition totalPages (itemsPerPage length_ : nat) : nat :=
  (length_ + itemsPerPage - 1) / itemsPerPage.

(** [items.slice((currentPage - 1) * itemsPerPage, currentPage * itemsPerPage)] *)
Definition page {A : Type} (itemsPerPage currentPage : nat) (items : list A)
    : list A :=
  take (currentPage * itemsPerPage - (currentPage - 1) * itemsPerPage)
       (drop ((currentPage - 1) * itemsPerPage) items).

(** The four buttons: first, previous, next, last. *)
Definition first_page : nat := 1.
Definition previous_page (currentPage : nat) : nat := Nat.max 1 (currentPage - 1).
Definition next_page (total currentPage : nat) : nat := Nat.min total (currentPage + 1).
Definition last_page (total : nat) : nat := total.

End Paging.

(* ===================================================================== *)
(** ** The input panel ([DataInputSection]) *)
(* ===================================================================== *)

Module DataInput.

(** [inputData.split('\n').filter(l => l.trim()).length] *)
Definition lineCount (inputData : string) : nat :=
  length (List.filter (fun l => truthy (trim l)) (split_lines inputData)).

(** [handleSubmit]: the call of [onDataSubmit] that it makes, if any. *)
Definition handleSubmit (inputData : string) (bankType : BankType)
    : option (string * BankType) :=
  if truthy (trim inputData) then Some (inputData, bankType) else None.

End DataInput.

(* ===================================================================== *)
(** ** The handlers of the main page ([AppLayout.tsx]) *)
(* ===================================================================== *)

Module App.

Inductive MessageType : Type := success | error.

(** [{ type, text }] of [saveMessage] *)
Record SaveMessage : Type := {
  message_type : MessageType;
  message_text : string
}.

Record HistoryEntry : Type := {
  entry_id : string;
  timestamp : nat;
  result : ParseResult Ledger.ParsedTransaction
}.

(** The state of the component that its handlers read and set. *)
Record State : Type := {
  isProcessing : bool;
  isSaving : bool;
  parseResult : option (ParseResult Ledger.ParsedTransaction);
  transactions : list Ledger.ParsedTransaction;
  history : list HistoryEntry;
  cloudRefreshTrigger : nat;
  saveMessage : option SaveMessage;
  customerMappings : list Resolver.CustomerMapping
}.

(** What one submission parses: the parse result with the customer
    mappings applied. *)
Definition submitted (mappings : list Resolver.CustomerMapping) (data : string)
    (bankType : BankType) : ParseResult Ledger.ParsedTransaction :=
  Resolver.applyCustomerMappings mappings (Ledger.parseTransactions ecma data bankType).

(** [handleDataSubmit(data, bankType)], given what [Date.now()] and
    [new Date()] return; the state is the one in which the handler leaves
    the component. *)
Definition handleDataSubmit (now created : nat) (data : string)
    (bankType : BankType) (s : State) : State :=
  let result := submitted (customerMappings s) data bankType in
  let newEntry := {| entry_id := pretty now; timestamp := created;
                     result := result |} in
  {| isProcessing := false;
     isSaving := isSaving s;
     parseResult := Some result;
     transactions := successful result;
     history := newEntry :: take 9 (history s);
     cloudRefreshTrigger := cloudRefreshTrigger s;
     saveMessage := None;
     customerMappings := customerMappings s |}.

(** A run of submissions, each with its two clock readings. *)
Definition Submission : Type := nat * nat * string * BankType.

Definition submit (s : State) (sub : Submission) : State :=
  let '(now, created, data, bankType) := sub in
  handleDataSubmit now created data bankType s.

Definition with_message (message : option SaveMessage) (saving : bool)
    (refresh : nat) (s : State) : State :=
  {| isProcessing := isProcessing s;
     isSaving := saving;
     parseResult := parseResult s;
     transactions := transactions s;
     history := history s;
     cloudRefreshTrigger := refresh;
     saveMessage := message;
     customerMappings := customerMappings s |}.

Section Saving.
Context {Number : Type} (number_zero : Number)
        (number_add : Number -> Number -> Number)
        (amount_value : string -> Number).
Context (new_batch_id : nat -> string) (sessionId localeNow : string).

(** [handleSaveToCloud()], given what [toLocaleDateString()] and
    [toLocaleTimeString()] return; the state is the one in which the
    handler leaves the component, before the timer that clears the
    message. *)
Definition handleSaveToCloud (localeDate localeTime : string) (s : State)
    (w : Store.World (Number := Number)) : State * Store.World (Number := Number) :=
  let nothing :=
    (with_message (Some {| message_type := error;
                           message_text := "No transactions to save" |})
                  (isSaving s) (cloudRefreshTrigger s) s, w) in
  match parseResult s with
  | None => nothing
  | Some result =>
      if successCount result =? 0 then nothing
      else
        let batchName := "Batch " +:+ localeDate +:+ " " +:+ localeTime in
        let '(saved, w') :=
          Store.saveBatchToDatabase number_zero number_add amount_value
                                    new_batch_id sessionId localeNow
                                    result (Some batchName) w in
        if truthy (nullable_or (Store.error saved) "") then
          (with_message
             (Some {| message_type := error;
                      message_text := "Failed to save: "
                                      +:+ nullable_or (Store.error saved) "" |})
             false (cloudRefreshTrigger s) s, w')
        else if truthy (nullable_or (Store.batchId saved) "") then
          (with_message
             (Some {| message_type := success;
                      message_text := "Transactions saved to cloud successfully!" |})
             false (cloudRefreshTrigger s + 1) s, w')
        else (with_message None false (cloudRefreshTrigger s) s, w')
  end.

End Saving.

End App.

(* ===================================================================== *)
(** ** The reader of the customer sheet ([parseCSV]) *)
(* ===================================================================== *)

Module Sheet.
Import Directory.

(** [s.split(c)] for a separator [c] of one code unit: the pieces between
    the separators; always at least one piece. *)
Fixpoint split_chars (sep : ascii) (cur : list ascii) (l : list ascii)
    : list (list ascii) :=
  match l with
  | [] => [rev cur]
  | a :: l' =>
      if is_char sep a then rev cur :: split_chars sep [] l'
      else split_chars sep (a :: cur) l'
  end.

Definition split (sep : ascii) (s : string) : list string :=
  map text (split_chars sep [] (chars s)).

(** The body of the loop of [parseCSV] for the parts of one line. *)
Definition mapping_of (parts : list string) : list CustomerMapping :=
  match parts with
  | p0 :: p1 :: p2 :: p3 :: _ =>
      [{| memberId := trim p0; customerName := trim p1;
          phoneNumber := trim p2; transactionNumber := trim p3 |}]
  | _ => []
  end.

Definition parseCSV (csvText : string) : list CustomerMapping :=
  let lines := split Writer.line_feed (trim csvText) in
  flat_map (fun raw =>
              let line := trim raw in
              if negb (truthy line) then []
              else mapping_of (split Writer.comma line))
           (drop 1 lines).

(** A field that the reader returns as it is written: no white space at
    either end, no comma and no line feed. *)
Definition clean (field : string) : Prop :=
  trim field = field
  /\ Forall (fun a => is_char Writer.comma a = false
                      /\ is_char Writer.line_feed a = false) (chars field).

Definition clean_mapping (m : CustomerMapping) : Prop :=
  clean (memberId m) /\ clean (customerName m) /\ clean (phoneNumber m)
  /\ clean (transactionNumber m).

(** The line of a customer in the sheet, and the text of a sheet with
    its header line. *)
Definition sheet_line (m : CustomerMapping) : string :=
  Writer.join (text [Writer.comma])
              [memberId m; customerName m; phoneNumber m; transactionNumber m].

Definition sheet_text (header : string) (ms : list CustomerMapping) : string :=
  Writer.join (text [Writer.line_feed]) (header :: map sheet_line ms).

(** A text that is not empty and has no white space at either end. *)
Definition tidy (l : list ascii) : Prop :=
  l <> [] /\ drop_spaces l = l /\ drop_spaces (rev l) = rev l.

End Sheet.
(* ===================================================================== *)
(** ** Strings *)
(* ===================================================================== *)

Lemma truthy_true (s : string) : truthy s = true <-> s <> "".
Proof. destruct s; simpl; split; congruence. Qed.

Lemma truthy_false (s : string) : truthy s = false <-> s = "".
Proof. destruct s; simpl; split; congruence. Qed.

Lemma text_chars (s : string) : text (chars s) = s.
Proof. apply string_of_list_ascii_of_string. Qed.

Lemma chars_text (l : list ascii) : chars (text l) = l.
Proof. apply list_ascii_of_string_of_list_ascii. Qed.


Lemma code_inj (a b : ascii) : code a = code b -> a = b.
Proof.
  unfold code. intros H.
  rewrite <- (ascii_nat_embedding a), <- (ascii_nat_embedding b), H. reflexivity.
Qed.

Lemma text_nil (l : list ascii) : text l = "" <-> l = [].
Proof. destruct l; simpl; split; congruence. Qed.

Lemma drop_spaces_nil (l : list ascii) :
  drop_spaces l = [] <-> forallb is_space l = true.
Proof.
  induction l as [|a l IH]; simpl; [tauto |].
  destruct (is_space a); simpl; [exact IH | split; discriminate].
Qed.

Lemma drop_spaces_head (l : list ascii) (a : ascii) (l' : list ascii) :
  drop_spaces l = a :: l' -> is_space a = false.
Proof.
  induction l as [|b l IH]; simpl; [discriminate |].
  destruct (is_space b) eqn:E; [exact IH |].
  intros H. injection H as <- _. exact E.
Qed.

Lemma forallb_rev {A : Type} (p : A -> bool) (l : list A) :
  forallb p (rev l) = forallb p l.
Proof.
  induction l as [|a l IH]; [reflexivity |].
  simpl. rewrite forallb_app, IH. simpl. rewrite andb_true_r. apply andb_comm.
Qed.

(** Trimming leaves nothing exactly when the line is white space only. *)
Lemma trim_blank (line : string) : truthy (trim line) = negb (blank_line line).
Proof.
  unfold trim, blank_line, trim_chars.
  destruct (forallb is_space (chars line)) eqn:Hb.
  - apply drop_spaces_nil in Hb. rewrite Hb. reflexivity.
  - simpl. apply truthy_true. intros Ht. apply text_nil in Ht.
    assert (Hd : drop_spaces (rev (drop_spaces (chars line))) = []).
    { rewrite <- (rev_involutive (drop_spaces _)), Ht. reflexivity. }
    apply drop_spaces_nil in Hd. rewrite forallb_rev in Hd.
    destruct (drop_spaces (chars line)) as [|a l'] eqn:Hl.
    + apply drop_spaces_nil in Hl. congruence.
    + apply drop_spaces_head in Hl. simpl in Hd. rewrite Hl in Hd. discriminate.
Qed.

(** The split at line feeds loses nothing: joined again by line feeds the
    pieces give the text back, and no piece holds a line feed. *)
Lemma split_lines_chars_join (cur l : list ascii) :
  join_lines (split_lines_chars cur l) = rev cur ++ l.
Proof.
  revert cur. induction l as [|a l IH]; intros cur; simpl.
  - rewrite app_nil_r. reflexivity.
  - destruct (code a =? 10) eqn:E.
    + apply Nat.eqb_eq in E. apply (code_inj a "010"%char) in E. subst a.
      specialize (IH []). simpl in IH.
      destruct (split_lines_chars [] l) eqn:Hs.
      * destruct l; simpl in Hs; [discriminate |].
        destruct (code a =? 10); discriminate.
      * change (join_lines (rev cur :: l0 :: l1))
          with (rev cur ++ "010"%char :: join_lines (l0 :: l1)).
        rewrite IH. reflexivity.
    + rewrite IH. simpl. rewrite <- app_assoc. reflexivity.
Qed.

Lemma split_lines_chars_pieces (cur l : list ascii) :
  Forall (fun a => code a <> 10) cur ->
  Forall (Forall (fun a => code a <> 10)) (split_lines_chars cur l).
Proof.
  revert cur. induction l as [|a l IH]; intros cur Hcur; simpl.
  - constructor; [| constructor]. apply Forall_rev. exact Hcur.
  - destruct (code a =? 10) eqn:E.
    + constructor; [apply Forall_rev; exact Hcur | apply IH; constructor].
    + apply IH. constructor; [apply Nat.eqb_neq; exact E | exact Hcur].
Qed.

Lemma split_lines_join (s : string) :
  text (join_lines (map chars (split_lines s))) = s.
Proof.
  unfold split_lines. rewrite map_map.
  erewrite map_ext; [| intros l; apply chars_text]. rewrite map_id.
  rewrite split_lines_chars_join. simpl. apply text_chars.
Qed.

Lemma split_lines_pieces (s : string) :
  Forall (fun piece => Forall (fun a => code a <> 10) (chars piece)) (split_lines s).
Proof.
  unfold split_lines. apply Forall_map.
  eapply Forall_impl; [apply (split_lines_chars_pieces [] (chars s)); constructor |].
  intros l Hl. cbv beta. rewrite chars_text. exact Hl.
Qed.
(* ===================================================================== *)
(** ** The matcher finds only what the expression denotes *)
(* ===================================================================== *)

Lemma last_char_app (prev : option ascii) (s1 s2 : list ascii) :
  last_char (last_char prev s1) s2 = last_char prev (s1 ++ s2).
Proof.
  unfold last_char. rewrite last_app.
  destruct (last s2); [reflexivity |]. destruct (last s1); reflexivity.
Qed.

Lemma consumed_app (x y : MatchState) (s : list ascii) :
  ms_rest x = s ++ ms_rest y -> consumed x y = s.
Proof.
  intros H. unfold consumed. rewrite H, length_app.
  replace (length s + length (ms_rest y) - length (ms_rest y)) with (length s) by lia.
  apply take_app_length.
Qed.

Lemma repeat_matcher_sound (D : option ascii -> list ascii -> list ascii -> Prop)
    (m : Matcher) (gs : list nat) (greedy : bool) :
  sound_for D m ->
  forall fuel mn mx x c z,
    repeat_matcher m gs greedy fuel mn mx x c = Some z ->
    exists y s n, c y = Some z
                  /\ ms_rest x = s ++ ms_rest y
                  /\ ms_prev y = last_char (ms_prev x) s
                  /\ reps D n mn mx (ms_prev x) s (ms_rest y).
Proof.
  intros Hm. induction fuel as [|fuel IH]; intros mn mx x c z H; [discriminate |].
  cbn [repeat_matcher] in H.
  assert (Hstop : c x = Some z -> (mn = 0 \/ mx = Some 0) ->
            exists y s n, c y = Some z /\ ms_rest x = s ++ ms_rest y
                          /\ ms_prev y = last_char (ms_prev x) s
                          /\ reps D n mn mx (ms_prev x) s (ms_rest y)).
  { intros Hc Hz. exists x, [], 0. simpl. auto. }
  assert (Hiter : mx <> Some 0 ->
            m (clear_caps gs x)
              (fun y => if (mn =? 0) && (length (ms_rest y) =? length (ms_rest x))
                        then None
                        else repeat_matcher m gs greedy fuel (pred mn) (pred_max mx) y c)
            = Some z ->
            exists y s n, c y = Some z /\ ms_rest x = s ++ ms_rest y
                          /\ ms_prev y = last_char (ms_prev x) s
                          /\ reps D n mn mx (ms_prev x) s (ms_rest y)).
  { intros Hmx Hi. apply Hm in Hi as (y1 & s1 & Hd & Hr1 & Hp1 & HD).
    cbn [clear_caps ms_rest ms_prev] in Hr1, Hp1, HD.
    destruct ((mn =? 0) && (length (ms_rest y1) =? length (ms_rest x))) eqn:Hchk;
      [discriminate |].
    apply IH in Hd as (y & s2 & n & Hc & Hr2 & Hp2 & Hreps).
    exists y, (s1 ++ s2), (S n).
    split; [exact Hc |]. split; [rewrite Hr1, Hr2, app_assoc; reflexivity |].
    split; [rewrite Hp2, Hp1; apply last_char_app |].
    cbn [reps]. split; [exact Hmx |].
    exists s1, s2. split; [reflexivity |].
    split; [rewrite <- Hr2; exact HD |].
    split; [| rewrite <- Hp1; exact Hreps].
    intros -> ->. simpl in Hr1. rewrite Hr1 in Hchk. simpl in Hchk.
    rewrite Nat.eqb_refl in Hchk. discriminate. }
  assert (Hgo : mx <> Some 0 ->
            (if negb (mn =? 0)
             then m (clear_caps gs x)
                    (fun y => if (mn =? 0) && (length (ms_rest y) =? length (ms_rest x))
                              then None
                              else repeat_matcher m gs greedy fuel (pred mn)
                                                  (pred_max mx) y c)
             else if greedy
                  then match m (clear_caps gs x)
                               (fun y => if (mn =? 0)
                                            && (length (ms_rest y) =? length (ms_rest x))
                                         then None
                                         else repeat_matcher m gs greedy fuel (pred mn)
                                                             (pred_max mx) y c) with
                       | Some z => Some z
                       | None => c x
                       end
                  else match c x with
                       | Some z => Some z
                       | None =>
                           m (clear_caps gs x)
                             (fun y => if (mn =? 0)
                                          && (length (ms_rest y) =? length (ms_rest x))
                                       then None
                                       else repeat_matcher m gs greedy fuel (pred mn)
                                                           (pred_max mx) y c)
                       end) = Some z ->
            exists y s n, c y = Some z /\ ms_rest x = s ++ ms_rest y
                          /\ ms_prev y = last_char (ms_prev x) s
                          /\ reps D n mn mx (ms_prev x) s (ms_rest y)).
  { intros Hmx Hg. destruct (Nat.eq_dec mn 0) as [Hz | Hnz].
    - assert (Hmn : (mn =? 0) = true) by (apply Nat.eqb_eq; exact Hz).
      rewrite Hmn in Hg, Hiter. cbn [negb] in Hg. destruct greedy.
      + destruct (m (clear_caps gs x) _) as [z'|] eqn:Hi in Hg.
        * injection Hg as ->. apply Hiter; [exact Hmx | exact Hi].
        * apply Hstop; auto.
      + destruct (c x) as [z'|] eqn:Hc in Hg.
        * injection Hg as ->. apply Hstop; auto.
        * apply Hiter; [exact Hmx | exact Hg].
    - assert (Hmn : (mn =? 0) = false) by (apply Nat.eqb_neq; exact Hnz).
      rewrite Hmn in Hg, Hiter. cbn [negb] in Hg. apply Hiter; assumption. }
  destruct mx as [[|k]|].
  - apply Hstop; auto.
  - apply Hgo; [discriminate | exact H].
  - apply Hgo; [discriminate | exact H].
Qed.

(** The matcher is sound: what it reads is denoted by the expression. *)
Lemma rmatch_sound (r : regex) : sound_for (denotes r) (rmatch r).
Proof.
  induction r as [| p | r1 IH1 r2 IH2 | r1 IH1 r2 IH2 | g mn mx r IH | i r IH
                 | r IH | | ]; intros x c z H; cbn [rmatch] in H.
  - exists x, []. simpl. auto.
  - destruct (ms_rest x) as [|a l] eqn:Hx; [discriminate |].
    destruct (p a) eqn:Hp; [| discriminate].
    eexists. exists [a]. split; [exact H |]. simpl. eauto.
  - apply IH1 in H as (y1 & s1 & H & Hr1 & Hp1 & HD1).
    apply IH2 in H as (y & s2 & H & Hr2 & Hp2 & HD2).
    exists y, (s1 ++ s2). split; [exact H |].
    split; [rewrite Hr1, Hr2, app_assoc; reflexivity |].
    split; [rewrite Hp2, Hp1; apply last_char_app |].
    cbn [denotes]. exists s1, s2. split; [reflexivity |].
    split; [rewrite <- Hr2; exact HD1 | rewrite <- Hp1; exact HD2].
  - destruct (rmatch r1 x c) eqn:H1.
    + injection H as <-. apply IH1 in H1 as (y & s & ? & ? & ? & ?).
      exists y, s. cbn [denotes]. auto.
    + apply IH2 in H as (y & s & ? & ? & ? & ?).
      exists y, s. cbn [denotes]. auto.
  - apply (repeat_matcher_sound _ _ _ _ IH) in H as (y & s & n & ? & ? & ? & ?).
    exists y, s. cbn [denotes]. eauto.
  - apply IH in H as (y & s & H & Hr & Hp & HD).
    eexists. exists s. split; [exact H |]. cbn [set_cap ms_rest ms_prev]. auto.
  - destruct (rmatch r x (fun y => Some y)) as [y|] eqn:Hl; [| discriminate].
    apply IH in Hl as (y' & s & Hy & Hr & _ & HD). injection Hy as ->.
    eexists. exists []. split; [exact H |]. cbn [ms_rest ms_prev denotes].
    split; [reflexivity |]. split; [reflexivity |]. split; [reflexivity |]. eauto.
  - destruct (xorb (word_at (ms_prev x)) (word_at (head (ms_rest x)))) eqn:Hw;
      [| discriminate].
    exists x, []. simpl. auto.
  - destruct (ms_rest x) eqn:Hx; [| discriminate].
    exists x, []. rewrite Hx. simpl. auto.
Qed.

Lemma last_char_cons (prev : option ascii) (a : ascii) (s : list ascii) :
  last_char prev (a :: s) = last_char (Some a) s.
Proof.
  change (a :: s) with ([a] ++ s). rewrite <- last_char_app. reflexivity.
Qed.

(** A match found by the search: the text skipped before it, the text
    matched, and the text left after it make up the text searched. *)
Lemma search_sound (r : regex) (before : list ascii) (prev : option ascii)
    (l : list ascii) (f : Found) :
  search r before prev l = Some f ->
  exists skipped,
    l = skipped ++ f_match f ++ ms_rest (f_end f)
    /\ f_before f = rev before ++ skipped
    /\ denotes r (last_char prev skipped) (f_match f) (ms_rest (f_end f))
    /\ ms_prev (f_end f) = last_char prev (skipped ++ f_match f)
    /\ f_caps f = ms_caps (f_end f)
    /\ rmatch r (mkState (last_char prev skipped) (f_match f ++ ms_rest (f_end f)) [])
              (fun y => Some y) = Some (f_end f).
Proof.
  revert before prev.
  assert (Hhere : forall before prev l y,
            rmatch r (mkState prev l []) (fun y => Some y) = Some y ->
            let f := mkFound (rev before) (consumed (mkState prev l []) y) (ms_caps y) y in
            exists skipped,
              l = skipped ++ f_match f ++ ms_rest (f_end f)
              /\ f_before f = rev before ++ skipped
              /\ denotes r (last_char prev skipped) (f_match f) (ms_rest (f_end f))
              /\ ms_prev (f_end f) = last_char prev (skipped ++ f_match f)
              /\ f_caps f = ms_caps (f_end f)
              /\ rmatch r (mkState (last_char prev skipped)
                                   (f_match f ++ ms_rest (f_end f)) [])
                        (fun y => Some y) = Some (f_end f)).
  { intros before prev l0 y Hy. pose proof Hy as Hy'.
    apply rmatch_sound in Hy as (y' & s & Heq & Hr & Hp & HD).
    injection Heq as ->. cbn [ms_rest ms_prev] in Hr, Hp, HD.
    exists []. cbn [f_match f_before f_end f_caps].
    rewrite (consumed_app (mkState prev l0 []) y s Hr).
    cbn [app last_char last]. rewrite app_nil_r, <- Hr. repeat split; assumption. }
  induction l as [|a l IH]; intros before prev H; cbn [search] in H.
  - destruct (rmatch r (mkState prev [] []) (fun y => Some y)) as [y|] eqn:Hy;
      [| discriminate].
    injection H as <-. apply Hhere. exact Hy.
  - destruct (rmatch r (mkState prev (a :: l) []) (fun y => Some y)) as [y|] eqn:Hy.
    + injection H as <-. apply Hhere. exact Hy.
    + apply IH in H as (skipped & Hl & Hb & HD & Hp & Hc & Hm).
      exists (a :: skipped). rewrite !last_char_cons.
      split; [simpl; rewrite <- Hl; reflexivity |].
      split; [rewrite Hb; simpl; rewrite <- app_assoc; reflexivity |].
      split; [exact HD |]. split; [| split; [exact Hc | exact Hm]].
      rewrite Hp. rewrite <- app_comm_cons, last_char_cons. reflexivity.
Qed.

(** The found matches, with the text before each, and the text after the
    last one make up the text scanned. *)
Lemma all_matches_cover (r : regex) (fuel : nat) (before : list ascii)
    (prev : option ascii) (l : list ascii) :
  let fs := all_matches r fuel before prev l in
  rev before ++ l
  = concat (map (fun f => f_before f ++ f_match f) fs)
    ++ after_matches fs (rev before ++ l).
Proof.
  revert before prev l. induction fuel as [|fuel IH]; intros before prev l;
    [reflexivity |].
  cbn [all_matches].
  destruct (search r before prev l) as [f|] eqn:Hs; [| reflexivity].
  apply search_sound in Hs as (skipped & Hl & Hb & _).
  assert (Hstep : forall fs',
            ms_rest (f_end f)
            = concat (map (fun f => f_before f ++ f_match f) fs')
              ++ after_matches fs' (ms_rest (f_end f)) ->
            rev before ++ l
            = concat (map (fun f => f_before f ++ f_match f) (f :: fs'))
              ++ after_matches (f :: fs') (rev before ++ l)).
  { intros fs' Hfs'. cbn [map concat]. rewrite Hb, Hl, <- !app_assoc.
    do 3 f_equal. unfold after_matches in *. rewrite last_cons.
    destruct (last fs'); exact Hfs'. }
  destruct (f_match f) as [|b m] eqn:Hm.
  - destruct (ms_rest (f_end f)) as [|a l'] eqn:Hr.
    + apply (Hstep []). reflexivity.
    + apply Hstep. apply (IH [a] (Some a) l').
  - apply Hstep. apply (IH [] (ms_prev (f_end f)) (ms_rest (f_end f))).
Qed.

(** Every match collected by the scan is denoted by the expression. *)
Lemma all_matches_sound (r : regex) (fuel : nat) (before : list ascii)
    (prev : option ascii) (l : list ascii) :
  Forall (fun f => exists prev', denotes r prev' (f_match f) (ms_rest (f_end f))
                                 /\ f_caps f = ms_caps (f_end f)
                                 /\ rmatch r (mkState prev' (f_match f ++ ms_rest (f_end f)) [])
                                           (fun y => Some y) = Some (f_end f))
         (all_matches r fuel before prev l).
Proof.
  revert before prev l. induction fuel as [|fuel IH]; intros before prev l;
    [constructor |].
  cbn [all_matches].
  destruct (search r before prev l) as [f|] eqn:Hs; [| constructor].
  apply search_sound in Hs as (skipped & _ & _ & HD & _ & Hc & Hm).
  assert (Htail : forall fs',
            Forall (fun f => exists prev',
                       denotes r prev' (f_match f) (ms_rest (f_end f))
                       /\ f_caps f = ms_caps (f_end f)
                       /\ rmatch r (mkState prev' (f_match f ++ ms_rest (f_end f)) [])
                                 (fun y => Some y) = Some (f_end f)) fs' ->
            Forall (fun f => exists prev',
                       denotes r prev' (f_match f) (ms_rest (f_end f))
                       /\ f_caps f = ms_caps (f_end f)
                       /\ rmatch r (mkState prev' (f_match f ++ ms_rest (f_end f)) [])
                                 (fun y => Some y) = Some (f_end f)) (f :: fs'))
    by (intros fs' Hfs'; constructor; eauto).
  destruct (f_match f); [destruct (ms_rest (f_end f)) |]; apply Htail;
    first [constructor | apply IH].
Qed.

(* ===================================================================== *)
(** ** Counted repetitions of a class, and the amount pattern *)
(* ===================================================================== *)

Lemma is_char_eq (c a : ascii) : is_char c a = true <-> a = c.
Proof.
  unfold is_char. rewrite Nat.eqb_eq. split; [apply code_inj | intros ->; reflexivity].
Qed.

(** The number of iterations respects the bounds of the quantifier. *)
Lemma reps_count (D : option ascii -> list ascii -> list ascii -> Prop)
    (n mn : nat) (mx : option nat) (prev : option ascii) (s next : list ascii) :
  reps D n mn mx prev s next ->
  (forall k, mx = Some k -> n <= k)
  /\ ((forall k, mx = Some k -> mn <= k) -> mn <= n).
Proof.
  revert mn mx prev s. induction n as [|n IH]; intros mn mx prev s H; cbn [reps] in H.
  - destruct H as (_ & [-> | ->]).
    + split; intros; lia.
    + split; [intros k Hk; lia |]. intros Hb. specialize (Hb 0 eq_refl). lia.
  - destruct H as (Hmx & s1 & s2 & _ & _ & _ & Hrest).
    apply IH in Hrest as (Hup & Hlow). split.
    + intros k ->. destruct k as [|k]; [congruence |].
      specialize (Hup k eq_refl). lia.
    + intros Hb. assert (pred mn <= n); [| lia].
      apply Hlow. intros k Hk. destruct mx as [j|]; [| discriminate].
      injection Hk as <-. specialize (Hb j eq_refl). lia.
Qed.

(** Iterations of a class read one code unit of the class each. *)
Lemma reps_class (p : ascii -> bool) (n mn : nat) (mx : option nat)
    (prev : option ascii) (s next : list ascii) :
  reps (denotes (Class p)) n mn mx prev s next ->
  length s = n /\ Forall (fun a => p a = true) s.
Proof.
  revert mn mx prev s. induction n as [|n IH]; intros mn mx prev s H; cbn [reps] in H.
  - destruct H as (-> & _). split; [reflexivity | constructor].
  - destruct H as (_ & s1 & s2 & -> & (a & -> & Ha) & _ & Hrest).
    apply IH in Hrest as (Hlen & Hall). simpl. split; [lia |].
    constructor; assumption.
Qed.

(** What the amount pattern denotes is an amount text. *)
Lemma amounts_denote_amount_text (prev : option ascii) (m next : list ascii) :
  denotes Pattern.amounts prev m next -> amount_text m.
Proof.
  intros H. cbn [Pattern.amounts cat_all plus times lit chars list_ascii_of_string
                 map denotes] in H.
  destruct H as (whole & tail & -> & (n & Hwhole) & dot & cents & -> &
                 (a & -> & Ha) & (k & Hcents)).
  apply is_char_eq in Ha as ->.
  pose proof (reps_count _ _ _ _ _ _ _ Hwhole) as (_ & Hn).
  pose proof (reps_count _ _ _ _ _ _ _ Hcents) as (Hk2 & Hk1).
  apply reps_class in Hwhole as (Hlen & Hall).
  apply reps_class in Hcents as (Hlenc & Hallc).
  assert (Hk : k = 2).
  { specialize (Hk2 2 eq_refl).
    assert (2 <= k) by (apply Hk1; intros j Hj; injection Hj as <-; lia). lia. }
  subst k. destruct cents as [|d1 [|d2 [|? ?]]]; try discriminate.
  inversion Hallc as [|? ? Hd1 Hrest]; subst.
  inversion Hrest as [|? ? Hd2 _]; subst.
  exists whole, d1, d2. split; [reflexivity |]. split.
  - assert (1 <= length whole) by (apply Hn; discriminate).
    destruct whole; [simpl in *; lia | discriminate].
  - split; [| auto]. eapply Forall_impl; [exact Hall |].
    intros c Hc. cbv beta in Hc. apply orb_true_iff in Hc as [Hc | Hc]; [auto |].
    right. apply is_char_eq. exact Hc.
Qed.

(** A group that spans the whole expression captures the whole match. *)
Lemma group_capture (i : nat) (r : regex) (x z : MatchState) :
  rmatch (Group i r) x (fun y => Some y) = Some z ->
  get_cap i (ms_caps z) = Some (consumed x z).
Proof.
  cbn [rmatch]. intros H.
  apply rmatch_sound in H as (y & s & Hz & _).
  injection Hz as <-. cbn [set_cap ms_caps get_cap]. rewrite Nat.eqb_refl.
  reflexivity.
Qed.

(** The amounts the CRDB extractor collects are the texts matched during
    the scan of the line. *)
Lemma amounts_collected (s : string) :
  map (fun m => at_index m 1) (regex_matchAll Pattern.amounts s)
  = map (fun f => text (f_match f)) (scan Pattern.amounts s).
Proof.
  unfold regex_matchAll, scan. rewrite map_map.
  pose proof (all_matches_sound Pattern.amounts (S (String.length s)) [] None (chars s))
    as Hall.
  induction Hall as [|f fs Hf _ IH]; [reflexivity |].
  cbn [map]. f_equal; [| exact IH].
  destruct Hf as (prev' & _ & Hc & Hm).
  apply group_capture in Hm.
  rewrite (consumed_app (mkState prev' (f_match f ++ ms_rest (f_end f)) [])
             (f_end f) (f_match f)) in Hm by reflexivity.
  change (ngroups Pattern.amounts) with 1.
  unfold match_array, at_index. cbn [seq map nth].
  rewrite Hc, Hm. reflexivity.
Qed.

Lemma amounts_are_amount_texts (s : string) :
  Forall (fun f => amount_text (f_match f)) (scan Pattern.amounts s).
Proof.
  unfold scan.
  eapply Forall_impl; [apply all_matches_sound |].
  intros f (prev' & HD & _). eapply amounts_denote_amount_text. exact HD.
Qed.

Lemma scan_cover (r : regex) (s : string) :
  chars s
  = concat (map (fun f => f_before f ++ f_match f) (scan r s))
    ++ after_matches (scan r s) (chars s).
Proof. apply (all_matches_cover r (S (String.length s)) [] None (chars s)). Qed.

(* ===================================================================== *)
(** ** The matcher misses nothing the expression denotes *)
(* ===================================================================== *)

Lemma repeat_matcher_complete (D : option ascii -> list ascii -> list ascii -> Prop)
    (m : Matcher) (gs : list nat) (greedy : bool) :
  complete_for D m ->
  forall fuel mn mx x c,
    mn + length (ms_rest x) < fuel ->
    repeat_matcher m gs greedy fuel mn mx x c = None ->
    forall n s next,
      ms_rest x = s ++ next -> reps D n mn mx (ms_prev x) s next ->
      exists y, ms_rest y = next
                /\ ms_prev y = last_char (ms_prev x) s
                /\ c y = None.
Proof.
  intros Hm. induction fuel as [|fuel IH]; intros mn mx x c Hfuel H n s next Hs Hreps;
    [lia |].
  cbn [repeat_matcher] in H.
  destruct n as [|n]; cbn [reps] in Hreps.
  - destruct Hreps as (-> & Hstop). simpl in Hs.
    assert (Hc : c x = None).
    { destruct mx as [[|k]|]; [exact H | |].
      - destruct Hstop as [-> | Hk]; [| discriminate].
        cbn [Nat.eqb negb] in H. destruct greedy.
        + destruct (m (clear_caps gs x) _); [discriminate | exact H].
        + destruct (c x); [discriminate | reflexivity].
      - destruct Hstop as [-> | Hk]; [| discriminate].
        cbn [Nat.eqb negb] in H. destruct greedy.
        + destruct (m (clear_caps gs x) _); [discriminate | exact H].
        + destruct (c x); [discriminate | reflexivity]. }
    exists x. simpl. auto.
  - destruct Hreps as (Hmx & s1 & s2 & -> & HD & Hne & Hrest).
    assert (Hiter :
      m (clear_caps gs x)
        (fun y => if (mn =? 0) && (length (ms_rest y) =? length (ms_rest x))
                  then None
                  else repeat_matcher m gs greedy fuel (pred mn) (pred_max mx) y c)
      = None).
    { destruct mx as [[|k]|]; [congruence | |].
      - destruct (negb (mn =? 0)); [exact H |]. destruct greedy.
        + destruct (m (clear_caps gs x) _); [discriminate | reflexivity].
        + destruct (c x); [discriminate | exact H].
      - destruct (negb (mn =? 0)); [exact H |]. destruct greedy.
        + destruct (m (clear_caps gs x) _); [discriminate | reflexivity].
        + destruct (c x); [discriminate | exact H]. }
    rewrite <- app_assoc in Hs.
    destruct (Hm _ _ Hiter s1 (s2 ++ next) Hs HD) as (y1 & Hr1 & Hp1 & Hd).
    cbn [clear_caps ms_prev ms_rest] in Hp1.
    assert (Hlen : length (ms_rest x) = length s1 + length (ms_rest y1))
      by (rewrite Hs, Hr1, length_app; reflexivity).
    destruct ((mn =? 0) && (length (ms_rest y1) =? length (ms_rest x))) eqn:Hchk.
    + apply andb_true_iff in Hchk as (Hz & Heq).
      apply Nat.eqb_eq in Hz, Heq. exfalso. apply (Hne Hz).
      destruct s1; [reflexivity | simpl in Hlen; lia].
    + assert (Hfuel' : pred mn + length (ms_rest y1) < fuel).
      { destruct (Nat.eq_dec mn 0) as [-> | Hnz].
        - assert (s1 <> []) by (apply Hne; reflexivity).
          destruct s1; [congruence | simpl in *; lia].
        - lia. }
      rewrite <- Hp1 in Hrest.
      destruct (IH _ _ _ _ Hfuel' Hd n s2 next Hr1 Hrest) as (y & Hr & Hp & Hc).
      exists y. split; [exact Hr |]. split; [| exact Hc].
      rewrite Hp, Hp1. apply last_char_app.
Qed.

(** The matcher is complete: when it fails, so does the continuation
    after every text that the expression denotes at that place. *)
Lemma rmatch_complete (r : regex) : complete_for (denotes r) (rmatch r).
Proof.
  induction r as [| p | r1 IH1 r2 IH2 | r1 IH1 r2 IH2 | g mn mx r IH | i r IH
                 | r IH | | ]; intros x c H s next Hs HD;
    cbn [rmatch] in H; cbn [denotes] in HD.
  - subst s. exists x. simpl in Hs. auto.
  - destruct HD as (a & -> & Ha). rewrite Hs in H. cbn [app] in H.
    rewrite Ha in H. eexists. split; [| split; [| exact H]]; reflexivity.
  - destruct HD as (s1 & s2 & -> & HD1 & HD2). rewrite <- app_assoc in Hs.
    destruct (IH1 _ _ H s1 (s2 ++ next) Hs HD1) as (y1 & Hr1 & Hp1 & H1).
    rewrite <- Hp1 in HD2.
    destruct (IH2 _ _ H1 s2 next Hr1 HD2) as (y & Hr & Hp & Hc).
    exists y. split; [exact Hr |]. split; [| exact Hc].
    rewrite Hp, Hp1. apply last_char_app.
  - destruct (rmatch r1 x c) eqn:H1; [discriminate |].
    destruct HD as [HD | HD]; [apply (IH1 _ _ H1 s next Hs HD) | apply (IH2 _ _ H s next Hs HD)].
  - destruct HD as (n & Hreps).
    refine (repeat_matcher_complete _ _ _ _ IH _ _ _ _ _ _ H n s next Hs Hreps). lia.
  - destruct (IH _ _ H s next Hs HD) as (y & Hr & Hp & Hc).
    eexists. split; [| split; [| exact Hc]]; assumption.
  - destruct HD as (-> & s' & rest & -> & HD). simpl in Hs.
    destruct (rmatch r x (fun y => Some y)) as [y|] eqn:Hl.
    + eexists. split; [| split; [| exact H]]; [exact Hs | reflexivity].
    + destruct (IH _ _ Hl s' rest Hs HD) as (y & _ & _ & Hy). discriminate.
  - destruct HD as (-> & Hw). simpl in Hs. subst next. rewrite Hw in H.
    exists x. auto.
  - destruct HD as (-> & ->). simpl in Hs. rewrite Hs in H.
    exists x. auto.
Qed.

(** When the matcher fails at a place, nothing the expression denotes
    starts there. *)
Lemma no_match_here (r : regex) (prev : option ascii) (l : list ascii) :
  rmatch r (mkState prev l []) (fun y => Some y) = None ->
  ~ matches_here r prev l.
Proof.
  intros H (s & next & Hl & HD).
  destruct (rmatch_complete r _ _ H s next Hl HD) as (y & _ & _ & Hy).
  discriminate.
Qed.

(** A search that fails: the expression matches nowhere in the text. *)
Lemma search_none (r : regex) (before : list ascii) (prev : option ascii)
    (l : list ascii) :
  search r before prev l = None ->
  forall pre post, l = pre ++ post -> ~ matches_here r (last_char prev pre) post.
Proof.
  revert before prev. induction l as [|a l IH]; intros before prev H pre post Hl;
    cbn [search] in H.
  - destruct (rmatch r (mkState prev [] []) (fun y => Some y)) eqn:Hy; [discriminate |].
    symmetry in Hl. apply app_eq_nil in Hl as (-> & ->).
    apply no_match_here. exact Hy.
  - destruct (rmatch r (mkState prev (a :: l) []) (fun y => Some y)) eqn:Hy;
      [discriminate |].
    destruct pre as [|b pre].
    + simpl in Hl. subst post. apply no_match_here. exact Hy.
    + simpl in Hl. injection Hl as <- ->. rewrite last_char_cons.
      apply (IH _ _ H pre post eq_refl).
Qed.

(** A search that succeeds returns the leftmost match: the expression
    matches nowhere in the text skipped. *)
Lemma search_leftmost (r : regex) (before : list ascii) (prev : option ascii)
    (l : list ascii) (f : Found) :
  search r before prev l = Some f ->
  forall pre post, l = pre ++ post ->
    length before + length pre < length (f_before f) ->
    ~ matches_here r (last_char prev pre) post.
Proof.
  revert before prev. induction l as [|a l IH]; intros before prev H pre post Hl Hlt;
    cbn [search] in H.
  - destruct (rmatch r (mkState prev [] []) (fun y => Some y)) eqn:Hy; [| discriminate].
    injection H as <-. cbn [f_before] in Hlt. rewrite length_rev in Hlt. lia.
  - destruct (rmatch r (mkState prev (a :: l) []) (fun y => Some y)) eqn:Hy.
    + injection H as <-. cbn [f_before] in Hlt. rewrite length_rev in Hlt. lia.
    + destruct pre as [|b pre].
      * simpl in Hl. subst post. apply no_match_here. exact Hy.
      * simpl in Hl. injection Hl as <- ->. rewrite last_char_cons.
        apply (IH _ _ H pre post eq_refl). simpl in *. lia.
Qed.

Lemma length_chars (s : string) : length (chars s) = String.length s.
Proof. induction s as [|a s IH]; simpl; [reflexivity | rewrite IH; reflexivity]. Qed.

Lemma app_split_long {A : Type} (a b c d : list A) :
  a ++ b = c ++ d -> length c <= length a -> exists k, a = c ++ k /\ d = k ++ b.
Proof.
  revert a. induction c as [|x c IH]; intros a H Hlen.
  - exists a. simpl in H. auto.
  - destruct a as [|y a]; [simpl in Hlen; lia |].
    simpl in H. injection H as -> H. simpl in Hlen.
    destruct (IH a H ltac:(lia)) as (k & -> & ->). exists k. auto.
Qed.

(** The scan collects all: for an expression that never matches the empty
    text, every place of the text where the expression matches lies in one
    of the found matches. *)
Lemma all_matches_complete (r : regex) :
  (forall prev next, ~ denotes r prev [] next) ->
  forall fuel before prev l,
    length l < fuel ->
    forall pre post, l = pre ++ post ->
      matches_here r (last_char prev pre) post ->
      inside_a_match (all_matches r fuel before prev l) (length before + length pre).
Proof.
  intros Hne. induction fuel as [|fuel IH]; intros before prev l Hfuel pre post Hl Hhere;
    [lia |].
  cbn [all_matches].
  destruct (search r before prev l) as [f|] eqn:Hs;
    [| exfalso; exact (search_none _ _ _ _ Hs pre post Hl Hhere)].
  pose proof (search_leftmost _ _ _ _ _ Hs pre post Hl) as Hleft.
  apply search_sound in Hs as (skipped & Hsk & Hb & HD & Hp & _).
  destruct (f_match f) as [|b m] eqn:Hm; [exfalso; exact (Hne _ _ HD) |].
  rewrite Hb, length_app, length_rev in Hleft.
  destruct (Nat.lt_ge_cases (length pre) (length skipped)) as [Hlt | Hge].
  { exfalso. apply Hleft; [lia | exact Hhere]. }
  destruct (Nat.lt_ge_cases (length pre) (length skipped + length (b :: m)))
    as [Hin | Hout].
  - exists [], f. eexists. split; [reflexivity |].
    cbn [map concat length]. rewrite Hb, Hm, length_app, length_rev. lia.
  - assert (Hsplit : exists pre', pre = (skipped ++ b :: m) ++ pre'
                                  /\ ms_rest (f_end f) = pre' ++ post).
    { rewrite Hl, app_assoc in Hsk.
      apply app_split_long in Hsk as (k & Hk1 & Hk2);
        [eauto | rewrite length_app; exact Hout]. }
    destruct Hsplit as (pre' & -> & Hrest).
    assert (Hlen : length (ms_rest (f_end f)) < fuel).
    { rewrite Hsk, !length_app in Hfuel. simpl in Hfuel. lia. }
    rewrite <- last_char_app, <- Hp in Hhere.
    destruct (IH [] (ms_prev (f_end f)) (ms_rest (f_end f)) Hlen pre' post Hrest Hhere)
      as (earlier & f' & later & Hfs & Hlo & Hhi).
    exists (f :: earlier), f', later. split; [rewrite Hfs; reflexivity |].
    cbn [map concat length] in *. unfold piece at 1 3.
    rewrite !length_app, Hb, Hm, !length_app, length_rev. simpl in *. lia.
Qed.

Lemma reps_class_intro (p : ascii -> bool) (s : list ascii) (mn : nat)
    (mx : option nat) (prev : option ascii) (next : list ascii) :
  Forall (fun a => p a = true) s ->
  mn <= length s ->
  (forall k, mx = Some k -> length s <= k) ->
  reps (denotes (Class p)) (length s) mn mx prev s next.
Proof.
  revert mn mx prev. induction s as [|a s IH]; intros mn mx prev Hall Hlo Hhi.
  - simpl in *. split; [reflexivity | left; lia].
  - inversion Hall as [|? ? Ha Hs]; subst. cbn [length reps]. split.
    + intros ->. specialize (Hhi 0 eq_refl). simpl in Hhi. lia.
    + exists [a], s. split; [reflexivity |].
      split; [cbn [denotes]; eauto |]. split; [discriminate |].
      apply IH; [exact Hs | simpl in Hlo; lia |].
      intros k Hk. destruct mx as [j|]; [| discriminate]. injection Hk as <-.
      specialize (Hhi j eq_refl). simpl in Hhi. lia.
Qed.

(** Every amount text is denoted by the amount pattern, wherever it
    stands. *)
Lemma amount_text_denoted (prev : option ascii) (m next : list ascii) :
  amount_text m -> denotes Pattern.amounts prev m next.
Proof.
  intros (whole & d1 & d2 & -> & Hne & Hall & Hd1 & Hd2).
  cbn [Pattern.amounts cat_all plus times lit chars list_ascii_of_string map denotes].
  exists whole, ["."%char; d1; d2]. split; [reflexivity |]. split.
  - exists (length whole). apply reps_class_intro.
    + eapply Forall_impl; [exact Hall |]. intros a [Ha | ->]; cbv beta.
      * rewrite Ha. reflexivity.
      * apply orb_true_iff. right. reflexivity.
    + destruct whole; [congruence | simpl; lia].
    + discriminate.
  - exists ["."%char], [d1; d2]. split; [reflexivity |].
    split; [exists "."%char; split; reflexivity |].
    exists 2. apply (reps_class_intro is_digit [d1; d2]).
    + repeat constructor; assumption.
    + simpl. lia.
    + intros k Hk. injection Hk as <-. simpl. lia.
Qed.

Lemma amounts_never_empty (prev : option ascii) (next : list ascii) :
  ~ denotes Pattern.amounts prev [] next.
Proof.
  intros H. apply amounts_denote_amount_text in H as (whole & d1 & d2 & H & _).
  destruct whole; discriminate.
Qed.

(** The amounts collected on a line are all the amount texts of the line:
    wherever an amount text begins in the line, that place lies in one of
    the collected matches. *)
Lemma amounts_collect_all (s : string) (pre m rest : list ascii) :
  chars s = pre ++ m ++ rest -> amount_text m ->
  inside_a_match (scan Pattern.amounts s) (length pre).
Proof.
  intros Hs Hm. unfold scan.
  apply (all_matches_complete Pattern.amounts amounts_never_empty
           (S (String.length s)) [] None (chars s)
           ltac:(rewrite length_chars; lia) pre (m ++ rest) Hs).
  exists m, rest. split; [reflexivity |]. apply amount_text_denoted. exact Hm.
Qed.

(* ===================================================================== *)
(** ** The groups that every match captures *)
(* ===================================================================== *)

Lemma get_cap_filter (p : nat -> bool) (i : nat) (caps : list (nat * list ascii)) :
  p i = true ->
  get_cap i (List.filter (fun c => p (fst c)) caps) = get_cap i caps.
Proof.
  intros Hp. induction caps as [|[j v] caps IH]; [reflexivity |].
  cbn [List.filter fst get_cap]. destruct (p j) eqn:Hj.
  - cbn [get_cap]. destruct (j =? i); [reflexivity | exact IH].
  - destruct (j =? i) eqn:Hji; [| exact IH].
    apply Nat.eqb_eq in Hji. congruence.
Qed.

Lemma not_listed (i : nat) (gs : list nat) :
  ~ In i gs -> existsb (Nat.eqb i) gs = false.
Proof.
  intros Hi. destruct (existsb (Nat.eqb i) gs) eqn:He; [| reflexivity].
  apply existsb_exists in He as (j & Hj & Hij). apply Nat.eqb_eq in Hij.
  subst j. contradiction.
Qed.

Lemma listed (i : nat) (gs : list nat) :
  existsb (Nat.eqb i) gs = false -> ~ In i gs.
Proof.
  intros He Hi. assert (existsb (Nat.eqb i) gs = true); [| congruence].
  apply existsb_exists. exists i. split; [exact Hi | apply Nat.eqb_refl].
Qed.

Lemma get_cap_clear (gs : list nat) (x : MatchState) (i : nat) :
  ~ In i gs -> get_cap i (ms_caps (clear_caps gs x)) = get_cap i (ms_caps x).
Proof.
  intros Hi. cbn [clear_caps ms_caps].
  apply (get_cap_filter (fun j => negb (existsb (Nat.eqb j) gs))).
  rewrite not_listed by exact Hi. reflexivity.
Qed.

Lemma get_cap_set (i j : nat) (v : list ascii) (y : MatchState) :
  get_cap j (ms_caps (set_cap i v y))
  = if i =? j then Some v else get_cap j (ms_caps y).
Proof.
  cbn [set_cap ms_caps get_cap]. destruct (i =? j) eqn:Hij; [reflexivity |].
  apply (get_cap_filter (fun k => negb (k =? i))).
  rewrite Nat.eqb_sym, Hij. reflexivity.
Qed.

Lemma caps_kept_refl (gs : list nat) (x : MatchState) : caps_kept gs x x.
Proof. intros i _. reflexivity. Qed.

Lemma caps_kept_trans (gs : list nat) (x y z : MatchState) :
  caps_kept gs x y -> caps_kept gs y z -> caps_kept gs x z.
Proof. intros H1 H2 i Hi. rewrite (H2 i Hi). apply H1. exact Hi. Qed.

Lemma caps_kept_more (gs gs' : list nat) (x y : MatchState) :
  (forall i, In i gs -> In i gs') -> caps_kept gs x y -> caps_kept gs' x y.
Proof. intros Hsub H i Hi. apply H. intros Hin. apply Hi, Hsub, Hin. Qed.

(** The repetition keeps the captures of the other groups; the groups that
    the repeated expression always captures are set after one iteration
    at least, and stay set when they were set before. *)
Lemma repeat_matcher_captures (r' : regex) (m : Matcher) (gs : list nat)
    (greedy : bool) :
  (forall x c z, m x c = Some z ->
     exists y, c y = Some z /\ caps_kept gs x y /\ caps_set r' y) ->
  forall fuel mn mx x c z,
    repeat_matcher m gs greedy fuel mn mx x c = Some z ->
    exists y, c y = Some z /\ caps_kept gs x y
              /\ (caps_set r' x -> caps_set r' y)
              /\ (mn <> 0 -> mx <> Some 0 -> caps_set r' y).
Proof.
  intros Hm. induction fuel as [|fuel IH]; intros mn mx x c z H; [discriminate |].
  assert (Hstop : c x = Some z -> (mn = 0 \/ mx = Some 0) ->
            exists y, c y = Some z /\ caps_kept gs x y
                      /\ (caps_set r' x -> caps_set r' y)
                      /\ (mn <> 0 -> mx <> Some 0 -> caps_set r' y)).
  { intros Hc Hz. exists x. split; [exact Hc |].
    split; [apply caps_kept_refl |]. split; [auto |].
    intros Hmn Hmx. destruct Hz; contradiction. }
  assert (Hiter : forall mx',
            m (clear_caps gs x)
              (fun y => if (mn =? 0) && (length (ms_rest y) =? length (ms_rest x))
                        then None
                        else repeat_matcher m gs greedy fuel (pred mn) mx' y c)
            = Some z ->
            exists y, c y = Some z /\ caps_kept gs x y
                      /\ (caps_set r' x -> caps_set r' y)
                      /\ (mn <> 0 -> mx <> Some 0 -> caps_set r' y)).
  { intros mx' Hi. apply Hm in Hi as (y1 & Hd & Hk1 & Hs1).
    destruct ((mn =? 0) && (length (ms_rest y1) =? length (ms_rest x)));
      [discriminate |].
    apply IH in Hd as (y & Hc & Hk2 & Hs2 & _).
    exists y. split; [exact Hc |]. split.
    - apply (caps_kept_trans gs x y1 y); [| exact Hk2].
      intros i Hi. rewrite (Hk1 i Hi). apply get_cap_clear. exact Hi.
    - split; intros; apply Hs2; exact Hs1. }
  cbn [repeat_matcher] in H.
  destruct mx as [[|k]|]; [apply Hstop; auto | |];
    (revert H Hiter; destruct (mn =? 0) eqn:Hmn; cbn [negb]; intros H Hiter;
     [ apply Nat.eqb_eq in Hmn; destruct greedy;
       [ match type of H with
         | match ?t with _ => _ end = _ =>
             destruct t as [z'|] eqn:Hi;
             [ injection H as ->; exact (Hiter _ Hi) | apply Hstop; auto ]
         end
       | destruct (c x) as [z'|] eqn:Hc;
         [ injection H as ->; apply Hstop; auto | exact (Hiter _ H) ] ]
     | exact (Hiter _ H) ]).
Qed.

(** A successful match keeps the captures of the groups outside the
    expression and sets the groups that the expression always captures. *)
Lemma rmatch_captures (r : regex) :
  forall x c z, rmatch r x c = Some z ->
    exists y, c y = Some z /\ caps_kept (groups_of r) x y /\ caps_set r y.
Proof.
  induction r as [| p | r1 IH1 r2 IH2 | r1 IH1 r2 IH2 | greedy mn mx r' IH
                  | j r' IH | r' IH | |];
    intros x c z H; cbn [rmatch] in H.
  - exists x. split; [exact H |]. split; [apply caps_kept_refl |].
    intros i Hi. discriminate.
  - destruct (ms_rest x) as [|a s]; [discriminate |].
    destruct (p a); [| discriminate].
    eexists. split; [exact H |]. split; [intros i _; reflexivity |].
    intros i Hi. discriminate.
  - apply IH1 in H as (y1 & H & Hk1 & Hs1).
    apply IH2 in H as (y & Hc & Hk2 & Hs2).
    exists y. split; [exact Hc |]. split.
    + apply (caps_kept_trans _ x y1 y).
      * apply (caps_kept_more (groups_of r1)); [| exact Hk1].
        intros i Hi. cbn [groups_of]. apply in_or_app. left. exact Hi.
      * apply (caps_kept_more (groups_of r2)); [| exact Hk2].
        intros i Hi. cbn [groups_of]. apply in_or_app. right. exact Hi.
    + intros i Hi. cbn [always_captures] in Hi.
      apply orb_true_iff in Hi as [Hi | Hi]; [| apply Hs2; exact Hi].
      apply andb_true_iff in Hi as [Hi Hout].
      apply negb_true_iff, listed in Hout.
      rewrite (Hk2 i Hout). apply Hs1. exact Hi.
  - destruct (rmatch r1 x c) as [z'|] eqn:H1.
    + injection H as ->. apply IH1 in H1 as (y & Hc & Hk & Hs).
      exists y. split; [exact Hc |]. split.
      * apply (caps_kept_more (groups_of r1)); [| exact Hk].
        intros i Hi. cbn [groups_of]. apply in_or_app. left. exact Hi.
      * intros i Hi. cbn [always_captures] in Hi.
        apply andb_true_iff in Hi as [Hi _]. apply Hs. exact Hi.
    + apply IH2 in H as (y & Hc & Hk & Hs).
      exists y. split; [exact Hc |]. split.
      * apply (caps_kept_more (groups_of r2)); [| exact Hk].
        intros i Hi. cbn [groups_of]. apply in_or_app. right. exact Hi.
      * intros i Hi. cbn [always_captures] in Hi.
        apply andb_true_iff in Hi as [_ Hi]. apply Hs. exact Hi.
  - apply (repeat_matcher_captures r' _ _ _ IH) in H as (y & Hc & Hk & _ & Hs).
    exists y. split; [exact Hc |]. split; [exact Hk |].
    intros i Hi. cbn [always_captures] in Hi.
    apply andb_true_iff in Hi as [Hi Hr]. apply andb_true_iff in Hi as [Hmn Hmx].
    apply Hs; [| | exact Hr].
    + apply negb_true_iff, Nat.eqb_neq in Hmn. exact Hmn.
    + intros ->. discriminate.
  - apply IH in H as (y & Hc & Hk & Hs).
    eexists. split; [exact Hc |]. split.
    + intros i Hi. cbn [groups_of] in Hi. rewrite get_cap_set.
      destruct (j =? i) eqn:Hji.
      * apply Nat.eqb_eq in Hji. exfalso. apply Hi. left. exact Hji.
      * apply Hk. intros Hin. apply Hi. right. exact Hin.
    + intros i Hi. cbn [always_captures] in Hi. rewrite get_cap_set.
      destruct (j =? i) eqn:Hji; [discriminate |].
      cbn [orb] in Hi. apply Hs. exact Hi.
  - destruct (rmatch r' x (fun y => Some y)) as [y0|] eqn:H0; [| discriminate].
    apply IH in H0 as (y & Hy & Hk & Hs). injection Hy as ->.
    eexists. split; [exact H |]. split.
    + intros i Hi. cbn [ms_caps]. apply Hk. exact Hi.
    + intros i Hi. cbn [ms_caps]. apply Hs. exact Hi.
  - destruct (xorb _ _); [| discriminate].
    exists x. split; [exact H |]. split; [apply caps_kept_refl |].
    intros i Hi. discriminate.
  - destruct (ms_rest x); [| discriminate].
    exists x. split; [exact H |]. split; [apply caps_kept_refl |].
    intros i Hi. discriminate.
Qed.

Lemma search_captures (r : regex) (i : nat) :
  always_captures i r = true ->
  forall l before prev f,
    search r before prev l = Some f -> get_cap i (f_caps f) <> None.
Proof.
  intros Hi. induction l as [|a l IH]; intros before prev f H; cbn [search] in H.
  - destruct (rmatch r _ _) as [y|] eqn:Hr; [| discriminate].
    injection H as <-. cbn [f_caps].
    apply rmatch_captures in Hr as (y' & Hy & _ & Hs). injection Hy as ->.
    apply Hs. exact Hi.
  - destruct (rmatch r _ _) as [y|] eqn:Hr.
    + injection H as <-. cbn [f_caps].
      apply rmatch_captures in Hr as (y' & Hy & _ & Hs). injection Hy as ->.
      apply Hs. exact Hi.
    + apply IH in H. exact H.
Qed.

Lemma all_matches_captures (r : regex) (i : nat) :
  always_captures i r = true ->
  forall fuel before prev l,
    Forall (fun f => get_cap i (f_caps f) <> None)
           (all_matches r fuel before prev l).
Proof.
  intros Hi. induction fuel as [|fuel IH]; intros before prev l;
    cbn [all_matches]; [constructor |].
  destruct (search r before prev l) as [f|] eqn:Hs; [| constructor].
  apply (search_captures r i Hi) in Hs.
  destruct (f_match f), (ms_rest (f_end f)); constructor;
    solve [exact Hs | apply IH | constructor].
Qed.

Lemma always_captures_listed (i : nat) (r : regex) :
  always_captures i r = true -> In i (groups_of r).
Proof.
  induction r as [| p | r1 IH1 r2 IH2 | r1 IH1 r2 IH2 | greedy mn mx r' IH
                  | j r' IH | r' IH | |];
    cbn [always_captures groups_of]; intros H; try discriminate.
  - apply in_or_app. apply orb_true_iff in H as [H | H]; [left | right; auto].
    apply andb_true_iff in H as [H _]. auto.
  - apply andb_true_iff in H as [H _]. apply in_or_app. left. auto.
  - apply andb_true_iff in H as [_ H]. auto.
  - apply orb_true_iff in H as [H | H]; [left | right; auto].
    apply Nat.eqb_eq. exact H.
  - auto.
Qed.

(** Index [i] of the match array is the text that group [i] captured: the
    empty-string default of [match_array] is never used for a group that
    takes part in every match. *)
Lemma match_array_at (r : regex) (i : nat) (f : Found) (v : list ascii) :
  always_captures i r = true -> 0 < i ->
  get_cap i (f_caps f) = Some v ->
  at_index (match_array (ngroups r) f) i = text v.
Proof.
  intros Hi Hpos Hv. apply always_captures_listed in Hi.
  assert (Hle : i <= ngroups r).
  { unfold ngroups. pose proof (proj1 (list_max_le (groups_of r) (list_max (groups_of r)))
                                  (Nat.le_refl _)) as Hall.
    rewrite List.Forall_forall in Hall. apply Hall. exact Hi. }
  unfold at_index, match_array. destruct i as [|i]; [lia |].
  cbn [nth].
  rewrite (nth_indep _ "" (match get_cap (S i) (f_caps f) with
                           | Some v => text v | None => "" end))
    by (rewrite length_map, length_seq; lia).
  rewrite (map_nth (fun i => match get_cap i (f_caps f) with
                             | Some v => text v | None => "" end) (seq 1 (ngroups r)) (S i)).
  rewrite seq_nth by lia. cbn [Nat.add]. rewrite Hv. reflexivity.
Qed.

(** In every match of the regular expressions of the parsers, the group
    read at index 1 has taken part. *)
Lemma patterns_capture_group_1 :
  Forall (fun r => always_captures 1 r = true) patterns_read_at_1.
Proof. repeat constructor. Qed.

Lemma regex_match_group_1 (r : regex) (s : string) (m : MatchArray) :
  In r patterns_read_at_1 ->
  regex_match r s = Some m ->
  exists f v, search r [] None (chars s) = Some f
              /\ get_cap 1 (f_caps f) = Some v
              /\ at_index m 1 = text v.
Proof.
  intros Hr H. unfold regex_match in H.
  destruct (search r [] None (chars s)) as [f|] eqn:Hs; [| discriminate].
  injection H as <-.
  pose proof patterns_capture_group_1 as Hall.
  rewrite List.Forall_forall in Hall. specialize (Hall r Hr).
  pose proof (search_captures r 1 Hall _ _ _ _ Hs) as Hc.
  destruct (get_cap 1 (f_caps f)) as [v|] eqn:Hv; [| congruence].
  exists f, v. split; [reflexivity |]. split; [exact Hv |].
  apply (match_array_at r 1 f v Hall); [lia | exact Hv].
Qed.
(* ===================================================================== *)
(** ** The extractors under the runtime of the language *)
(* ===================================================================== *)

Ltac run_rules :=
  cbn -[regex_match regex_matchAll regex_replaceAll trim toLowerCase includes
        truthy pick_amount at_index group1 String.append
        Pattern.nmbDate Pattern.spaces Pattern.description Pattern.userId
        Pattern.userName Pattern.amount Pattern.altAmount Pattern.deposit
        Pattern.productName Pattern.crdbDate Pattern.dot Pattern.amounts
        Pattern.account Pattern.ref Pattern.name Pattern.memberCode].

Lemma bind_Normal_inv {A B : Type} (m : Completion A) (k : A -> Completion B) (b : B) :
  m ≫= k = Normal b -> exists a, m = Normal a /\ k a = Normal b.
Proof. destruct m as [a|e]; simpl; [eauto | discriminate]. Qed.

Lemma bind_Throw_inv {A B : Type} (m : Completion A) (k : A -> Completion B) (e : Thrown) :
  m ≫= k = Throw e -> m = Throw e \/ exists a, m = Normal a /\ k a = Throw e.
Proof. destruct m as [a|e']; simpl; [eauto | left; congruence]. Qed.

Lemma bind_normal {A B : Type} (m : Completion A) (k : A -> Completion B) :
  (exists a, m = Normal a) -> (forall a, exists b, k a = Normal b) ->
  exists b, m ≫= k = Normal b.
Proof. intros [a ->] Hk. apply Hk. Qed.

(** A block completes normally when each of its steps does. *)
Ltac completes :=
  repeat first
    [ apply bind_normal; [ | intros ? ]
    | match goal with
      | |- exists _, (if ?b then _ else _) = _ => destruct b
      | |- exists _, match ?o with Some _ => _ | None => _ end = _ => destruct o
      end
    | eexists; reflexivity ].

(** With the matcher of the language no rule throws. *)
Lemma ledger_nmb_rules_normal (l : string) :
  exists r, Ledger.nmb_rules ecma l = Normal r.
Proof. unfold Ledger.nmb_rules. completes. Qed.

Lemma ledger_crdb_rules_normal (l : string) :
  exists r, Ledger.crdb_rules ecma l = Normal r.
Proof. unfold Ledger.crdb_rules. completes. Qed.

Lemma quickbooks_nmb_rules_normal (l : string) :
  exists r, QuickBooks.nmb_rules ecma l = Normal r.
Proof. unfold QuickBooks.nmb_rules. completes. Qed.

Lemma quickbooks_crdb_rules_normal (l : string) :
  exists r, QuickBooks.crdb_rules ecma l = Normal r.
Proof. unfold QuickBooks.crdb_rules. completes. Qed.

(** Reads a normally completed block backwards, step by step, down to the
    record it returns. *)
Ltac returned H :=
  repeat (cbv beta zeta in H;
          match type of H with
          | _ ≫= _ = Normal _ =>
              let a := fresh "a" in
              let Ha := fresh "Ha" in
              apply bind_Normal_inv in H; destruct H as (a & Ha & H)
          end);
  cbv beta zeta in H;
  injection H as <-.

(** Whatever the runtime answers, a record returned by the rules of the
    NMB extractor is valid exactly when one of its three key fields is
    filled in. *)
Lemma ledger_nmb_rules_valid (rt : RegExpRuntime) (l : string) (r : Ledger.ParsedTransaction) :
  Ledger.nmb_rules rt l = Normal r ->
  Ledger.isValid r
  = truthy (Ledger.refId r) || truthy (Ledger.amount r)
    || truthy (Ledger.transactionDate r)
  /\ Ledger.errorMessage r
     = (if Ledger.isValid r then None else Some "Could not extract required fields")
  /\ Ledger.rawLine r = l.
Proof. unfold Ledger.nmb_rules. intros H. returned H. simpl. auto. Qed.

Lemma quickbooks_nmb_rules_valid (rt : RegExpRuntime) (l : string)
    (r : QuickBooks.ParsedTransaction) :
  QuickBooks.nmb_rules rt l = Normal r ->
  QuickBooks.isValid r
  = truthy (QuickBooks.invoiceNo r) || truthy (QuickBooks.amount r)
    || truthy (QuickBooks.paymentDate r)
  /\ QuickBooks.errorMessage r
     = (if QuickBooks.isValid r then None else Some "Could not extract required fields")
  /\ QuickBooks.rawLine r = l.
Proof. unfold QuickBooks.nmb_rules. intros H. returned H. simpl. auto. Qed.

(** The CRDB extractor looks at the amount and the date only, and its
    amount is the choice made among the amounts the runtime found. *)
Lemma ledger_crdb_rules_valid (rt : RegExpRuntime) (l : string) (r : Ledger.ParsedTransaction) :
  Ledger.crdb_rules rt l = Normal r ->
  Ledger.isValid r = truthy (Ledger.amount r) || truthy (Ledger.transactionDate r)
  /\ Ledger.errorMessage r
     = (if Ledger.isValid r then None
        else Some "Could not extract required fields from CRDB line")
  /\ (exists found, rt_matchAll rt Pattern.amounts l = Normal found
                    /\ Ledger.amount r = pick_amount (map (fun m => at_index m 1) found))
  /\ (exists m, rt_match rt Pattern.ref l = Normal m /\ Ledger.refId r = group1 m).
Proof.
  unfold Ledger.crdb_rules. intros H. returned H. simpl.
  repeat split; eauto.
Qed.

Lemma quickbooks_crdb_rules_valid (rt : RegExpRuntime) (l : string)
    (r : QuickBooks.ParsedTransaction) :
  QuickBooks.crdb_rules rt l = Normal r ->
  QuickBooks.isValid r
  = truthy (QuickBooks.amount r) || truthy (QuickBooks.paymentDate r)
  /\ QuickBooks.errorMessage r
     = (if QuickBooks.isValid r then None
        else Some "Could not extract required fields from CRDB line")
  /\ (exists found, rt_matchAll rt Pattern.amounts l = Normal found
                    /\ QuickBooks.amount r = pick_amount (map (fun m => at_index m 1) found))
  /\ (exists m, rt_match rt Pattern.ref l = Normal m /\ QuickBooks.invoiceNo r = group1 m).
Proof.
  unfold QuickBooks.crdb_rules. intros H. returned H. simpl.
  repeat split; eauto.
Qed.

(* ===================================================================== *)
(** ** The amount choice of the CRDB extractor *)
(* ===================================================================== *)

Lemma pick_amount_three_or_more (earlier : list string) (x a b : string) :
  pick_amount (earlier ++ [x; a; b]) = a.
Proof.
  unfold pick_amount. rewrite length_app. simpl length.
  replace (2 <=? length earlier + 3) with true by (symmetry; apply Nat.leb_le; lia).
  replace (3 <=? length earlier + 3) with true by (symmetry; apply Nat.leb_le; lia).
  replace (length earlier + 3 - 2) with (length earlier + 1) by lia.
  rewrite app_nth2 by lia.
  replace (length earlier + 1 - length earlier) with 1 by lia.
  reflexivity.
Qed.

Lemma matchAll_empty : regex_matchAll Pattern.amounts "" = [].
Proof. reflexivity. Qed.

Lemma ledger_crdb_amount (line : string) :
  Ledger.amount (Ledger.parseCRDBTransactionLine ecma line)
  = pick_amount (map (fun m => at_index m 1)
                     (regex_matchAll Pattern.amounts (trim line))).
Proof.
  unfold Ledger.parseCRDBTransactionLine.
  destruct (truthy (trim line)) eqn:Ht; simpl negb; cbv iota.
  - destruct (ledger_crdb_rules_normal (trim line)) as [r Hr]. rewrite Hr.
    destruct (ledger_crdb_rules_valid _ _ _ Hr) as (_ & _ & (found & Hf & ->) & _).
    simpl in Hf. injection Hf as <-. reflexivity.
  - apply truthy_false in Ht. rewrite Ht. reflexivity.
Qed.

Lemma quickbooks_crdb_amount (line : string) :
  QuickBooks.amount (QuickBooks.parseCRDBTransactionLine ecma line)
  = pick_amount (map (fun m => at_index m 1)
                     (regex_matchAll Pattern.amounts (trim line))).
Proof.
  unfold QuickBooks.parseCRDBTransactionLine.
  destruct (truthy (trim line)) eqn:Ht; simpl negb; cbv iota.
  - destruct (quickbooks_crdb_rules_normal (trim line)) as [r Hr]. rewrite Hr.
    destruct (quickbooks_crdb_rules_valid _ _ _ Hr) as (_ & _ & (found & Hf & ->) & _).
    simpl in Hf. injection Hf as <-. reflexivity.
  - apply truthy_false in Ht. rewrite Ht. reflexivity.
Qed.

(** C1, amended.  On every line the CRDB extractor collects the matches of
    [[\d,]+\.\d{2}] in the trimmed line from left to right: what it
    collects are runs of digits and commas in any arrangement, not empty,
    followed by a point and two digits; they follow one another in the
    line without overlap, and no such text of the line begins outside
    them.  It keeps the one before the last when three or more are
    collected, the last of two, the only one, or the empty string when
    there is none; so the collected lists [0.00, 12500.00, 3826000.00],
    [0.00, 12500.00] and [12500.00] all give 12500.00. *)
Theorem crdb_amount_selection :
  (forall line : string,
     let found := scan Pattern.amounts (trim line) in
     let allAmounts := map (fun f => text (f_match f)) found in
     map (fun m => at_index m 1) (regex_matchAll Pattern.amounts (trim line))
     = allAmounts
     /\ Forall (fun f => amount_text (f_match f)) found
     /\ chars (trim line)
        = concat (map piece found) ++ after_matches found (chars (trim line))
     /\ every_amount_collected found (chars (trim line))
     /\ Ledger.amount (Ledger.parseCRDBTransactionLine ecma line)
        = pick_amount allAmounts
     /\ QuickBooks.amount (QuickBooks.parseCRDBTransactionLine ecma line)
        = pick_amount allAmounts)
  /\ (forall (earlier : list string) (x a b : string),
        pick_amount (earlier ++ [x; a; b]) = a)
  /\ (forall a b : string, pick_amount [a; b] = b)
  /\ (forall a : string, pick_amount [a] = a)
  /\ pick_amount [] = ""
  /\ pick_amount ["0.00"; "12500.00"; "3826000.00"] = "12500.00"
  /\ pick_amount ["0.00"; "12500.00"] = "12500.00"
  /\ pick_amount ["12500.00"] = "12500.00".
Proof.
  split; [| split; [| repeat split]].
  - intros line. cbv zeta.
    split; [apply amounts_collected |].
    split; [apply amounts_are_amount_texts |].
    split; [apply scan_cover |].
    split; [intros pre m rest; apply amounts_collect_all |].
    rewrite <- amounts_collected.
    split; [apply ledger_crdb_amount | apply quickbooks_crdb_amount].
  - apply pick_amount_three_or_more.
Qed.

(** C1 as stated fails on the line [fee ,.00 paid 7.00 bal 9.00]: its
    decimal numbers with two places are 7.00 and 9.00, so the stated rule
    gives the last of two, 9.00; the extractor collects [,.00] as well and
    returns the one before the last of three, 7.00.  On the line
    [0.00,12500.00,3826000.00], whose numbers are the list of the claim,
    the extractor returns [,12500.00]: the comma before a number is part
    of what it collects. *)
Lemma stray_comma_counts_as_amount :
  let line := "fee ,.00 paid 7.00 bal 9.00" in
  let joined := "0.00,12500.00,3826000.00" in
  spec_amounts (trim line) = ["7.00"; "9.00"]
  /\ spec_amount (trim line) = "9.00"
  /\ map (fun m => at_index m 1) (regex_matchAll Pattern.amounts (trim line))
     = [",.00"; "7.00"; "9.00"]
  /\ Ledger.amount (Ledger.parseCRDBTransactionLine ecma line) = "7.00"
  /\ QuickBooks.amount (QuickBooks.parseCRDBTransactionLine ecma line) = "7.00"
  /\ Ledger.amount (Ledger.parseCRDBTransactionLine ecma line)
     <> spec_amount (trim line)
  /\ spec_amounts (trim joined) = ["0.00"; "12500.00"; "3826000.00"]
  /\ spec_amount (trim joined) = "12500.00"
  /\ map (fun m => at_index m 1) (regex_matchAll Pattern.amounts (trim joined))
     = ["0.00"; ",12500.00"; ",3826000.00"]
  /\ Ledger.amount (Ledger.parseCRDBTransactionLine ecma joined) = ",12500.00"
  /\ QuickBooks.amount (QuickBooks.parseCRDBTransactionLine ecma joined)
     = ",12500.00".
Proof.
  vm_compute. repeat split; try reflexivity. discriminate.
Qed.

(* ===================================================================== *)
(** ** Validity of the extracted records *)
(* ===================================================================== *)

Lemma or_truthy (a b c : string) :
  truthy a || truthy b || truthy c = true <-> a <> "" \/ b <> "" \/ c <> "".
Proof.
  rewrite !orb_true_iff, !truthy_true. tauto.
Qed.

Lemma invariant_of_fields (valid : bool) (a b c : string) (msg : string) :
  valid = truthy a || truthy b || truthy c -> msg <> "" ->
  record_invariant valid a b c (if valid then None else Some msg).
Proof.
  intros -> Hm. split; [apply or_truthy |].
  intros ->. eauto.
Qed.

Lemma crdb_invariant_of_fields (valid : bool) (b c : string) (msg : string) :
  valid = truthy b || truthy c -> msg <> "" ->
  crdb_invariant valid b c (if valid then None else Some msg).
Proof.
  intros -> Hm. split.
  - rewrite orb_true_iff, !truthy_true. tauto.
  - intros ->. eauto.
Qed.

Lemma ledger_nmb_invariant (line : string) :
  let r := Ledger.parseTransactionLine ecma line in
  record_invariant (Ledger.isValid r) (Ledger.refId r) (Ledger.amount r)
                   (Ledger.transactionDate r) (Ledger.errorMessage r).
Proof.
  unfold Ledger.parseTransactionLine.
  destruct (truthy (trim line)); simpl negb; cbv iota zeta.
  - destruct (ledger_nmb_rules_normal (trim line)) as [r Hr]. rewrite Hr.
    destruct (ledger_nmb_rules_valid _ _ _ Hr) as (Hv & -> & _).
    apply invariant_of_fields; [exact Hv | discriminate].
  - apply (invariant_of_fields false "" "" "" "Empty line"); [reflexivity | discriminate].
Qed.

Lemma quickbooks_nmb_invariant (line : string) :
  let r := QuickBooks.parseTransactionLine ecma line in
  record_invariant (QuickBooks.isValid r) (QuickBooks.invoiceNo r) (QuickBooks.amount r)
                   (QuickBooks.paymentDate r) (QuickBooks.errorMessage r).
Proof.
  unfold QuickBooks.parseTransactionLine.
  destruct (truthy (trim line)); simpl negb; cbv iota zeta.
  - destruct (quickbooks_nmb_rules_normal (trim line)) as [r Hr]. rewrite Hr.
    destruct (quickbooks_nmb_rules_valid _ _ _ Hr) as (Hv & -> & _).
    apply invariant_of_fields; [exact Hv | discriminate].
  - apply (invariant_of_fields false "" "" "" "Empty line"); [reflexivity | discriminate].
Qed.

Lemma ledger_crdb_invariant (line : string) :
  let r := Ledger.parseCRDBTransactionLine ecma line in
  crdb_invariant (Ledger.isValid r) (Ledger.amount r)
                 (Ledger.transactionDate r) (Ledger.errorMessage r).
Proof.
  unfold Ledger.parseCRDBTransactionLine.
  destruct (truthy (trim line)); simpl negb; cbv iota zeta.
  - destruct (ledger_crdb_rules_normal (trim line)) as [r Hr]. rewrite Hr.
    destruct (ledger_crdb_rules_valid _ _ _ Hr) as (Hv & -> & _).
    apply crdb_invariant_of_fields; [exact Hv | discriminate].
  - apply (crdb_invariant_of_fields false "" "" "Empty line"); [reflexivity | discriminate].
Qed.

Lemma quickbooks_crdb_invariant (line : string) :
  let r := QuickBooks.parseCRDBTransactionLine ecma line in
  crdb_invariant (QuickBooks.isValid r) (QuickBooks.amount r)
                 (QuickBooks.paymentDate r) (QuickBooks.errorMessage r).
Proof.
  unfold QuickBooks.parseCRDBTransactionLine.
  destruct (truthy (trim line)); simpl negb; cbv iota zeta.
  - destruct (quickbooks_crdb_rules_normal (trim line)) as [r Hr]. rewrite Hr.
    destruct (quickbooks_crdb_rules_valid _ _ _ Hr) as (Hv & -> & _).
    apply crdb_invariant_of_fields; [exact Hv | discriminate].
  - apply (crdb_invariant_of_fields false "" "" "Empty line"); [reflexivity | discriminate].
Qed.

(** C3, as the code has it.  On every line the NMB extractor returns a
    record that is valid exactly when its reference id, amount or date is
    non-empty; the CRDB extractor returns a record that is valid exactly
    when its amount or date is non-empty, whatever its reference id; and
    every invalid record of either extractor carries a non-empty error
    message. *)
Theorem extractor_validity_rules (line : string) :
  (let r := Ledger.parseTransactionLine ecma line in
   record_invariant (Ledger.isValid r) (Ledger.refId r) (Ledger.amount r)
                    (Ledger.transactionDate r) (Ledger.errorMessage r))
  /\ (let r := QuickBooks.parseTransactionLine ecma line in
      record_invariant (QuickBooks.isValid r) (QuickBooks.invoiceNo r)
                       (QuickBooks.amount r) (QuickBooks.paymentDate r)
                       (QuickBooks.errorMessage r))
  /\ (let r := Ledger.parseCRDBTransactionLine ecma line in
      crdb_invariant (Ledger.isValid r) (Ledger.amount r)
                     (Ledger.transactionDate r) (Ledger.errorMessage r))
  /\ (let r := QuickBooks.parseCRDBTransactionLine ecma line in
      crdb_invariant (QuickBooks.isValid r) (QuickBooks.amount r)
                     (QuickBooks.paymentDate r) (QuickBooks.errorMessage r)).
Proof.
  split; [| split; [| split]].
  - apply ledger_nmb_invariant.
  - apply quickbooks_nmb_invariant.
  - apply ledger_crdb_invariant.
  - apply quickbooks_crdb_invariant.
Qed.

(** C3 as stated fails on the CRDB line [REF:abc]: the reference id is
    found, yet the record is invalid. *)
Lemma crdb_reference_only_is_invalid :
  let r := Ledger.parseCRDBTransactionLine ecma "REF:abc" in
  Ledger.refId r = "abc"
  /\ Ledger.isValid r = false
  /\ ~ record_invariant (Ledger.isValid r) (Ledger.refId r) (Ledger.amount r)
                        (Ledger.transactionDate r) (Ledger.errorMessage r).
Proof.
  vm_compute. repeat split; try reflexivity.
  intros [[_ H] _]. discriminate H. left. discriminate.
Qed.

(* ===================================================================== *)
(** ** The sample line *)
(* ===================================================================== *)

(** C9.  The NMB sample line yields reference id 963330000141, account or
    user id 22410063786, amount 12500.00 and date 20 Jan 2026. *)
Theorem nmb_sample_line :
  (let r := Ledger.parseTransactionLine ecma nmb_sample in
   Ledger.refId r = "963330000141"
   /\ Ledger.userId r = "22410063786"
   /\ Ledger.amount r = "12500.00"
   /\ Ledger.transactionDate r = "20 Jan 2026")
  /\ (let r := QuickBooks.parseTransactionLine ecma nmb_sample in
      QuickBooks.invoiceNo r = "963330000141"
      /\ QuickBooks.referenceMemo r = "22410063786"
      /\ QuickBooks.amount r = "12500.00"
      /\ QuickBooks.paymentDate r = "20 Jan 2026").
Proof. vm_compute. repeat split; reflexivity. Qed.

(* ===================================================================== *)
(** ** Containment of faults *)
(* ===================================================================== *)

(** C8.  Both extractors return a record on every line and under every
    runtime; when a rule throws inside the [try] block, the record returned
    is invalid and its error message carries what was thrown (the message
    of an [Error]). *)
Theorem extraction_faults_are_contained (rt : RegExpRuntime) (line : string)
    (e : Thrown) :
  trim line <> "" ->
  (Ledger.nmb_rules rt (trim line) = Throw e ->
   let r := Ledger.parseTransactionLine rt line in
   Ledger.isValid r = false
   /\ Ledger.errorMessage r = Some ("Parse error: " +:+ describe e))
  /\ (Ledger.crdb_rules rt (trim line) = Throw e ->
      let r := Ledger.parseCRDBTransactionLine rt line in
      Ledger.isValid r = false
      /\ Ledger.errorMessage r = Some ("Parse error: " +:+ describe e))
  /\ (QuickBooks.nmb_rules rt (trim line) = Throw e ->
      let r := QuickBooks.parseTransactionLine rt line in
      QuickBooks.isValid r = false
      /\ QuickBooks.errorMessage r = Some ("Parse error: " +:+ describe e))
  /\ (QuickBooks.crdb_rules rt (trim line) = Throw e ->
      let r := QuickBooks.parseCRDBTransactionLine rt line in
      QuickBooks.isValid r = false
      /\ QuickBooks.errorMessage r = Some ("Parse error: " +:+ describe e))
  /\ (forall msg : string, describe (ThrownError msg) = msg).
Proof.
  intros Hne. apply truthy_true in Hne.
  unfold Ledger.parseTransactionLine, Ledger.parseCRDBTransactionLine,
    QuickBooks.parseTransactionLine, QuickBooks.parseCRDBTransactionLine.
  rewrite Hne. simpl negb. cbv iota zeta.
  split; [| split; [| split; [| split]]];
    try (intros H; rewrite H; split; reflexivity).
  intros msg. reflexivity.
Qed.

Lemma extraction_faults_are_contained_witness :
  Ledger.errorMessage (Ledger.parseTransactionLine
                         (broken (ThrownError "Maximum call stack size exceeded"))
                         " 20 Jan 2026 ")
  = Some "Parse error: Maximum call stack size exceeded".
Proof.
  destruct (extraction_faults_are_contained
              (broken (ThrownError "Maximum call stack size exceeded"))
              " 20 Jan 2026 "
              (ThrownError "Maximum call stack size exceeded")) as (H & _).
  - vm_compute. discriminate.
  - apply H. reflexivity.
Defined.

(** A fault of the first rule and a fault of the last rule both leave the
    block. *)
Lemma nmb_date_fault (rt : RegExpRuntime) (l : string) (e : Thrown) :
  rt_match rt Pattern.nmbDate l = Throw e -> Ledger.nmb_rules rt l = Throw e.
Proof. intros H. unfold Ledger.nmb_rules. rewrite H. reflexivity. Qed.

Lemma crdb_name_fault (l : string) (e : Thrown) :
  let rt := {| rt_match := fun r s => if includes s "REF" then Throw e
                                      else Normal (regex_match r s);
               rt_matchAll := rt_matchAll ecma;
               rt_replace := rt_replace ecma |} in
  includes l "REF" = true -> Ledger.crdb_rules rt l = Throw e.
Proof. intros rt H. unfold Ledger.crdb_rules. simpl. rewrite H. reflexivity. Qed.

(* ===================================================================== *)
(** ** The batch parser *)
(* ===================================================================== *)

Lemma input_lines_nonblank (rawData : string) :
  Forall (fun line => truthy (trim line) = true) (input_lines rawData).
Proof.
  unfold input_lines. induction (split_lines rawData) as [|l ls IH]; simpl.
  - constructor.
  - destruct (truthy (trim l)) eqn:E; [constructor |]; assumption.
Qed.

Lemma push_loop {Tx : Type} (valid : Tx -> bool) (g : string -> Tx)
    (lines : list string) (acc : list Tx * list Tx) :
  Forall (fun line => truthy (trim line) = true) lines ->
  fold_left (fun acc line => push_parsed valid line (g line) acc) lines acc
  = (acc.1 ++ List.filter valid (map g lines),
     acc.2 ++ List.filter (fun t => negb (valid t)) (map g lines)).
Proof.
  intros H. revert acc. induction H as [|l ls Hl _ IH]; intros [s f]; simpl.
  - rewrite !app_nil_r. reflexivity.
  - rewrite IH. unfold push_parsed. rewrite Hl.
    destruct (valid (g l)); simpl; rewrite <- ?app_assoc; reflexivity.
Qed.

Lemma partition_lengths {Tx : Type} (valid : Tx -> bool) (l : list Tx) :
  length l = length (List.filter valid l)
             + length (List.filter (fun t => negb (valid t)) l).
Proof.
  induction l as [|x l IH]; simpl; [reflexivity |].
  destruct (valid x); simpl; lia.
Qed.

Lemma input_lines_not_blank (rawData : string) :
  input_lines rawData
  = List.filter (fun piece => negb (blank_line piece)) (split_lines rawData).
Proof.
  unfold input_lines. apply List.filter_ext. intros piece. apply trim_blank.
Qed.

(** The enrichment of a record changes its customer only. *)
Lemma enrich_keeps_validity (customerMappings : list Directory.CustomerMapping)
    (parsed : QuickBooks.ParsedTransaction) :
  QuickBooks.isValid (QuickBooks.enrich customerMappings parsed)
  = QuickBooks.isValid parsed.
Proof.
  unfold QuickBooks.enrich.
  destruct (QuickBooks.isValid parsed && (0 <? length customerMappings));
    [| reflexivity].
  destruct (truthy (Directory.extractMemberIdFromDescription
                      (QuickBooks.rawLine parsed))); [| reflexivity].
  destruct (truthy (Directory.findCustomerByMemberId _ customerMappings));
    reflexivity.
Qed.

(** C7.  The batch parser splits the input at its line feeds, drops the
    pieces that are blank after trimming (white space only) before it
    counts the lines, parses each remaining line with the extractor of the
    chosen bank format, and returns the valid records in [successful] and
    the invalid ones in [failed], both in input order, with the three
    counters in agreement.  In the revision that enriches a record with
    its customer inside the loop, the enrichment does not change which
    records are valid. *)
Theorem batch_parser_partition (rt : RegExpRuntime) (rawData : string)
    (bankType : BankType) (customerMappings : list Directory.CustomerMapping) :
  let pieces := split_lines rawData in
  let lines := List.filter (fun piece => negb (blank_line piece)) pieces in
  text (join_lines (map chars pieces)) = rawData
  /\ Forall (fun piece => Forall (fun a => code a <> 10) (chars piece)) pieces
  /\ (let records := map (Ledger.parse_line rt bankType) lines in
      let result := Ledger.parseTransactions rt rawData bankType in
      successful result = List.filter Ledger.isValid records
      /\ failed result = List.filter (fun t => negb (Ledger.isValid t)) records
      /\ totalLines result = length lines
      /\ successCount result = length (successful result)
      /\ failCount result = length (failed result)
      /\ totalLines result = successCount result + failCount result)
  /\ (let records := map (fun line => QuickBooks.enrich customerMappings
                                        (QuickBooks.parse_line rt bankType line)) lines in
      let result := QuickBooks.parseTransactions rt rawData bankType customerMappings in
      successful result = List.filter QuickBooks.isValid records
      /\ failed result = List.filter (fun t => negb (QuickBooks.isValid t)) records
      /\ totalLines result = length lines
      /\ successCount result = length (successful result)
      /\ failCount result = length (failed result)
      /\ totalLines result = successCount result + failCount result
      /\ map QuickBooks.isValid records
         = map (fun line => QuickBooks.isValid (QuickBooks.parse_line rt bankType line))
               lines)
  /\ Ledger.parse_line rt NMB = Ledger.parseTransactionLine rt
  /\ Ledger.parse_line rt CRDB = Ledger.parseCRDBTransactionLine rt
  /\ QuickBooks.parse_line rt NMB = QuickBooks.parseTransactionLine rt
  /\ QuickBooks.parse_line rt CRDB = QuickBooks.parseCRDBTransactionLine rt.
Proof.
  intros pieces lines. subst pieces lines. rewrite <- input_lines_not_blank.
  set (lines := input_lines rawData).
  split; [apply split_lines_join |]. split; [apply split_lines_pieces |].
  split; [| split; [| repeat split]].
  - unfold Ledger.parseTransactions. fold lines.
    rewrite (push_loop Ledger.isValid (Ledger.parse_line rt bankType) lines)
      by apply input_lines_nonblank.
    simpl. repeat split.
    rewrite <- (length_map (Ledger.parse_line rt bankType) lines).
    apply partition_lengths.
  - unfold QuickBooks.parseTransactions. fold lines.
    rewrite (push_loop QuickBooks.isValid
               (fun line => QuickBooks.enrich customerMappings
                              (QuickBooks.parse_line rt bankType line)) lines)
      by apply input_lines_nonblank.
    simpl. repeat split.
    + rewrite <- (length_map (fun line => QuickBooks.enrich customerMappings
                                (QuickBooks.parse_line rt bankType line)) lines).
      apply partition_lengths.
    + rewrite map_map. apply map_ext. intros line. apply enrich_keeps_validity.
Qed.

(* ===================================================================== *)
(** ** The identity resolver *)
(* ===================================================================== *)





(* ===================================================================== *)
(** ** Chunks *)
(* ===================================================================== *)

Lemma slices_concat {A : Type} (size fuel : nat) (l : list A) :
  0 < size -> length l <= fuel -> concat (Store.slices size fuel l) = l.
Proof.
  intros Hs. revert l. induction fuel as [|fuel IH]; intros l Hl.
  - destruct l; [reflexivity | simpl in Hl; lia].
  - destruct l as [|x l]; [reflexivity |].
    cbn [Store.slices concat].
    rewrite IH; [apply take_drop |].
    rewrite length_drop. simpl length in *. lia.
Qed.

Lemma slices_bounded {A : Type} (size fuel : nat) (l : list A) :
  0 < size ->
  Forall (fun chunk => 0 < length chunk <= size) (Store.slices size fuel l).
Proof.
  intros Hs. revert l. induction fuel as [|fuel IH]; intros l; [constructor |].
  destruct l as [|x l]; [constructor |].
  cbn [Store.slices]. constructor; [| apply IH].
  rewrite length_take. simpl length. lia.
Qed.

(** The chunks are the list cut into pieces of 1 to 100 elements. *)
Lemma chunked_concat {A : Type} (l : list A) : concat (Store.chunked l) = l.
Proof. apply slices_concat; lia. Qed.

Lemma chunked_bounded {A : Type} (l : list A) :
  Forall (fun chunk => 0 < length chunk <= 100) (Store.chunked l).
Proof. apply slices_bounded. lia. Qed.

Lemma chunked_nil {A : Type} : Store.chunked (@nil A) = [].
Proof. reflexivity. Qed.

(* ===================================================================== *)
(** ** The existence check *)
(* ===================================================================== *)

Section StoreFacts.
Import Store.
Context {Number : Type} (number_zero : Number)
        (number_add : Number -> Number -> Number)
        (amount_value : string -> Number).
Context (new_batch_id : nat -> string) (sessionId localeNow : string).
Context {Tx : Type} {schema : Schema Tx}.

Implicit Types (w : @World Number) (d : @Database Number).

Lemma first_outage_nil (n : nat) : first_outage n [] = None.
Proof. destruct n; reflexivity. Qed.

(** A query reads: whether it fails or not, the store stays as it is. *)
Lemma select_in_db (c : Column) (keys : list string) w :
  db (select_in c keys w).2 = db w.
Proof.
  unfold select_in, request.
  destruct (outages w) as [|[e|] later]; reflexivity.
Qed.

Lemma check_chunks_spec (bankType : BankType) (chunks : list (list string))
    (existingIds : gset string) w :
  let out := check_chunks bankType chunks existingIds w in
  db out.2 = db w
  /\ match first_outage (length chunks) (outages w) with
     | Some e => out.1 = inl e
     | None =>
         out.1 = inr (existingIds
                      ∪ list_to_set
                          (concat (map (fun chunk =>
                                          matching (key_column bankType) chunk (db w))
                                       chunks)))
         /\ outages out.2 = drop (length chunks) (outages w)
     end.
Proof.
  revert existingIds w.
  induction chunks as [|chunk more IH]; intros existingIds w.
  - simpl. split; [reflexivity |]. split; [| reflexivity].
    f_equal. simpl. rewrite (right_id_L ∅ (∪)). reflexivity.
  - cbn [check_chunks length first_outage map concat].
    unfold select_in, request.
    destruct (outages w) as [|[e|] later] eqn:Eo; cbn [fst snd].
    + match goal with
      | |- context [check_chunks bankType more ?ids ?w2] =>
          specialize (IH ids w2)
      end.
      cbn [log db outages] in IH. rewrite first_outage_nil in IH.
      destruct IH as (Hd & Ho & Hr).
      split; [exact Hd |]. split.
      * rewrite Ho. f_equal. rewrite list_to_set_app_L, (assoc_L (∪)). reflexivity.
      * rewrite Hr. rewrite !drop_nil. reflexivity.
    + auto.
    + match goal with
      | |- context [check_chunks bankType more ?ids ?w2] =>
          specialize (IH ids w2)
      end.
      cbn [log db outages] in IH.
      destruct IH as (Hd & Hr).
      split; [exact Hd |].
      destruct (first_outage (length more) later); [exact Hr |].
      destruct Hr as (Ho & Hr). split.
      * rewrite Ho. f_equal. rewrite list_to_set_app_L, (assoc_L (∪)). reflexivity.
      * exact Hr.
Qed.

(** The keys the store reports for a list of chunks. *)
Lemma reported_keys (c : Column) (chunks : list (list string)) d (k : string) :
  k ∈ (list_to_set (concat (map (fun chunk => matching c chunk d) chunks))
       : gset string)
  <-> In k (concat chunks)
      /\ exists row, In row (parsed_transactions d) /\ column c row = k.
Proof.
  rewrite elem_of_list_to_set, list_elem_of_In, in_concat.
  split.
  - intros (found & Hf & Hk). apply in_map_iff in Hf as (chunk & <- & Hc).
    unfold matching in Hk. apply in_map_iff in Hk as (row & <- & Hrow).
    apply List.filter_In in Hrow as (Hrow & Hex).
    apply existsb_exists in Hex as (k' & Hk' & Heq).
    apply String.eqb_eq in Heq. split.
    + apply in_concat. exists chunk. split; [exact Hc | rewrite Heq; exact Hk'].
    + eauto.
  - intros (Hk & row & Hrow & <-).
    apply in_concat in Hk as (chunk & Hc & Hk).
    exists (matching c chunk d). split.
    + apply in_map_iff. eauto.
    + unfold matching. apply in_map_iff. exists row. split; [reflexivity |].
      apply List.filter_In. split; [exact Hrow |].
      apply existsb_exists. exists (column c row). split; [exact Hk |].
      apply String.eqb_refl.
Qed.

Lemma known_keys_spec (transactions : list Tx) (bankType : BankType) d (k : string) :
  k ∈ known_keys transactions bankType d
  <-> In k (candidate_keys transactions bankType)
      /\ exists row, In row (parsed_transactions d)
                     /\ column (key_column bankType) row = k.
Proof.
  unfold known_keys.
  pose proof (reported_keys (key_column bankType)
                [candidate_keys transactions bankType] d k) as Hk.
  cbn [map concat] in Hk. rewrite !app_nil_r in Hk. exact Hk.
Qed.

(** What the existence check answers: the error of the first failed query
    if there is one, else the candidate keys that some stored row
    carries; and it never changes the store. *)
Lemma checkExistingTransactions_spec (transactions : list Tx)
    (bankType : BankType) w :
  let keys := candidate_keys transactions bankType in
  let out := checkExistingTransactions transactions bankType w in
  db out.2 = db w
  /\ match first_outage (length (chunked keys)) (outages w) with
     | Some e => out.1 = (∅, Some (describe (thrown e)))
     | None =>
         out.1 = (known_keys transactions bankType (db w), None)
         /\ outages out.2 = drop (length (chunked keys)) (outages w)
     end.
Proof.
  intros keys out. subst out. unfold checkExistingTransactions. fold keys.
  destruct (0 <? length keys) eqn:Hlen.
  - pose proof (check_chunks_spec bankType (chunked keys) ∅ w) as Hspec.
    cbv zeta in Hspec.
    destruct (check_chunks bankType (chunked keys) ∅ w) as [outcome w1].
    cbn [fst snd] in Hspec. destruct Hspec as (Hdb & Hout).
    destruct (first_outage (length (chunked keys)) (outages w)) as [e|].
    + subst outcome. cbn [fst snd log db]. auto.
    + destruct Hout as (-> & Hrest). cbn [fst snd log db outages].
      split; [exact Hdb |]. split; [| exact Hrest].
      f_equal. apply set_eq. intros k.
      rewrite (left_id_L ∅ (∪)), reported_keys, chunked_concat, known_keys_spec.
      reflexivity.
  - apply Nat.ltb_ge in Hlen.
    assert (Hnil : keys = []) by (destruct keys; [reflexivity | simpl in Hlen; lia]).
    rewrite Hnil.
    cbn [fst snd log db outages chunked length slices first_outage drop].
    split; [reflexivity |]. split; [| reflexivity].
    f_equal. apply set_eq. intros k. rewrite known_keys_spec. fold keys.
    rewrite Hnil. split; [intros Hk; exfalso; revert Hk; apply not_elem_of_empty |].
    intros ([] & _).
Qed.

(* =================================================================== *)
(** ** The write stage *)
(* =================================================================== *)

(** The loop sends every chunk: the chunks whose request succeeds are
    appended to the table in order, every refused chunk leaves a line on
    the console, and no batch row is touched. *)
Lemma insert_chunks_spec (chunks : list (list StoredTransaction)) w :
  let w' := insert_chunks chunks w in
  transaction_batches (db w') = transaction_batches (db w)
  /\ parsed_transactions (db w')
     = parsed_transactions (db w) ++ concat (delivered chunks (outages w))
  /\ outages w' = drop (length chunks) (outages w)
  /\ console w'
     = console w ++ map (fun e => ConsoleError "Error saving transactions:" (thrown e))
                        (refused chunks (outages w)).
Proof.
  revert w. induction chunks as [|chunk more IH]; intros w.
  - simpl. rewrite !app_nil_r. auto.
  - cbn [insert_chunks]. unfold insert_transactions, request.
    destruct (outages w) as [|[e|] later] eqn:Eo.
    + match goal with
      | |- context [insert_chunks more ?w2] => specialize (IH w2)
      end.
      cbn [db outages console transaction_batches parsed_transactions] in IH.
      destruct IH as (Hb & Hp & Ho & Hc). cbn [delivered refused concat map].
      rewrite Hb, Hp, Ho, Hc, drop_nil, <- app_assoc.
      destruct more; auto.
    + match goal with
      | |- context [insert_chunks more ?w2] => specialize (IH w2)
      end.
      cbn [log db outages console] in IH.
      destruct IH as (Hb & Hp & Ho & Hc). cbn [delivered refused concat map length drop].
      rewrite Hb, Hp, Ho, Hc, <- app_assoc. auto.
    + match goal with
      | |- context [insert_chunks more ?w2] => specialize (IH w2)
      end.
      cbn [db outages console transaction_batches parsed_transactions] in IH.
      destruct IH as (Hb & Hp & Ho & Hc). cbn [delivered refused concat map length drop].
      rewrite Hb, Hp, Ho, Hc, <- app_assoc. auto.
Qed.

Lemma delivered_all {A : Type} (chunks : list (list A))
    (outs : list (option PostgrestError)) :
  first_outage (length chunks) outs = None -> delivered chunks outs = chunks.
Proof.
  revert outs. induction chunks as [|chunk more IH]; intros outs Ho; [reflexivity |].
  destruct outs as [|[e|] later]; simpl in *.
  - rewrite IH; [reflexivity | apply first_outage_nil].
  - discriminate.
  - rewrite IH; auto.
Qed.

(* =================================================================== *)
(** ** [saveBatchToDatabase], case by case *)
(* =================================================================== *)

Abbreviation save := (saveBatchToDatabase number_zero number_add amount_value
                                          new_batch_id sessionId localeNow).
Abbreviation check_requests result :=
  (length (chunked (candidate_keys (successful result) (bankType result)))).

(** The check fails with a non-empty error text: nothing is written. *)
Lemma save_after_failed_check (result : ParseResult Tx) (batchName : nullable) w
    (e : PostgrestError) :
  first_outage (check_requests result) (outages w) = Some e ->
  describe (thrown e) <> "" ->
  (save result batchName w).1
  = {| batchId := None; error := Some (describe (thrown e)); skippedCount := 0 |}
  /\ db (save result batchName w).2 = db w.
Proof.
  intros Ho Hd. unfold saveBatchToDatabase.
  pose proof (checkExistingTransactions_spec (successful result) (bankType result) w)
    as Hspec.
  cbv zeta in Hspec. rewrite Ho in Hspec.
  destruct (checkExistingTransactions (successful result) (bankType result) w)
    as [[existingIds checkError] w1].
  cbn [fst snd] in Hspec. destruct Hspec as (Hdb & Hout).
  injection Hout as -> ->.
  apply truthy_true in Hd. cbn [nullable_or]. unfold or_else. rewrite !Hd.
  cbn [fst snd]. auto.
Qed.

Lemma filter_nothing {A : Type} (p : A -> bool) (l : list A) :
  (forall x, In x l -> p x = false) -> List.filter p l = [].
Proof.
  induction l as [|x l IH]; intros Hp; [reflexivity |].
  simpl. rewrite (Hp x (or_introl eq_refl)). apply IH.
  intros y Hy. apply Hp. right. exact Hy.
Qed.

(** The check succeeds and finds every candidate: nothing is written and
    every candidate is counted as skipped. *)
Lemma save_all_duplicates (result : ParseResult Tx) (batchName : nullable) w :
  first_outage (check_requests result) (outages w) = None ->
  (forall t, In t (successful result) ->
     dedup_key (bankType result) t <> ""
     /\ exists row, In row (parsed_transactions (db w))
                    /\ column (key_column (bankType result)) row
                       = dedup_key (bankType result) t) ->
  (save result batchName w).1
  = {| batchId := None; error := None; skippedCount := length (successful result) |}
  /\ db (save result batchName w).2 = db w.
Proof.
  intros Ho Hall. unfold saveBatchToDatabase.
  pose proof (checkExistingTransactions_spec (successful result) (bankType result) w)
    as Hspec.
  cbv zeta in Hspec. rewrite Ho in Hspec.
  destruct (checkExistingTransactions (successful result) (bankType result) w)
    as [[existingIds checkError] w1].
  cbn [fst snd] in Hspec. destruct Hspec as (Hdb & Hout & _).
  injection Hout as -> ->.
  cbn [nullable_or truthy].
  assert (Hnone : to_save result (known_keys (successful result) (bankType result) (db w))
                  = []).
  { unfold to_save. apply filter_nothing. intros t Ht.
    destruct (Hall t Ht) as (Hne & row & Hrow & Hcol).
    apply negb_false_iff. unfold has. apply bool_decide_eq_true.
    apply known_keys_spec. split; [| eauto].
    unfold candidate_keys. apply List.filter_In. split.
    - apply in_map. exact Ht.
    - apply truthy_true. exact Hne. }
  rewrite Hnone. cbn [length Nat.eqb fst snd log db]. rewrite Nat.sub_0_r. auto.
Qed.

(** The check succeeds and leaves something to save: the batch row is
    requested next.  If that request fails, nothing is written and its
    message is the error; if it succeeds, the batch row is added, the
    write set is sent chunk by chunk whatever happens to each chunk, and
    the batch id is returned without an error. *)
Lemma save_writes (result : ParseResult Tx) (batchName : nullable) w :
  first_outage (check_requests result) (outages w) = None ->
  survivors result (db w) <> [] ->
  let saved := survivors result (db w) in
  let skipped := length (successful result) - length saved in
  let out := save result batchName w in
  match drop (check_requests result) (outages w) with
  | Some batchError :: _ =>
      out.1 = {| batchId := None; error := Some (message batchError);
                 skippedCount := 0 |}
      /\ db out.2 = db w
  | None :: later | later =>
      let batch := new_batch_id (length (transaction_batches (db w))) in
      let chunks := chunked (write_set batch saved result) in
      out.1 = {| batchId := Some batch; error := None; skippedCount := skipped |}
      /\ (exists b, transaction_batches (db out.2)
                    = transaction_batches (db w) ++ [b] /\ id b = batch)
      /\ parsed_transactions (db out.2)
         = parsed_transactions (db w) ++ concat (delivered chunks later)
      /\ exists earlier,
           console out.2
           = earlier ++ map (fun e => ConsoleError "Error saving transactions:"
                                                   (thrown e))
                            (refused chunks later)
  end.
Proof.
  intros Ho Hsome. unfold survivors in *. unfold saveBatchToDatabase.
  pose proof (checkExistingTransactions_spec (successful result) (bankType result) w)
    as Hspec.
  cbv zeta in Hspec. rewrite Ho in Hspec.
  destruct (checkExistingTransactions (successful result) (bankType result) w)
    as [[existingIds checkError] w1].
  cbn [fst snd] in Hspec. destruct Hspec as (Hdb & Hout & Hrest).
  injection Hout as -> ->.
  cbv zeta. cbn [nullable_or truthy].
  set (ids := known_keys (successful result) (bankType result) (db w)) in *.
  destruct (to_save result ids) as [|t0 saved] eqn:Hsaved; [congruence |].
  cbn [length Nat.eqb]. rewrite <- Hsaved.
  unfold insert_batch, request. rewrite Hrest.
  destruct (drop (check_requests result) (outages w)) as [|[e|] later].
  - cbn [fst snd]. rewrite Hdb.
    match goal with
    | |- context [insert_chunks ?cs ?w2] =>
        pose proof (insert_chunks_spec cs w2) as Hw
    end.
    cbv zeta in Hw.
    cbn [db outages console transaction_batches parsed_transactions id] in Hw.
    destruct Hw as (Hb & Hp & _ & Hc).
    split; [reflexivity |]. split; [eexists; split; [exact Hb | reflexivity] |].
    split; [exact Hp |]. eexists. exact Hc.
  - cbn [fst snd log db]. auto.
  - cbn [fst snd]. rewrite Hdb.
    match goal with
    | |- context [insert_chunks ?cs ?w2] =>
        pose proof (insert_chunks_spec cs w2) as Hw
    end.
    cbv zeta in Hw.
    cbn [db outages console transaction_batches parsed_transactions id] in Hw.
    destruct Hw as (Hb & Hp & _ & Hc).
    split; [reflexivity |]. split; [eexists; split; [exact Hb | reflexivity] |].
    split; [exact Hp |]. eexists. exact Hc.
Qed.

Lemma delivered_fate {A : Type} (chunks : list (list A))
    (outs : list (option PostgrestError)) (i : nat) (chunk : list A) :
  chunks !! i = Some chunk ->
  match outs !! i with
  | Some (Some e) => In e (refused chunks outs)
  | _ => In chunk (delivered chunks outs)
  end.
Proof.
  revert outs i. induction chunks as [|c more IH]; intros outs i Hi; [discriminate |].
  destruct i as [|i]; simpl in Hi.
  - injection Hi as ->. destruct outs as [|[e|] later]; simpl; auto.
  - destruct outs as [|[e|] later]; simpl.
    + specialize (IH [] i Hi). simpl in IH. auto.
    + specialize (IH later i Hi). destruct (later !! i) as [[e'|]|]; simpl; auto.
    + specialize (IH later i Hi). destruct (later !! i) as [[e'|]|]; simpl; auto.
Qed.

Lemma fate_after_batch (n : nat) (outs : list (option PostgrestError)) :
  first_outage 1 (drop n outs) = None ->
  drop n outs = None :: drop (S n) outs \/ (drop n outs = [] /\ drop (S n) outs = []).
Proof.
  intros H1.
  assert (Hd : drop (S n) outs = drop 1 (drop n outs))
    by (rewrite drop_drop; f_equal; lia).
  rewrite Hd. destruct (drop n outs) as [|[e|] later]; simpl in *; auto; discriminate.
Qed.

(** After a successful check and a successful batch insert. *)
Lemma write_stage (result : ParseResult Tx) (batchName : nullable) w :
  first_outage (check_requests result) (outages w) = None ->
  survivors result (db w) <> [] ->
  first_outage 1 (drop (check_requests result) (outages w)) = None ->
  (save result batchName w).1
  = {| batchId := Some (new_batch_id (length (transaction_batches (db w))));
       error := None;
       skippedCount := length (successful result)
                       - length (survivors result (db w)) |}
  /\ parsed_transactions (db (save result batchName w).2)
     = parsed_transactions (db w)
       ++ concat (delivered
                    (chunked (write_set
                                (new_batch_id (length (transaction_batches (db w))))
                                (survivors result (db w)) result))
                    (drop (S (check_requests result)) (outages w)))
  /\ exists earlier,
       console (save result batchName w).2
       = earlier
         ++ map (fun e => ConsoleError "Error saving transactions:" (thrown e))
                (refused
                   (chunked (write_set
                               (new_batch_id (length (transaction_batches (db w))))
                               (survivors result (db w)) result))
                   (drop (S (check_requests result)) (outages w))).
Proof.
  intros Ho Hsome Hb.
  pose proof (save_writes result batchName w Ho Hsome) as Hw. cbv zeta in Hw.
  destruct (fate_after_batch _ _ Hb) as [Hd | [Hd Hd']].
  - rewrite Hd in Hw. destruct Hw as (H1 & _ & H3 & H4). auto.
  - rewrite Hd in Hw. rewrite Hd'. destruct Hw as (H1 & _ & H3 & H4). auto.
Qed.

Lemma write_stage_rows (result : ParseResult Tx) (batchName : nullable) w :
  first_outage (check_requests result) (outages w) = None ->
  survivors result (db w) <> [] ->
  first_outage 1 (drop (check_requests result) (outages w)) = None ->
  (save result batchName w).1
  = {| batchId := Some (new_batch_id (length (transaction_batches (db w))));
       error := None;
       skippedCount := length (successful result)
                       - length (survivors result (db w)) |}
  /\ parsed_transactions (db (save result batchName w).2)
     = parsed_transactions (db w)
       ++ concat (delivered
                    (chunked (write_set
                                (new_batch_id (length (transaction_batches (db w))))
                                (survivors result (db w)) result))
                    (drop (S (check_requests result)) (outages w))).
Proof.
  intros Ho Hsome Hb.
  destruct (write_stage result batchName w Ho Hsome Hb) as (H1 & H2 & _). auto.
Qed.

(** C5.  Once the batch row exists, every chunk of at most 100 rows is
    sent, whatever happened to the chunks before it: a chunk whose insert
    fails is reported on the console and left out, the others are written,
    and the batch id is returned with no error. *)
Theorem write_stage_skips_failed_chunks (result : ParseResult Tx)
    (batchName : nullable) w :
  first_outage (check_requests result) (outages w) = None ->
  survivors result (db w) <> [] ->
  first_outage 1 (drop (check_requests result) (outages w)) = None ->
  let saved := survivors result (db w) in
  let batch := new_batch_id (length (transaction_batches (db w))) in
  let chunks := chunked (write_set batch saved result) in
  let fate := drop (S (check_requests result)) (outages w) in
  let out := save result batchName w in
  out.1 = {| batchId := Some batch; error := None;
             skippedCount := length (successful result) - length saved |}
  /\ Forall (fun chunk => 0 < length chunk <= 100) chunks
  /\ concat chunks = write_set batch saved result
  /\ parsed_transactions (db out.2)
     = parsed_transactions (db w) ++ concat (delivered chunks fate)
  /\ (forall i chunk, chunks !! i = Some chunk ->
        match fate !! i with
        | Some (Some e) =>
            In (ConsoleError "Error saving transactions:" (thrown e)) (console out.2)
        | _ => forall row, In row chunk -> In row (parsed_transactions (db out.2))
        end).
Proof.
  intros Ho Hsome Hb. cbv zeta.
  pose proof (write_stage result batchName w Ho Hsome Hb) as Hout.
  destruct Hout as (Hres & Hrows & earlier & Hlog).
  split; [exact Hres |]. split; [apply chunked_bounded |].
  split; [apply chunked_concat |]. split; [exact Hrows |].
  intros i chunk Hi.
  pose proof (delivered_fate _ (drop (S (check_requests result)) (outages w)) i chunk Hi)
    as Hfate.
  destruct (drop (S (check_requests result)) (outages w) !! i) as [[e|]|].
  - rewrite Hlog. apply in_or_app. right.
    apply (in_map (fun e => ConsoleError "Error saving transactions:" (thrown e))).
    exact Hfate.
  - intros row Hrow. rewrite Hrows. apply in_or_app. right.
    apply in_concat. eauto.
  - intros row Hrow. rewrite Hrows. apply in_or_app. right.
    apply in_concat. eauto.
Qed.

(** Without outages no request consumes anything. *)
Lemma check_chunks_calm (bankType : BankType) (chunks : list (list string))
    (existingIds : gset string) w :
  outages w = [] -> outages (check_chunks bankType chunks existingIds w).2 = [].
Proof.
  revert existingIds w. induction chunks as [|chunk more IH]; intros ids w Ho;
    [exact Ho |].
  cbn [check_chunks]. unfold select_in, request. rewrite Ho. apply IH. reflexivity.
Qed.

Lemma insert_chunks_quiet (chunks : list (list StoredTransaction)) w :
  outages w = [] -> outages (insert_chunks chunks w) = [].
Proof.
  intros Ho. destruct (insert_chunks_spec chunks w) as (_ & _ & -> & _).
  rewrite Ho. apply drop_nil.
Qed.

Lemma save_quiet (result : ParseResult Tx) (batchName : nullable) w :
  outages w = [] -> outages (save result batchName w).2 = [].
Proof.
  intros Ho. unfold saveBatchToDatabase, checkExistingTransactions.
  assert (Hc : forall chunks ids,
             outages (check_chunks (bankType result) chunks ids w).2 = [])
    by (intros; apply check_chunks_calm; exact Ho).
  destruct (0 <? length (candidate_keys (successful result) (bankType result))).
  - specialize (Hc (chunked (candidate_keys (successful result) (bankType result))) ∅).
    destruct (check_chunks (bankType result)
                (chunked (candidate_keys (successful result) (bankType result))) ∅ w)
      as [[e|ids] w1]; cbn [fst snd] in *.
    + destruct (truthy (nullable_or (Some (describe (thrown e))) "")); cbn [snd log outages].
      * exact Hc.
      * destruct (length (to_save result ∅) =? 0); cbn [snd log outages]; [exact Hc |].
        unfold insert_batch, request. cbn [log outages]. rewrite Hc. cbn [snd].
        apply insert_chunks_quiet. reflexivity.
    + cbn [nullable_or truthy].
      destruct (length (to_save result ids) =? 0); cbn [snd log outages]; [exact Hc |].
      unfold insert_batch, request. cbn [log outages]. rewrite Hc. cbn [snd].
      apply insert_chunks_quiet. reflexivity.
  - cbn [nullable_or truthy].
    destruct (length (to_save result ∅) =? 0); cbn [snd log outages]; [exact Ho |].
    unfold insert_batch, request. cbn [log outages]. rewrite Ho. cbn [snd].
    apply insert_chunks_quiet. reflexivity.
Qed.

(** The check succeeds and every candidate is already known. *)
Lemma save_nothing_left (result : ParseResult Tx) (batchName : nullable) w :
  first_outage (check_requests result) (outages w) = None ->
  survivors result (db w) = [] ->
  (save result batchName w).1
  = {| batchId := None; error := None; skippedCount := length (successful result) |}
  /\ db (save result batchName w).2 = db w.
Proof.
  intros Ho Hnone. unfold survivors in Hnone. unfold saveBatchToDatabase.
  pose proof (checkExistingTransactions_spec (successful result) (bankType result) w)
    as Hspec.
  cbv zeta in Hspec. rewrite Ho in Hspec.
  destruct (checkExistingTransactions (successful result) (bankType result) w)
    as [[existingIds checkError] w1].
  cbn [fst snd] in Hspec. destruct Hspec as (Hdb & Hout & _).
  injection Hout as -> ->.
  cbn [nullable_or truthy]. rewrite Hnone.
  cbn [length Nat.eqb fst snd log db]. rewrite Nat.sub_0_r. auto.
Qed.

(** Submitting a batch twice.  When no request fails, every candidate has a
    non-empty key and the row written for a record carries its key in the
    key column, the second submission finds every candidate in the store:
    it writes nothing and skips them all. *)
Lemma resubmission (result : ParseResult Tx) (name1 name2 : nullable) w :
  (forall bankType batch t,
      column (key_column bankType) (saved_row batch t) = dedup_key bankType t) ->
  outages w = [] ->
  (forall t, In t (successful result) -> dedup_key (bankType result) t <> "") ->
  let first := save result name1 w in
  let second := save result name2 first.2 in
  second.1
  = {| batchId := None; error := None; skippedCount := length (successful result) |}
  /\ db second.2 = db first.2.
Proof.
  intros Hlaw Ho Hkeys. cbv zeta.
  assert (Ho1 : first_outage (check_requests result) (outages w) = None)
    by (rewrite Ho; apply first_outage_nil).
  assert (Hrows : forall t, In t (successful result) ->
            exists row, In row (parsed_transactions (db (save result name1 w).2))
                        /\ column (key_column (bankType result)) row
                           = dedup_key (bankType result) t).
  { destruct (survivors result (db w)) as [|t0 rest] eqn:Hs.
    - destruct (save_nothing_left result name1 w Ho1 Hs) as (_ & ->).
      intros t Ht.
      assert (Hin : ~ In t (survivors result (db w))) by (rewrite Hs; intros []).
      unfold survivors, to_save in Hin. rewrite List.filter_In in Hin.
      destruct (has (known_keys (successful result) (bankType result) (db w))
                    (dedup_key (bankType result) t)) eqn:Hhas.
      + unfold has in Hhas. apply bool_decide_eq_true in Hhas.
        apply known_keys_spec in Hhas as (_ & Hrow). exact Hrow.
      + exfalso. apply Hin. split; [exact Ht | reflexivity].
    - assert (Hsome : survivors result (db w) <> []) by (rewrite Hs; discriminate).
      assert (Hb : first_outage 1 (drop (check_requests result) (outages w)) = None)
        by (rewrite Ho, drop_nil; reflexivity).
      destruct (write_stage_rows result name1 w Ho1 Hsome Hb) as (_ & ->).
      rewrite Ho, drop_nil, delivered_all, chunked_concat by apply first_outage_nil.
      intros t Ht.
      destruct (has (known_keys (successful result) (bankType result) (db w))
                    (dedup_key (bankType result) t)) eqn:Hhas.
      + unfold has in Hhas. apply bool_decide_eq_true in Hhas.
        apply known_keys_spec in Hhas as (_ & row & Hrow & Hcol).
        exists row. split; [apply in_or_app; left; exact Hrow | exact Hcol].
      + eexists. split; [| apply Hlaw].
        apply in_or_app. right. unfold write_set. apply in_or_app. left.
        apply in_map. unfold survivors, to_save. apply List.filter_In.
        split; [exact Ht | rewrite Hhas; reflexivity]. }
  apply save_all_duplicates.
  - rewrite (save_quiet result name1 w Ho). apply first_outage_nil.
  - intros t Ht. split; [apply Hkeys; exact Ht | apply Hrows; exact Ht].
Qed.

(** C10, as the code has it.  When a batch is created, every record of
    [failed] is in the write set, whatever the duplicate filter removed
    from [successful], as a row with [is_valid] false and its error message
    (an absent or empty message becomes null); such a row reaches the
    store when the insert of its chunk succeeds, so all of them do when no
    chunk insert fails. *)
Theorem failed_records_join_the_write_set (result : ParseResult Tx)
    (batchName : nullable) w :
  first_outage (check_requests result) (outages w) = None ->
  survivors result (db w) <> [] ->
  first_outage 1 (drop (check_requests result) (outages w)) = None ->
  let saved := survivors result (db w) in
  let batch := new_batch_id (length (transaction_batches (db w))) in
  let rows := write_set batch saved result in
  let fate := drop (S (check_requests result)) (outages w) in
  let out := save result batchName w in
  batchId out.1 = Some batch
  /\ rows = map (saved_row batch) saved ++ map (failed_row batch) (failed result)
  /\ (forall t, In t (failed result) -> In (failed_row batch t) rows)
  /\ parsed_transactions (db out.2)
     = parsed_transactions (db w) ++ concat (delivered (chunked rows) fate)
  /\ (first_outage (length (chunked rows)) fate = None ->
      parsed_transactions (db out.2) = parsed_transactions (db w) ++ rows)
  /\ (forall (id : string) (t : Ledger.ParsedTransaction),
        is_valid (failed_row id t) = false
        /\ error_message (failed_row id t) = message_or_null (Ledger.errorMessage t)
        /\ raw_line (failed_row id t) = Ledger.rawLine t)
  /\ (forall (id : string) (t : QuickBooks.ParsedTransaction),
        is_valid (failed_row id t) = false
        /\ error_message (failed_row id t) = message_or_null (QuickBooks.errorMessage t)
        /\ raw_line (failed_row id t) = QuickBooks.rawLine t).
Proof.
  intros Ho Hsome Hb. cbv zeta.
  destruct (write_stage_rows result batchName w Ho Hsome Hb) as (Hres & Hrows).
  split; [rewrite Hres; reflexivity |]. split; [reflexivity |].
  split; [| split; [exact Hrows | split; [| split; intros; repeat split]]].
  - intros t Ht. unfold write_set. apply in_or_app. right. apply in_map. exact Ht.
  - intros Hall. rewrite Hrows, (delivered_all _ _ Hall), chunked_concat. reflexivity.
Qed.


End StoreFacts.

(* ===================================================================== *)
(** ** The service at work *)
(* ===================================================================== *)

(** Every failure that is not an [Error] with an empty message has a
    non-empty error text, and then the save is given up with that text. *)
Lemma describe_thrown_nonempty (e : Store.PostgrestError) :
  Store.instanceof_Error e = false \/ Store.message e <> "" ->
  describe (Store.thrown e) <> "".
Proof.
  unfold Store.thrown. destruct (Store.instanceof_Error e); simpl.
  - intros [H | H]; [discriminate | exact H].
  - discriminate.
Qed.

(** C4 fails on the code.  The existence check of the sample batch fails
    with an [Error] whose message is empty: the check reports the empty
    text as its error, the save takes it for no error and for no
    duplicates, and a batch row and a transaction row are written. *)
Theorem failed_check_with_empty_message_is_ignored :
  let w := Demo.world [] [Some Demo.silent_failure] in
  let out := Demo.save Demo.sample_batch None w in
  Store.first_outage 1 (Store.outages w) = Some Demo.silent_failure
  /\ (Store.checkExistingTransactions (successful Demo.sample_batch) NMB w).1
     = (∅, Some "")
  /\ Store.batchId out.1 = Some "batch-0"
  /\ Store.error out.1 = None
  /\ length (Store.transaction_batches (Store.db out.2)) = 1
  /\ map Store.user_id (Store.parsed_transactions (Store.db out.2)) = ["22410063786"].
Proof. vm_compute. repeat split; reflexivity. Qed.

(** With any other failure the same save is given up and writes nothing. *)
Lemma failed_check_with_a_message_aborts :
  let w := Demo.world [] [Some Demo.timeout] in
  let out := Demo.save Demo.sample_batch None w in
  out.1 = {| Store.batchId := None; Store.error := Some "Unknown error";
             Store.skippedCount := 0 |}
  /\ Store.db out.2 = Store.db w.
Proof.
  apply (save_after_failed_check 0%N N.add Demo.whole_units Demo.batch_id
           "session_1768917540_k3x9" "1/20/2026, 1:59:00 PM"
           Demo.sample_batch None (Demo.world [] [Some Demo.timeout]) Demo.timeout).
  - vm_compute. reflexivity.
  - vm_compute. discriminate.
Defined.

Lemma write_stage_skips_failed_chunks_witness :
  let w := Demo.world [] [None; None; None; Some Demo.timeout; None] in
  let out := Demo.save Demo.bulk_batch None w in
  out.1 = {| Store.batchId := Some "batch-0"; Store.error := None;
             Store.skippedCount := 0 |}
  /\ length (Store.parsed_transactions (Store.db out.2)) = 50.
Proof.
  destruct (write_stage_skips_failed_chunks 0%N N.add Demo.whole_units Demo.batch_id
              "session_1768917540_k3x9" "1/20/2026, 1:59:00 PM"
              Demo.bulk_batch None
              (Demo.world [] [None; None; None; Some Demo.timeout; None]))
    as (Hres & _ & _ & Hrows & _).
  - vm_compute. reflexivity.
  - vm_compute. discriminate.
  - vm_compute. reflexivity.
  - cbv zeta. unfold Demo.save. split.
    + rewrite Hres. vm_compute. reflexivity.
    + rewrite Hrows. vm_compute. reflexivity.
Defined.

(** C10 as stated fails: the batch of the mixed input is created, the only
    chunk of rows is refused, and the failed record is not in the store. *)
Lemma failed_record_lost_with_its_chunk :
  let w := Demo.world [] [None; None; Some Demo.timeout] in
  let out := Demo.save Demo.mixed_batch None w in
  length (failed Demo.mixed_batch) = 1
  /\ Store.batchId out.1 = Some "batch-0"
  /\ length (Store.transaction_batches (Store.db out.2)) = 1
  /\ Store.parsed_transactions (Store.db out.2) = [].
Proof. vm_compute. repeat split; reflexivity. Qed.

Lemma failed_records_join_the_write_set_witness :
  let w := Demo.world [] [] in
  let out := Demo.save Demo.mixed_batch None w in
  Store.batchId out.1 = Some "batch-0"
  /\ map (fun row => (Store.is_valid row, Store.error_message row))
         (Store.parsed_transactions (Store.db out.2))
     = [(true, None); (false, Some "Could not extract required fields")].
Proof.
  destruct (failed_records_join_the_write_set 0%N N.add Demo.whole_units Demo.batch_id
              "session_1768917540_k3x9" "1/20/2026, 1:59:00 PM"
              Demo.mixed_batch None (Demo.world [] []))
    as (Hid & _ & _ & _ & Hrows & _).
  - vm_compute. reflexivity.
  - vm_compute. discriminate.
  - vm_compute. reflexivity.
  - cbv zeta. unfold Demo.save. split; [exact Hid |].
    rewrite Hrows by (vm_compute; reflexivity). vm_compute. reflexivity.
Defined.



(** A batch with non-empty keys submitted twice: the second submission is
    skipped whole, in both revisions of the service. *)
Lemma ledger_resubmission {Number : Type} (zero : Number)
    (add : Number -> Number -> Number) (value : string -> Number)
    (new_id : nat -> string) (session now : string)
    (result : ParseResult Ledger.ParsedTransaction) (name1 name2 : nullable)
    (w : Store.World (Number := Number)) :
  Store.outages w = [] ->
  (forall t, In t (successful result) ->
             Store.dedup_key (bankType result) t <> "") ->
  let first := Store.saveBatchToDatabase zero add value new_id session now
                                         result name1 w in
  let second := Store.saveBatchToDatabase zero add value new_id session now
                                          result name2 first.2 in
  second.1 = {| Store.batchId := None; Store.error := None;
                Store.skippedCount := length (successful result) |}
  /\ Store.db second.2 = Store.db first.2.
Proof.
  apply resubmission. intros [] batch t; reflexivity.
Qed.

Lemma quickbooks_resubmission {Number : Type} (zero : Number)
    (add : Number -> Number -> Number) (value : string -> Number)
    (new_id : nat -> string) (session now : string)
    (result : ParseResult QuickBooks.ParsedTransaction) (name1 name2 : nullable)
    (w : Store.World (Number := Number)) :
  Store.outages w = [] ->
  (forall t, In t (successful result) -> QuickBooks.invoiceNo t <> "") ->
  let first := Store.saveBatchToDatabase zero add value new_id session now
                                         result name1 w in
  let second := Store.saveBatchToDatabase zero add value new_id session now
                                          result name2 first.2 in
  second.1 = {| Store.batchId := None; Store.error := None;
                Store.skippedCount := length (successful result) |}
  /\ Store.db second.2 = Store.db first.2.
Proof.
  intros Ho Hk.
  apply resubmission; [intros [] batch t; reflexivity | exact Ho | exact Hk].
Qed.

(* ===================================================================== *)
(** * Further properties of the persistence routine *)
(* ===================================================================== *)

Lemma delivered_sub {A : Type} (chunks : list (list A))
    (outs : list (option Store.PostgrestError)) (chunk : list A) :
  In chunk (Store.delivered chunks outs) -> In chunk chunks.
Proof.
  revert outs. induction chunks as [|c more IH]; intros outs H; [destruct H |].
  destruct outs as [|[e|] later]; simpl in H.
  - destruct H as [-> | H]; [left; reflexivity | right; eapply IH; exact H].
  - right. eapply IH. exact H.
  - destruct H as [-> | H]; [left; reflexivity | right; eapply IH; exact H].
Qed.

Lemma filter_everything {A : Type} (p : A -> bool) (l : list A) :
  (forall x, In x l -> p x = true) -> List.filter p l = l.
Proof.
  induction l as [|a l IH]; intros H; [reflexivity |].
  cbn [List.filter]. rewrite (H a) by (left; reflexivity).
  rewrite IH; [reflexivity |]. intros x Hx. apply H. right. exact Hx.
Qed.

Section StoreExtras.
Import Store.
Context {Number : Type} (number_zero : Number)
        (number_add : Number -> Number -> Number)
        (amount_value : string -> Number).
Context (new_batch_id : nat -> string) (sessionId localeNow : string).
Context {Tx : Type} {schema : Schema Tx}.

Implicit Types (w : @World Number) (d : @Database Number).

Abbreviation save' := (saveBatchToDatabase number_zero number_add amount_value
                                           new_batch_id sessionId localeNow).

(** Every way a save can end: either no batch id is returned and the store
    is as before, or the batch row described here is appended and some of
    the chunks of the write set are appended to the rows. *)
Lemma save_outcome (result : ParseResult Tx) (batchName : nullable) w :
  let out := save' result batchName w in
  (batchId out.1 = None /\ db out.2 = db w)
  \/ exists existingIds outs,
       let saved := to_save result existingIds in
       let b := new_batch_id (length (transaction_batches (db w))) in
       saved <> []
       /\ out.1 = {| batchId := Some b; error := None;
                     skippedCount := length (successful result) - length saved |}
       /\ transaction_batches (db out.2)
          = transaction_batches (db w)
            ++ [{| id := b; session_id := sessionId;
                   batch_name := nullable_or batchName ("Batch " +:+ localeNow);
                   total_lines := totalLines result;
                   success_count := length saved;
                   fail_count := failCount result;
                   total_amount :=
                     fold_left (fun sum t => number_add sum (amount_value (amount_text t)))
                               saved number_zero |}]
       /\ parsed_transactions (db out.2)
          = parsed_transactions (db w)
            ++ concat (delivered (chunked (write_set b saved result)) outs).
Proof.
  cbv zeta. unfold saveBatchToDatabase.
  pose proof (checkExistingTransactions_spec (successful result) (bankType result) w)
    as Hspec.
  cbv zeta in Hspec. destruct Hspec as (Hdb & _).
  destruct (checkExistingTransactions (successful result) (bankType result) w)
    as [[existingIds checkError] w1].
  cbn [fst snd] in Hdb.
  destruct (truthy (nullable_or checkError "")); [left; cbn [fst snd batchId]; auto |].
  destruct (length (to_save result existingIds) =? 0) eqn:Hlen;
    [left; cbn [fst snd batchId log db]; auto |].
  apply Nat.eqb_neq in Hlen.
  unfold insert_batch, request.
  destruct (outages w1) as [|[e|] later] eqn:Eo; cbn [fst snd].
  - right. exists existingIds, []. cbv zeta.
    split; [intros Hnil; rewrite Hnil in Hlen; simpl in Hlen; lia |].
    match goal with
    | |- context [insert_chunks ?cs ?w2] =>
        pose proof (insert_chunks_spec cs w2) as Hw
    end.
    cbv zeta in Hw.
    cbn [db outages console transaction_batches parsed_transactions id] in Hw.
    destruct Hw as (Hb & Hp & _).
    cbn [id]. rewrite Hb, Hp, Hdb. auto.
  - left. cbn [fst snd batchId log db]. auto.
  - right. exists existingIds, later. cbv zeta.
    split; [intros Hnil; rewrite Hnil in Hlen; simpl in Hlen; lia |].
    match goal with
    | |- context [insert_chunks ?cs ?w2] =>
        pose proof (insert_chunks_spec cs w2) as Hw
    end.
    cbv zeta in Hw.
    cbn [db outages console transaction_batches parsed_transactions id] in Hw.
    destruct Hw as (Hb & Hp & _).
    cbn [id]. rewrite Hb, Hp, Hdb. auto.
Qed.

(** X1.  A save only appends.  Whatever the requests do, the batch rows
    and the transaction rows that were in the store stay where they were,
    in front of what the save adds.  When no batch id is returned nothing
    was added at all; when a batch id is returned exactly one batch row
    with that id was added, and every added transaction row is the row of
    a successful or of a failed record of the parse result under that
    batch id; a row carries the batch id it was made for, and it is
    marked valid exactly when it is the row of a successful record. *)
Theorem save_only_appends (result : ParseResult Tx) (batchName : nullable) w :
  let out := save' result batchName w in
  exists batches rows,
    transaction_batches (db out.2) = transaction_batches (db w) ++ batches
    /\ parsed_transactions (db out.2) = parsed_transactions (db w) ++ rows
    /\ match batchId out.1 with
       | None => batches = [] /\ rows = []
       | Some b =>
           map id batches = [b]
           /\ Forall (fun row =>
                        (exists t, In t (successful result) /\ row = saved_row b t)
                        \/ (exists t, In t (failed result) /\ row = failed_row b t))
                     rows
       end
    /\ (forall (b : string) (t : Ledger.ParsedTransaction),
          batch_id (saved_row b t) = b /\ batch_id (failed_row b t) = b
          /\ is_valid (saved_row b t) = true /\ is_valid (failed_row b t) = false)
    /\ (forall (b : string) (t : QuickBooks.ParsedTransaction),
          batch_id (saved_row b t) = b /\ batch_id (failed_row b t) = b
          /\ is_valid (saved_row b t) = true /\ is_valid (failed_row b t) = false).
Proof.
  cbv zeta.
  destruct (save_outcome result batchName w)
    as [(Hid & Hdb) | (ids & outs & Hsome & Hres & Hb & Hp)].
  - exists [], []. rewrite Hid, Hdb, !app_nil_r. repeat split.
  - eexists _, _. split; [exact Hb |]. split; [exact Hp |].
    split; [| split; intros; repeat split].
    rewrite Hres. cbn [batchId map id]. split; [reflexivity |].
    apply List.Forall_forall. intros row Hrow.
    apply in_concat in Hrow as (chunk & Hchunk & Hrow).
    apply delivered_sub in Hchunk.
    assert (Hin : In row (concat (chunked (write_set
              (new_batch_id (length (transaction_batches (db w))))
              (to_save result ids) result))))
      by (apply in_concat; eauto).
    rewrite chunked_concat in Hin. unfold write_set in Hin.
    apply in_app_or in Hin as [Hin | Hin];
      apply in_map_iff in Hin as (t & <- & Ht).
    + left. exists t. split; [| reflexivity].
      unfold to_save in Ht. apply List.filter_In in Ht. apply Ht.
    + right. eauto.
Qed.

(** X2.  The batch row of a save.  When a batch id is returned, the batch
    row that was added carries the session, the given name (the default
    name when none or an empty one is given), the line count and the fail
    count of the parse result, and as success count the number of records
    that were not skipped: success count and skipped count add up to the
    number of successful records, and the success count is not zero. *)
Theorem batch_row_accounting (result : ParseResult Tx) (batchName : nullable) w
    (b : string) :
  batchId (save' result batchName w).1 = Some b ->
  let out := save' result batchName w in
  exists row,
    transaction_batches (db out.2) = transaction_batches (db w) ++ [row]
    /\ id row = b
    /\ b = new_batch_id (length (transaction_batches (db w)))
    /\ session_id row = sessionId
    /\ batch_name row = nullable_or batchName ("Batch " +:+ localeNow)
    /\ total_lines row = totalLines result
    /\ fail_count row = failCount result
    /\ 0 < success_count row
    /\ success_count row + skippedCount out.1 = length (successful result)
    /\ error out.1 = None.
Proof.
  cbv zeta. intros Hb.
  destruct (save_outcome result batchName w)
    as [(Hid & _) | (ids & outs & Hsome & Hres & Hrows & _)]; [congruence |].
  rewrite Hres in Hb |- *. cbn [batchId] in Hb. injection Hb as <-.
  eexists. split; [exact Hrows |].
  cbn [id session_id batch_name total_lines fail_count success_count
       skippedCount error].
  assert (Hle : length (to_save result ids) <= length (successful result))
    by (unfold to_save; apply List.filter_length_le).
  repeat split.
  - destruct (to_save result ids); [congruence | simpl; lia].
  - lia.
Qed.

(** X3.  The existence check reads and never writes.  Whatever the
    requests do, the store is the same after the check.  When no record
    has a non-empty key, no request is made and the answer is the empty
    set without an error.  An answer with an error has the empty set.  An
    answer without an error holds exactly the non-empty keys of the
    records that some stored row carries in the key column. *)
Theorem check_reads_only (transactions : list Tx) (bankType : BankType) w :
  let out := checkExistingTransactions transactions bankType w in
  db out.2 = db w
  /\ (candidate_keys transactions bankType = [] ->
      out.1 = (∅, None) /\ outages out.2 = outages w)
  /\ (forall msg, out.1.2 = Some msg -> out.1.1 = ∅)
  /\ (out.1.2 = None ->
      forall k, k ∈ out.1.1
                <-> k <> ""
                    /\ (exists t, In t transactions /\ dedup_key bankType t = k)
                    /\ exists row, In row (parsed_transactions (db w))
                                   /\ column (key_column bankType) row = k).
Proof.
  cbv zeta.
  pose proof (checkExistingTransactions_spec transactions bankType w) as Hspec.
  cbv zeta in Hspec. destruct Hspec as (Hdb & Hout).
  split; [exact Hdb |]. split; [| split].
  - intros Hnil. unfold checkExistingTransactions. rewrite Hnil.
    cbn [length Nat.ltb Nat.leb fst snd log outages]. auto.
  - intros msg Hmsg.
    destruct (first_outage _ _).
    + rewrite Hout. reflexivity.
    + destruct Hout as (Hout & _). rewrite Hout in Hmsg. discriminate.
  - intros Hnone k.
    destruct (first_outage _ _).
    + rewrite Hout in Hnone. discriminate.
    + destruct Hout as (Hout & _). rewrite Hout. cbn [fst].
      rewrite known_keys_spec. unfold candidate_keys.
      rewrite List.filter_In, in_map_iff, truthy_true.
      split.
      * intros (((t & <- & Ht) & Hne) & Hrow). eauto.
      * intros (Hne & (t & Ht & <-) & Hrow). eauto.
Qed.

(** X4.  Duplicates are looked for in the store only.  When no request
    fails and no stored row carries the key of a successful record, every
    successful record is written, in order and before the failed ones,
    also when several records of the batch share one key. *)
Theorem unknown_keys_are_all_written (result : ParseResult Tx)
    (batchName : nullable) w :
  outages w = [] ->
  successful result <> [] ->
  (forall t row, In t (successful result) ->
                 In row (parsed_transactions (db w)) ->
                 column (key_column (bankType result)) row
                 <> dedup_key (bankType result) t) ->
  let out := save' result batchName w in
  let b := new_batch_id (length (transaction_batches (db w))) in
  out.1 = {| batchId := Some b; error := None; skippedCount := 0 |}
  /\ parsed_transactions (db out.2)
     = parsed_transactions (db w)
       ++ map (saved_row b) (successful result)
       ++ map (failed_row b) (failed result).
Proof.
  intros Ho Hsome Hnew. cbv zeta.
  assert (Hall : survivors result (db w) = successful result).
  { unfold survivors, to_save. apply filter_everything. intros t Ht.
    apply negb_true_iff. unfold has. apply bool_decide_eq_false.
    rewrite known_keys_spec. intros (_ & row & Hrow & Hcol).
    exact (Hnew t row Ht Hrow Hcol). }
  destruct (write_stage_rows number_zero number_add amount_value new_batch_id
              sessionId localeNow result batchName w) as (Hres & Hrows).
  - rewrite Ho. apply first_outage_nil.
  - rewrite Hall. exact Hsome.
  - rewrite Ho, drop_nil. reflexivity.
  - rewrite Hall in Hres, Hrows. split.
    + rewrite Hres. f_equal. lia.
    + rewrite Hrows, Ho, drop_nil.
      rewrite delivered_all by apply first_outage_nil.
      rewrite chunked_concat. reflexivity.
Qed.

End StoreExtras.

Lemma batch_row_accounting_witness :
  let out := Demo.save Demo.mixed_batch (Some "") (Demo.world [] []) in
  exists row,
    Store.transaction_batches (Store.db out.2) = [row]
    /\ Store.batch_name row = "Batch 1/20/2026, 1:59:00 PM"
    /\ Store.total_lines row = 2
    /\ Store.success_count row = 1
    /\ Store.fail_count row = 1.
Proof.
  destruct (batch_row_accounting 0%N N.add Demo.whole_units Demo.batch_id
              "session_1768917540_k3x9" "1/20/2026, 1:59:00 PM"
              Demo.mixed_batch (Some "") (Demo.world [] []) "batch-0")
    as (row & Hrows & _ & _ & _ & Hname & Hlines & Hfail & _ & Hsum & _).
  - vm_compute. reflexivity.
  - cbv zeta. unfold Demo.save. exists row.
    split; [exact Hrows |]. split; [exact Hname |].
    split; [rewrite Hlines; vm_compute; reflexivity |].
    split; [| rewrite Hfail; vm_compute; reflexivity].
    match type of Hsum with
    | _ + ?a = ?n =>
        assert (Ha : a = 0) by (vm_compute; reflexivity);
        assert (Hn : n = 1) by (vm_compute; reflexivity);
        rewrite Ha, Hn in Hsum
    end.
    lia.
Defined.

Lemma unknown_keys_are_all_written_witness :
  let out := Demo.save Samples.doubled_batch None (Demo.world [] []) in
  out.1 = {| Store.batchId := Some "batch-0"; Store.error := None;
             Store.skippedCount := 0 |}
  /\ map Store.user_id (Store.parsed_transactions (Store.db out.2))
     = ["22410063786"; "22410063786"].
Proof.
  destruct (unknown_keys_are_all_written 0%N N.add Demo.whole_units Demo.batch_id
              "session_1768917540_k3x9" "1/20/2026, 1:59:00 PM"
              Samples.doubled_batch None (Demo.world [] []))
    as (Hres & Hrows).
  - reflexivity.
  - vm_compute. discriminate.
  - intros t row _ [].
  - cbv zeta. unfold Demo.save. split; [exact Hres |].
    rewrite Hrows. vm_compute. reflexivity.
Defined.

(* ===================================================================== *)
(** * Global replacements *)
(* ===================================================================== *)

Lemma after_matches_cons (f : Found) (fs : list Found) (whole : list ascii) :
  after_matches (f :: fs) whole = after_matches fs (ms_rest (f_end f)).
Proof. unfold after_matches. rewrite last_cons. destruct (last fs); reflexivity. Qed.

Lemma search_class_hit (p : ascii -> bool) (before : list ascii)
    (prev : option ascii) (a : ascii) (l : list ascii) :
  p a = true ->
  search (Class p) before prev (a :: l)
  = Some (mkFound (rev before) [a] [] (mkState (Some a) l [])).
Proof.
  intros Hp. cbn [search rmatch ms_rest ms_caps]. rewrite Hp.
  unfold consumed. cbn [ms_rest length].
  replace (S (length l) - length l) with 1 by lia. reflexivity.
Qed.

Lemma search_class_skip (p : ascii -> bool) (before : list ascii)
    (prev : option ascii) (a : ascii) (l : list ascii) :
  p a = false ->
  search (Class p) before prev (a :: l) = search (Class p) (a :: before) (Some a) l.
Proof. intros Hp. cbn [search rmatch ms_rest]. rewrite Hp. reflexivity. Qed.

(** Replacing the matches of a one-character class. *)
Lemma all_matches_class (p : ascii -> bool) (by_ : list ascii) (l : list ascii) :
  forall fuel before prev,
    length l < fuel ->
    let fs := all_matches (Class p) fuel before prev l in
    concat (map (fun f => f_before f ++ by_) fs)
    ++ after_matches fs (rev before ++ l)
    = rev before ++ substitute p by_ l.
Proof.
  induction l as [|a l IH]; intros fuel before prev Hfuel; cbv zeta.
  - destruct fuel as [|fuel]; [simpl in Hfuel; lia | reflexivity].
  - destruct fuel as [|fuel]; [simpl in Hfuel; lia |].
    simpl in Hfuel. cbn [all_matches]. destruct (p a) eqn:Hp.
    + rewrite (search_class_hit p before prev a l Hp).
      cbn [f_match f_end ms_rest ms_prev].
      cbn [map concat f_before]. rewrite after_matches_cons.
      cbn [f_end ms_rest]. rewrite <- !app_assoc.
      specialize (IH fuel [] (Some a) ltac:(lia)). cbv zeta in IH.
      cbn [rev app] in IH. rewrite IH.
      unfold substitute. cbn [flat_map]. rewrite Hp. reflexivity.
    + rewrite (search_class_skip p before prev a l Hp).
      specialize (IH (S fuel) (a :: before) (Some a) ltac:(lia)).
      cbv zeta in IH. cbn [all_matches] in IH.
      replace (rev before ++ a :: l) with (rev (a :: before) ++ l)
        by (cbn [rev]; rewrite <- app_assoc; reflexivity).
      rewrite IH. unfold substitute. cbn [flat_map rev]. rewrite Hp.
      rewrite <- app_assoc. reflexivity.
Qed.

Lemma replace_class (p : ascii -> bool) (by_ s : string) :
  regex_replaceAll (Class p) by_ s = text (substitute p (chars by_) (chars s)).
Proof.
  unfold regex_replaceAll, scan. f_equal.
  apply (all_matches_class p (chars by_) (chars s) (S (String.length s)) [] None).
  rewrite length_chars. lia.
Qed.

Lemma run_split (p : ascii -> bool) (l : list ascii) :
  l = run_of p l ++ after_run p l.
Proof.
  induction l as [|a l IH]; [reflexivity |].
  cbn [run_of after_run]. destruct (p a); [| reflexivity].
  cbn [app]. f_equal. exact IH.
Qed.

Lemma after_run_length (p : ascii -> bool) (l : list ascii) :
  length (after_run p l) <= length l.
Proof.
  rewrite (run_split p l) at 2. rewrite length_app. lia.
Qed.

Lemma squeeze_in_run (p : ascii -> bool) (by_ l : list ascii) :
  squeeze_from p by_ true l = squeeze_from p by_ false (after_run p l).
Proof.
  induction l as [|a l IH]; [reflexivity |].
  cbn [squeeze_from after_run]. destruct (p a) eqn:Hp.
  - exact IH.
  - cbn [squeeze_from]. rewrite Hp. reflexivity.
Qed.

Lemma rmatch_class_cons (p : ascii -> bool) (prev : option ascii) (a : ascii)
    (l : list ascii) (caps : list (nat * list ascii)) (c : Continuation) :
  rmatch (Class p) (mkState prev (a :: l) caps) c
  = if p a then c (mkState (Some a) l caps) else None.
Proof. reflexivity. Qed.

Lemma rmatch_class_nil (p : ascii -> bool) (prev : option ascii)
    (caps : list (nat * list ascii)) (c : Continuation) :
  rmatch (Class p) (mkState prev [] caps) c = None.
Proof. reflexivity. Qed.

(** The greedy repetition of a class reads the longest run. *)
Lemma repeat_class (p : ascii -> bool) (l : list ascii) :
  forall fuel mn prev,
    length l < fuel -> mn <= 1 ->
    repeat_matcher (rmatch (Class p)) [] true fuel mn None (mkState prev l [])
                   (fun y => Some y)
    = if (mn =? 1) && (match run_of p l with [] => true | _ :: _ => false end)
      then None
      else Some (mkState (last_char prev (run_of p l)) (after_run p l) []).
Proof.
  induction l as [|a l IH]; intros fuel mn prev Hfuel Hmn;
    (destruct fuel as [|fuel]; [simpl in Hfuel; lia |]).
  - cbn [repeat_matcher run_of after_run].
    change (clear_caps [] (mkState prev [] [])) with (mkState prev [] []).
    rewrite rmatch_class_nil.
    destruct mn as [|[|mn]]; [reflexivity | reflexivity | lia].
  - cbn [length] in Hfuel.
    cbn [repeat_matcher run_of after_run pred_max].
    change (clear_caps [] (mkState prev (a :: l) [])) with (mkState prev (a :: l) []).
    rewrite rmatch_class_cons.
    destruct (p a) eqn:Hp.
    + assert (Hlen : (length l =? S (length l)) = false)
        by (apply Nat.eqb_neq; lia).
      cbn [ms_rest length]. rewrite Hlen, andb_false_r.
      rewrite (IH fuel (pred mn) (Some a)) by lia.
      replace (pred mn =? 1) with false by (symmetry; apply Nat.eqb_neq; lia).
      rewrite last_char_cons, andb_false_r. cbn [andb].
      destruct (negb (mn =? 0)); reflexivity.
    + destruct mn as [|[|mn]]; [reflexivity | reflexivity | lia].
Qed.

Lemma search_plus_hit (p : ascii -> bool) (before : list ascii)
    (prev : option ascii) (a : ascii) (l : list ascii) :
  p a = true ->
  search (plus (Class p)) before prev (a :: l)
  = Some (mkFound (rev before) (a :: run_of p l) []
                  (mkState (last_char (Some a) (run_of p l)) (after_run p l) [])).
Proof.
  intros Hp. cbn [search]. unfold plus at 1. cbn [rmatch groups_of ms_rest].
  rewrite (repeat_class p (a :: l)) by (simpl; lia).
  cbn [run_of after_run]. rewrite Hp. cbn [Nat.eqb andb].
  rewrite last_char_cons.
  rewrite (consumed_app _ _ (a :: run_of p l)); [reflexivity |].
  cbn [ms_rest app]. f_equal. apply run_split.
Qed.

Lemma search_plus_skip (p : ascii -> bool) (before : list ascii)
    (prev : option ascii) (a : ascii) (l : list ascii) :
  p a = false ->
  search (plus (Class p)) before prev (a :: l)
  = search (plus (Class p)) (a :: before) (Some a) l.
Proof.
  intros Hp. cbn [search]. unfold plus at 1. cbn [rmatch groups_of ms_rest].
  rewrite (repeat_class p (a :: l)) by (simpl; lia).
  cbn [run_of]. rewrite Hp. reflexivity.
Qed.

Lemma search_plus_nil (p : ascii -> bool) (before : list ascii) (prev : option ascii) :
  search (plus (Class p)) before prev [] = None.
Proof. reflexivity. Qed.

(** Replacing the matches of [c+]. *)
Lemma all_matches_plus (p : ascii -> bool) (by_ : list ascii) (n : nat) :
  forall l fuel before prev,
    length l <= n -> length l < fuel ->
    let fs := all_matches (plus (Class p)) fuel before prev l in
    concat (map (fun f => f_before f ++ by_) fs)
    ++ after_matches fs (rev before ++ l)
    = rev before ++ squeeze p by_ l.
Proof.
  induction n as [|n IH]; intros l fuel before prev Hn Hfuel; cbv zeta.
  - destruct l; [| simpl in Hn; lia].
    destruct fuel as [|fuel]; [simpl in Hfuel; lia | reflexivity].
  - destruct l as [|a l].
    { destruct fuel as [|fuel]; [simpl in Hfuel; lia | reflexivity]. }
    destruct fuel as [|fuel]; [simpl in Hfuel; lia |].
    simpl in Hn, Hfuel. cbn [all_matches]. destruct (p a) eqn:Hp.
    + rewrite (search_plus_hit p before prev a l Hp).
      cbn [f_match f_end ms_rest ms_prev map concat f_before].
      rewrite after_matches_cons. cbn [f_end ms_rest]. rewrite <- !app_assoc.
      pose proof (after_run_length p l) as Hshort.
      specialize (IH (after_run p l) fuel []
                     (last_char (Some a) (run_of p l)) ltac:(lia) ltac:(lia)).
      cbv zeta in IH. cbn [rev app] in IH. rewrite IH.
      unfold squeeze. cbn [squeeze_from]. rewrite Hp, squeeze_in_run. reflexivity.
    + rewrite (search_plus_skip p before prev a l Hp).
      specialize (IH l (S fuel) (a :: before) (Some a) ltac:(lia) ltac:(lia)).
      cbv zeta in IH. cbn [all_matches] in IH.
      replace (rev before ++ a :: l) with (rev (a :: before) ++ l)
        by (cbn [rev]; rewrite <- app_assoc; reflexivity).
      rewrite IH. unfold squeeze. cbn [squeeze_from rev]. rewrite Hp.
      rewrite <- app_assoc. reflexivity.
Qed.

Lemma replace_plus_class (p : ascii -> bool) (by_ s : string) :
  regex_replaceAll (plus (Class p)) by_ s = text (squeeze p (chars by_) (chars s)).
Proof.
  unfold regex_replaceAll, scan. f_equal.
  apply (all_matches_plus p (chars by_) (String.length s) (chars s)
           (S (String.length s)) [] None); rewrite length_chars; lia.
Qed.


(* ===================================================================== *)
(** * What the first group of a match holds *)
(* ===================================================================== *)

Lemma regex_match_captured (r : regex) (s : string) (m : MatchArray) :
  always_captures 1 r = true ->
  regex_match r s = Some m ->
  exists f v, search r [] None (chars s) = Some f
              /\ get_cap 1 (f_caps f) = Some v
              /\ at_index m 1 = text v.
Proof.
  intros Hall H. unfold regex_match in H.
  destruct (search r [] None (chars s)) as [f|] eqn:Hs; [| discriminate].
  injection H as <-.
  pose proof (search_captures r 1 Hall _ _ _ _ Hs) as Hc.
  destruct (get_cap 1 (f_caps f)) as [v|] eqn:Hv; [| congruence].
  exists f, v. split; [reflexivity |]. split; [exact Hv |].
  apply (match_array_at r 1 f v Hall); [lia | exact Hv].
Qed.

(** A group at the end of an expression holds a text of its body. *)
Lemma group_alone (body : regex) (x z : MatchState) :
  rmatch (Group 1 body) x (fun y => Some y) = Some z ->
  exists v prev next, get_cap 1 (ms_caps z) = Some v /\ denotes body prev v next.
Proof.
  intros H. pose proof (group_capture 1 body x z H) as Hc.
  apply rmatch_sound in H as (y & s & Hy & Hrest & _ & Hd).
  injection Hy as ->. cbn [denotes] in Hd.
  exists (consumed x z), (ms_prev x), (ms_rest z). split; [exact Hc |].
  rewrite (consumed_app x z s Hrest). exact Hd.
Qed.

(** So does a group followed by an expression without that group. *)
Lemma group_with_suffix (body after : regex) (x z : MatchState) :
  ~ In 1 (groups_of after) ->
  rmatch (Cat (Group 1 body) after) x (fun y => Some y) = Some z ->
  exists v prev next, get_cap 1 (ms_caps z) = Some v /\ denotes body prev v next.
Proof.
  intros Hout H. cbn [rmatch] in H.
  apply rmatch_sound in H as (y & s & Hk & Hrest & _ & Hd).
  apply rmatch_captures in Hk as (z' & Hz & Hkept & _).
  injection Hz as ->.
  exists s, (ms_prev x), (ms_rest y). split; [| exact Hd].
  rewrite (Hkept 1 Hout), get_cap_set, Nat.eqb_refl.
  rewrite (consumed_app x y s Hrest). reflexivity.
Qed.

Lemma skip_prefix (before rest : regex) (x : MatchState) (c : Continuation)
    (z : MatchState) :
  rmatch (Cat before rest) x c = Some z -> exists y, rmatch rest y c = Some z.
Proof.
  cbn [rmatch]. intros H. apply rmatch_captures in H as (y & H & _). eauto.
Qed.

(** The text at index 1 of a match array, for an expression whose first
    group always holds a text of [body]. *)
Lemma first_group_text (r body : regex) (s : string) (m : MatchArray) :
  always_captures 1 r = true ->
  (forall x z, rmatch r x (fun y => Some y) = Some z ->
     exists v prev next, get_cap 1 (ms_caps z) = Some v /\ denotes body prev v next) ->
  regex_match r s = Some m ->
  exists v prev next, at_index m 1 = text v /\ denotes body prev v next.
Proof.
  intros Hall Hbody H.
  apply (regex_match_captured r s m Hall) in H as (f & v & Hs & Hv & Hm).
  apply search_sound in Hs as (skipped & _ & _ & _ & _ & Hcaps & Hr).
  apply Hbody in Hr as (v' & prev & next & Hv' & Hd).
  rewrite Hcaps in Hv. rewrite Hv in Hv'. injection Hv' as <-.
  exists v, prev, next. auto.
Qed.

Lemma denotes_times_class (lo hi : nat) (p : ascii -> bool) (prev : option ascii)
    (s next : list ascii) :
  lo <= hi ->
  denotes (times lo hi (Class p)) prev s next ->
  lo <= length s <= hi /\ all_in p s.
Proof.
  intros Hle H. cbn [times denotes] in H. destruct H as (n & H).
  pose proof (reps_count _ _ _ _ _ _ _ H) as (Hhi & Hlo).
  apply reps_class in H as (Hlen & Hall).
  specialize (Hhi hi eq_refl).
  assert (lo <= n) by (apply Hlo; intros k Hk; injection Hk as <-; exact Hle).
  split; [lia | exact Hall].
Qed.

Lemma denotes_plus_class (p : ascii -> bool) (prev : option ascii)
    (s next : list ascii) :
  denotes (plus (Class p)) prev s next -> s <> [] /\ all_in p s.
Proof.
  intros H. cbn [plus denotes] in H. destruct H as (n & H).
  pose proof (reps_count _ _ _ _ _ _ _ H) as (_ & Hlo).
  apply reps_class in H as (Hlen & Hall).
  assert (1 <= n) by (apply Hlo; discriminate).
  split; [| exact Hall]. destruct s; [simpl in Hlen; lia | discriminate].
Qed.

Lemma denotes_char (c : ascii) (prev : option ascii) (s next : list ascii) :
  denotes (Class (is_char c)) prev s next -> s = [c].
Proof.
  cbn [denotes]. intros (a & -> & Ha). apply is_char_eq in Ha as ->. reflexivity.
Qed.

(* ===================================================================== *)
(** * The fields of the extracted records *)
(* ===================================================================== *)

(** Reads the value out of a step that has completed normally. *)
Ltac value_of H :=
  cbn [mret completion_ret mbind completion_bind ecma rt_match rt_matchAll
       rt_replace] in H;
  injection H as <-.

(** The fields of an NMB record in terms of the matches on its line. *)
Lemma ledger_nmb_fields (l : string) (r : Ledger.ParsedTransaction) :
  Ledger.nmb_rules ecma l = Normal r ->
  Ledger.transactionDate r
  = match regex_match Pattern.nmbDate l with
    | Some m => trim (regex_replaceAll Pattern.spaces " " (at_index m 1))
    | None => ""
    end
  /\ Ledger.refId r = group1 (regex_match Pattern.description l)
  /\ Ledger.amount r
     = (let amount0 := group1 (regex_match Pattern.amount l) in
        if truthy amount0 then amount0
        else let amount1 := group1 (regex_match Pattern.altAmount l) in
             if truthy amount1 then amount1
             else match regex_match Pattern.deposit l with
                  | Some m => at_index m 1
                  | None => amount1
                  end)
  /\ Ledger.userId r
     = (let userId0 := group1 (regex_match Pattern.userId l) in
        let userName := match regex_match Pattern.userName l with
                        | Some m => trim (at_index m 1)
                        | None => ""
                        end in
        if negb (truthy userId0) && truthy userName then userName else userId0).
Proof.
  unfold Ledger.nmb_rules. intros H. returned H.
  cbn [Ledger.transactionDate Ledger.refId Ledger.amount Ledger.userId].
  value_of Ha. value_of Ha1. value_of Ha2. value_of Ha3. value_of Ha4.
  split; [| split; [reflexivity | split; [| reflexivity]]].
  - destruct (regex_match Pattern.nmbDate l); value_of Ha0; reflexivity.
  - cbv zeta.
    destruct (truthy (group1 (regex_match Pattern.amount l))) eqn:H0;
      cbn [negb] in Ha5.
    + value_of Ha5. rewrite H0 in Ha6. cbn [negb] in Ha6. value_of Ha6.
      reflexivity.
    + value_of Ha5.
      destruct (truthy (group1 (regex_match Pattern.altAmount l))) eqn:H1;
        cbn [negb] in Ha6.
      * value_of Ha6. reflexivity.
      * value_of Ha6. reflexivity.
Qed.

Lemma quickbooks_nmb_fields (l : string) (r : QuickBooks.ParsedTransaction) :
  QuickBooks.nmb_rules ecma l = Normal r ->
  QuickBooks.paymentDate r
  = match regex_match Pattern.nmbDate l with
    | Some m => trim (regex_replaceAll Pattern.spaces " " (at_index m 1))
    | None => ""
    end
  /\ QuickBooks.invoiceNo r = group1 (regex_match Pattern.description l)
  /\ QuickBooks.amount r
     = (let amount0 := group1 (regex_match Pattern.amount l) in
        if truthy amount0 then amount0
        else let amount1 := group1 (regex_match Pattern.altAmount l) in
             if truthy amount1 then amount1
             else match regex_match Pattern.deposit l with
                  | Some m => at_index m 1
                  | None => amount1
                  end).
Proof.
  unfold QuickBooks.nmb_rules. intros H. returned H.
  cbn [QuickBooks.paymentDate QuickBooks.invoiceNo QuickBooks.amount].
  value_of Ha. value_of Ha1. value_of Ha2. value_of Ha3. value_of Ha4.
  split; [| split; [reflexivity |]].
  - destruct (regex_match Pattern.nmbDate l); value_of Ha0; reflexivity.
  - cbv zeta.
    destruct (truthy (group1 (regex_match Pattern.amount l))) eqn:H0;
      cbn [negb] in Ha5.
    + value_of Ha5. rewrite H0 in Ha6. cbn [negb] in Ha6. value_of Ha6.
      reflexivity.
    + value_of Ha5.
      destruct (truthy (group1 (regex_match Pattern.altAmount l))) eqn:H1;
        cbn [negb] in Ha6.
      * value_of Ha6. reflexivity.
      * value_of Ha6. reflexivity.
Qed.

(** Facts about single code units, checked on each of the 256. *)
Ltac on_every_code_unit a :=
  destruct a as [[] [] [] [] [] [] [] []]; vm_compute; intuition congruence.

Lemma digit_no_space (a : ascii) : is_digit a = true -> is_space a = false.
Proof. on_every_code_unit a. Qed.

Lemma letter_no_space (a : ascii) : is_letter a = true -> is_space a = false.
Proof. on_every_code_unit a. Qed.

Lemma digit_no_point (a : ascii) : is_digit a = true -> is_char "."%char a = false.
Proof. on_every_code_unit a. Qed.

Lemma squeeze_plain (p : ascii -> bool) (by_ : list ascii) (b : bool)
    (s rest : list ascii) :
  Forall (fun a => p a = false) s -> s <> [] ->
  squeeze_from p by_ b (s ++ rest) = s ++ squeeze_from p by_ false rest.
Proof.
  intros Hall. revert b. induction Hall as [|a s Ha Hs IH]; intros b Hne;
    [congruence |].
  cbn [app squeeze_from]. rewrite Ha. f_equal.
  destruct s as [|a' s']; [reflexivity |]. apply IH. discriminate.
Qed.

Lemma squeeze_run (p : ascii -> bool) (by_ : list ascii) (s rest : list ascii) :
  all_in p s ->
  squeeze_from p by_ true (s ++ rest) = squeeze_from p by_ true rest.
Proof.
  intros Hall. induction Hall as [|a s Ha Hs IH]; [reflexivity |].
  cbn [app squeeze_from]. rewrite Ha. exact IH.
Qed.

Lemma squeeze_first_run (p : ascii -> bool) (by_ : list ascii) (s rest : list ascii) :
  all_in p s -> s <> [] ->
  squeeze_from p by_ false (s ++ rest) = by_ ++ squeeze_from p by_ true rest.
Proof.
  intros Hall Hne. destruct Hall as [|a s Ha Hs]; [congruence |].
  cbn [app squeeze_from]. rewrite Ha. f_equal. apply squeeze_run. exact Hs.
Qed.

Lemma all_in_impl (p q : ascii -> bool) (l : list ascii) :
  (forall a, p a = true -> q a = false) -> all_in p l ->
  Forall (fun a => q a = false) l.
Proof. intros Hpq Hall. eapply Forall_impl; [exact Hall | exact Hpq]. Qed.

(** Trimming a text that neither starts nor ends with white space. *)
Lemma trim_chars_fixed (l : list ascii) (a b : ascii) (middle : list ascii) :
  l = a :: middle ++ [b] -> is_space a = false -> is_space b = false ->
  trim_chars l = l.
Proof.
  intros -> Ha Hb. unfold trim_chars. cbn [drop_spaces]. rewrite Ha.
  rewrite app_comm_cons, List.rev_unit. cbn [drop_spaces]. rewrite Hb.
  rewrite <- List.rev_unit, List.rev_involutive. reflexivity.
Qed.

(** The date text of the NMB extractor. *)
Lemma nmb_date_shape (l : string) (m : MatchArray) :
  regex_match Pattern.nmbDate l = Some m ->
  nmb_date_text (trim (regex_replaceAll Pattern.spaces " " (at_index m 1))).
Proof.
  intros H.
  apply (first_group_text Pattern.nmbDate _ l m eq_refl (group_alone _)) in H
    as (v & prev & next & -> & Hd).
  cbn [cat_all denotes] in Hd.
  destruct Hd as (day & r1 & -> & Hday & gap1 & r2 & -> & Hgap1
                  & month & r3 & -> & Hmonth & gap2 & year & -> & Hgap2 & Hyear).
  apply denotes_times_class in Hday as (Hdl & Hdd); [| lia].
  apply denotes_plus_class in Hgap1 as (Hg1 & Hs1).
  apply denotes_times_class in Hmonth as (Hml & Hmm); [| lia].
  apply denotes_plus_class in Hgap2 as (Hg2 & Hs2).
  apply denotes_times_class in Hyear as (Hyl & Hyy); [| lia].
  unfold Pattern.spaces, space. rewrite replace_plus_class, chars_text.
  unfold squeeze.
  rewrite (squeeze_plain is_space _ false day)
    by (first [apply (all_in_impl is_digit); [apply digit_no_space | exact Hdd]
              | destruct day; [simpl in Hdl; lia | discriminate]]).
  rewrite (squeeze_first_run is_space _ gap1) by assumption.
  rewrite (squeeze_plain is_space _ true month)
    by (first [apply (all_in_impl is_letter); [apply letter_no_space | exact Hmm]
              | destruct month; [simpl in Hml; lia | discriminate]]).
  rewrite (squeeze_first_run is_space _ gap2) by assumption.
  rewrite <- (app_nil_r year) at 1.
  rewrite (squeeze_plain is_space _ true year)
    by (first [apply (all_in_impl is_digit); [apply digit_no_space | exact Hyy]
              | destruct year; [simpl in Hyl; lia | discriminate]]).
  cbn [squeeze_from chars list_ascii_of_string app]. rewrite app_nil_r.
  exists day, month, year.
  split; [| repeat split; solve [lia | assumption]].
  unfold trim. rewrite chars_text. f_equal.
  destruct day as [|d day']; [simpl in Hdl; lia |].
  destruct (rev year) as [|y ry] eqn:Hry.
  { apply (f_equal (@length ascii)) in Hry. rewrite length_rev in Hry.
    simpl in Hry. lia. }
  apply (f_equal (@rev ascii)) in Hry. rewrite rev_involutive in Hry.
  cbn [rev] in Hry. subst year.
  apply (trim_chars_fixed _ d y (day' ++ " "%char :: month ++ " "%char :: rev ry)).
  - cbn [app]. rewrite <- !app_assoc. cbn [app]. rewrite <- !app_assoc. reflexivity.
  - inversion Hdd; subst. apply digit_no_space. assumption.
  - apply Forall_app in Hyy as (_ & Hy). inversion Hy; subst.
    apply digit_no_space. assumption.
Qed.

(** With the matcher of the language, the extractors return the record of
    their rules on a line that is not blank, and the empty record on a
    blank one. *)
Lemma ledger_nmb_line (line : string) :
  (truthy (trim line) = true
   /\ Ledger.nmb_rules ecma (trim line)
      = Normal (Ledger.parseTransactionLine ecma line))
  \/ (truthy (trim line) = false
      /\ Ledger.parseTransactionLine ecma line
         = Ledger.blank line (Some "Empty line") None).
Proof.
  unfold Ledger.parseTransactionLine.
  destruct (truthy (trim line)); cbn [negb]; [left | right; auto].
  destruct (ledger_nmb_rules_normal (trim line)) as [r Hr]. rewrite Hr. auto.
Qed.

Lemma ledger_crdb_line (line : string) :
  (truthy (trim line) = true
   /\ Ledger.crdb_rules ecma (trim line)
      = Normal (Ledger.parseCRDBTransactionLine ecma line))
  \/ (truthy (trim line) = false
      /\ Ledger.parseCRDBTransactionLine ecma line
         = Ledger.createEmptyTransaction line (Some "Empty line")).
Proof.
  unfold Ledger.parseCRDBTransactionLine.
  destruct (truthy (trim line)); cbn [negb]; [left | right; auto].
  destruct (ledger_crdb_rules_normal (trim line)) as [r Hr]. rewrite Hr. auto.
Qed.

Lemma quickbooks_nmb_line (line : string) :
  (truthy (trim line) = true
   /\ QuickBooks.nmb_rules ecma (trim line)
      = Normal (QuickBooks.parseTransactionLine ecma line))
  \/ (truthy (trim line) = false
      /\ QuickBooks.parseTransactionLine ecma line
         = QuickBooks.createEmptyTransaction line (Some "Empty line")).
Proof.
  unfold QuickBooks.parseTransactionLine.
  destruct (truthy (trim line)); cbn [negb]; [left | right; auto].
  destruct (quickbooks_nmb_rules_normal (trim line)) as [r Hr]. rewrite Hr. auto.
Qed.

Lemma quickbooks_crdb_line (line : string) :
  (truthy (trim line) = true
   /\ QuickBooks.crdb_rules ecma (trim line)
      = Normal (QuickBooks.parseCRDBTransactionLine ecma line))
  \/ (truthy (trim line) = false
      /\ QuickBooks.parseCRDBTransactionLine ecma line
         = QuickBooks.createEmptyTransaction line (Some "Empty line")).
Proof.
  unfold QuickBooks.parseCRDBTransactionLine.
  destruct (truthy (trim line)); cbn [negb]; [left | right; auto].
  destruct (quickbooks_crdb_rules_normal (trim line)) as [r Hr]. rewrite Hr. auto.
Qed.

(** X5.  The date of an NMB record is empty or normalised: one or two
    digits, one space, three letters, one space, four digits, whatever
    white space the line has between them; and the two revisions of the
    extractor return the same date. *)
Theorem nmb_date_is_normalised (line : string) :
  let date := Ledger.transactionDate (Ledger.parseTransactionLine ecma line) in
  (date = "" \/ nmb_date_text date)
  /\ QuickBooks.paymentDate (QuickBooks.parseTransactionLine ecma line) = date.
Proof.
  cbv zeta.
  destruct (ledger_nmb_line line) as [(Ht & Hr) | (Ht & ->)];
    destruct (quickbooks_nmb_line line) as [(Ht' & Hq) | (Ht' & ->)];
    try congruence; [| cbn; auto].
  apply ledger_nmb_fields in Hr as (-> & _).
  apply quickbooks_nmb_fields in Hq as (-> & _).
  split; [| reflexivity].
  destruct (regex_match Pattern.nmbDate (trim line)) as [m|] eqn:Hm; [| auto].
  right. apply (nmb_date_shape (trim line)). exact Hm.
Qed.

(** The fields of a CRDB record in terms of the matches on its line. *)
Lemma ledger_crdb_fields (l : string) (r : Ledger.ParsedTransaction) :
  Ledger.crdb_rules ecma l = Normal r ->
  Ledger.transactionDate r
  = match regex_match Pattern.crdbDate l with
    | Some m => regex_replaceAll Pattern.dot "-" (at_index m 1)
    | None => ""
    end
  /\ Ledger.accountNumber r = group1 (regex_match Pattern.account l)
  /\ Ledger.userId r = Ledger.accountNumber r
  /\ Ledger.refId r = group1 (regex_match Pattern.ref l)
  /\ Ledger.transactionReferenceNumber r = Ledger.refId r
  /\ Ledger.clientName r
     = match regex_match Pattern.name l with
       | Some m => trim (at_index m 1)
       | None => ""
       end
  /\ Ledger.comment r = l /\ Ledger.rawLine r = l.
Proof.
  unfold Ledger.crdb_rules. intros H. returned H.
  cbn [Ledger.transactionDate Ledger.accountNumber Ledger.userId Ledger.refId
       Ledger.transactionReferenceNumber Ledger.clientName Ledger.comment
       Ledger.rawLine].
  value_of Ha. value_of Ha1. value_of Ha2. value_of Ha3. value_of Ha4.
  repeat split.
  destruct (regex_match Pattern.crdbDate l); value_of Ha0; reflexivity.
Qed.

Lemma quickbooks_crdb_fields (l : string) (r : QuickBooks.ParsedTransaction) :
  QuickBooks.crdb_rules ecma l = Normal r ->
  QuickBooks.paymentDate r
  = match regex_match Pattern.crdbDate l with
    | Some m => regex_replaceAll Pattern.dot "/" (at_index m 1)
    | None => ""
    end
  /\ QuickBooks.invoiceNo r = group1 (regex_match Pattern.ref l)
  /\ QuickBooks.referenceMemo r
     = or_else (group1 (regex_match Pattern.account l)) (QuickBooks.invoiceNo r)
  /\ QuickBooks.customer r
     = match regex_match Pattern.name l with
       | Some m => trim (at_index m 1)
       | None => ""
       end.
Proof.
  unfold QuickBooks.crdb_rules. intros H. returned H.
  cbn [QuickBooks.paymentDate QuickBooks.invoiceNo QuickBooks.referenceMemo
       QuickBooks.customer].
  value_of Ha. value_of Ha1. value_of Ha2. value_of Ha3. value_of Ha4.
  repeat split.
  destruct (regex_match Pattern.crdbDate l); value_of Ha0; reflexivity.
Qed.

(** The match of an expression that is one group: the text at index 1 is
    the matched text, it lies in the line, and the expression matches
    nowhere before it. *)
Lemma whole_group_match (body : regex) (l : string) (m : MatchArray) :
  always_captures 1 (Group 1 body) = true ->
  regex_match (Group 1 body) l = Some m ->
  exists pre rest,
    chars l = pre ++ chars (at_index m 1) ++ rest
    /\ denotes body (last_char None pre) (chars (at_index m 1)) rest
    /\ forall pre' post,
         chars l = pre' ++ post -> length pre' < length pre ->
         ~ matches_here (Group 1 body) (last_char None pre') post.
Proof.
  intros Hall H.
  apply (regex_match_captured _ l m Hall) in H as (f & v & Hs & Hv & ->).
  pose proof (search_leftmost _ _ _ _ _ Hs) as Hleft.
  apply search_sound in Hs as (skipped & Hl & Hb & Hd & _ & Hcaps & Hr).
  pose proof (group_capture 1 body _ _ Hr) as Hc.
  rewrite (consumed_app (mkState (last_char None skipped)
                                 (f_match f ++ ms_rest (f_end f)) [])
                        (f_end f) (f_match f) eq_refl) in Hc.
  rewrite Hcaps, Hc in Hv. injection Hv as <-.
  exists skipped, (ms_rest (f_end f)). rewrite chars_text.
  split; [exact Hl |]. split; [exact Hd |].
  intros pre' post Hsplit Hlt. apply (Hleft pre' post Hsplit).
  rewrite Hb. cbn [rev app length]. lia.
Qed.

(** The texts of the date pattern of the CRDB extractor are the dotted
    dates. *)
Lemma crdb_date_texts (prev : option ascii) (v next : list ascii) :
  denotes Pattern.crdbDate prev v next <-> dotted_date v.
Proof.
  split.
  - intros Hd.
    cbn [Pattern.crdbDate cat_all lit chars list_ascii_of_string map denotes] in Hd.
    destruct Hd as (day & r1 & -> & Hday & p1 & r2 & -> & Hp1
                    & month & r3 & -> & Hmonth & p2 & year & -> & Hp2 & Hyear).
    apply denotes_times_class in Hday as (Hdl & Hdd); [| lia].
    apply denotes_times_class in Hmonth as (Hml & Hmm); [| lia].
    apply denotes_times_class in Hyear as (Hyl & Hyy); [| lia].
    destruct Hp1 as (a1 & -> & Ha1). apply is_char_eq in Ha1 as ->.
    destruct Hp2 as (a2 & -> & Ha2). apply is_char_eq in Ha2 as ->.
    destruct day as [|d1 [|d2 [|? ?]]]; simpl in Hdl; try lia.
    destruct month as [|m1 [|m2 [|? ?]]]; simpl in Hml; try lia.
    destruct year as [|y1 [|y2 [|y3 [|y4 [|? ?]]]]]; simpl in Hyl; try lia.
    exists [d1; d2; m1; m2; y1; y2; y3; y4].
    split; [reflexivity |]. split; [| reflexivity].
    unfold all_in in *.
    inversion Hdd as [|? ? Hd1 Hdd']; subst. inversion Hdd' as [|? ? Hd2 _]; subst.
    inversion Hmm as [|? ? Hm1 Hmm']; subst. inversion Hmm' as [|? ? Hm2 _]; subst.
    inversion Hyy as [|? ? Hy1 Hyy1]; subst. inversion Hyy1 as [|? ? Hy2 Hyy2]; subst.
    inversion Hyy2 as [|? ? Hy3 Hyy3]; subst. inversion Hyy3 as [|? ? Hy4 _]; subst.
    repeat constructor; assumption.
  - intros (digits & Hlen & Hall & ->).
    destruct digits as [|d1 [|d2 [|m1 [|m2 [|y1 [|y2 [|y3 [|y4 [|? ?]]]]]]]]];
      simpl in Hlen; try lia.
    unfold all_in in Hall.
    inversion Hall as [|? ? Hd1 H1]; subst. inversion H1 as [|? ? Hd2 H2]; subst.
    inversion H2 as [|? ? Hm1 H3]; subst. inversion H3 as [|? ? Hm2 H4]; subst.
    inversion H4 as [|? ? Hy1 H5]; subst. inversion H5 as [|? ? Hy2 H6]; subst.
    inversion H6 as [|? ? Hy3 H7]; subst. inversion H7 as [|? ? Hy4 _]; subst.
    cbn [crdb_date]. rewrite chars_text.
    cbn [Pattern.crdbDate cat_all lit chars list_ascii_of_string map denotes].
    exists [d1; d2], ["."%char; m1; m2; "."%char; y1; y2; y3; y4].
    split; [reflexivity |]. split.
    { exists 2. apply (reps_class_intro is_digit [d1; d2]);
        [repeat constructor; assumption | simpl; lia |].
      intros k Hk. injection Hk as <-. simpl. lia. }
    exists ["."%char], [m1; m2; "."%char; y1; y2; y3; y4].
    split; [reflexivity |]. split; [exists "."%char; split; reflexivity |].
    exists [m1; m2], ["."%char; y1; y2; y3; y4].
    split; [reflexivity |]. split.
    { exists 2. apply (reps_class_intro is_digit [m1; m2]);
        [repeat constructor; assumption | simpl; lia |].
      intros k Hk. injection Hk as <-. simpl. lia. }
    exists ["."%char], [y1; y2; y3; y4].
    split; [reflexivity |]. split; [exists "."%char; split; reflexivity |].
    exists 4. apply (reps_class_intro is_digit [y1; y2; y3; y4]);
      [repeat constructor; assumption | simpl; lia |].
    intros k Hk. injection Hk as <-. simpl. lia.
Qed.

(** The points of a dotted date replaced by another separator. *)
Lemma dotted_date_rewritten (digits : list ascii) (sep : ascii) :
  length digits = 8 -> all_in is_digit digits ->
  regex_replaceAll Pattern.dot (text [sep]) (crdb_date "."%char digits)
  = crdb_date sep digits.
Proof.
  intros Hlen Hall.
  destruct digits as [|d1 [|d2 [|m1 [|m2 [|y1 [|y2 [|y3 [|y4 [|? ?]]]]]]]]];
    simpl in Hlen; try lia.
  unfold all_in in Hall.
  inversion Hall as [|? ? Hd1 H1]; subst. inversion H1 as [|? ? Hd2 H2]; subst.
  inversion H2 as [|? ? Hm1 H3]; subst. inversion H3 as [|? ? Hm2 H4]; subst.
  inversion H4 as [|? ? Hy1 H5]; subst. inversion H5 as [|? ? Hy2 H6]; subst.
  inversion H6 as [|? ? Hy3 H7]; subst. inversion H7 as [|? ? Hy4 _]; subst.
  cbn [crdb_date]. unfold Pattern.dot.
  change (lit ".") with (Class (is_char "."%char)).
  rewrite replace_class, !chars_text.
  unfold substitute. cbn [app flat_map].
  rewrite (digit_no_point d1 Hd1), (digit_no_point d2 Hd2),
    (digit_no_point m1 Hm1), (digit_no_point m2 Hm2),
    (digit_no_point y1 Hy1), (digit_no_point y2 Hy2),
    (digit_no_point y3 Hy3), (digit_no_point y4 Hy4).
  change (is_char "."%char "."%char) with true. reflexivity.
Qed.

(** The date match of the CRDB extractor: the first dotted date of the
    line. *)
Lemma crdb_date_found (l : string) (m : MatchArray) :
  regex_match Pattern.crdbDate l = Some m ->
  exists digits pre rest,
    length digits = 8 /\ all_in is_digit digits
    /\ at_index m 1 = crdb_date "."%char digits
    /\ chars l = pre ++ chars (crdb_date "."%char digits) ++ rest
    /\ forall pre' m' rest',
         chars l = pre' ++ m' ++ rest' -> dotted_date m' ->
         length pre <= length pre'.
Proof.
  intros H.
  apply (whole_group_match _ l m eq_refl) in H as (pre & rest & Hl & Hd & Hleft).
  pose proof (proj1 (crdb_date_texts _ _ _) Hd) as (digits & Hlen & Hall & Hv).
  assert (Hm : at_index m 1 = crdb_date "."%char digits).
  { rewrite <- (text_chars (at_index m 1)), Hv. apply text_chars. }
  exists digits, pre, rest. split; [exact Hlen |]. split; [exact Hall |].
  split; [exact Hm |]. split; [rewrite <- Hm; exact Hl |].
  intros pre' m' rest' Hsplit Hdate.
  destruct (Nat.lt_ge_cases (length pre') (length pre)) as [Hlt | Hge];
    [| exact Hge].
  exfalso. apply (Hleft pre' (m' ++ rest') Hsplit Hlt).
  exists m', rest'. split; [reflexivity |].
  apply (crdb_date_texts _ m' rest'). exact Hdate.
Qed.

(** A line without a date match holds no dotted date. *)
Lemma crdb_date_missing (l : string) :
  regex_match Pattern.crdbDate l = None ->
  forall pre m rest, chars l = pre ++ m ++ rest -> ~ dotted_date m.
Proof.
  unfold regex_match. intros H pre m rest Hl Hdate.
  destruct (search Pattern.crdbDate [] None (chars l)) as [f|] eqn:Hs;
    [discriminate |].
  apply (search_none _ _ _ _ Hs pre (m ++ rest) Hl).
  exists m, rest. split; [reflexivity |].
  apply (crdb_date_texts _ m rest). exact Hdate.
Qed.

(** X6.  The date of a CRDB record is the first date [dd.mm.yyyy] of the
    trimmed line, rewritten: when the line holds such a date, the record
    has the eight digits of the first one, day, month and year, with a
    hyphen between them in the detailed schema and a slash in the
    bookkeeping schema; when the line holds none, the date is empty in
    both. *)
Theorem crdb_date_is_rewritten (line : string) :
  let ledger := Ledger.transactionDate (Ledger.parseCRDBTransactionLine ecma line) in
  let books := QuickBooks.paymentDate (QuickBooks.parseCRDBTransactionLine ecma line) in
  (ledger = "" /\ books = ""
   /\ forall pre m rest, chars (trim line) = pre ++ m ++ rest -> ~ dotted_date m)
  \/ exists digits pre rest,
       length digits = 8 /\ all_in is_digit digits
       /\ chars (trim line) = pre ++ chars (crdb_date "."%char digits) ++ rest
       /\ (forall pre' m' rest',
             chars (trim line) = pre' ++ m' ++ rest' -> dotted_date m' ->
             length pre <= length pre')
       /\ ledger = crdb_date "-"%char digits
       /\ books = crdb_date "/"%char digits.
Proof.
  cbv zeta.
  destruct (ledger_crdb_line line) as [(Ht & Hr) | (Ht & ->)];
    destruct (quickbooks_crdb_line line) as [(Ht' & Hq) | (Ht' & ->)];
    try congruence.
  - apply ledger_crdb_fields in Hr as (-> & _).
    apply quickbooks_crdb_fields in Hq as (-> & _).
    destruct (regex_match Pattern.crdbDate (trim line)) as [m|] eqn:Hm.
    + right.
      apply crdb_date_found in Hm as (digits & pre & rest & Hlen & Hall & -> & Hl & Hfirst).
      exists digits, pre, rest.
      split; [exact Hlen |]. split; [exact Hall |]. split; [exact Hl |].
      split; [exact Hfirst |].
      split; [apply (dotted_date_rewritten digits "-"%char Hlen Hall)
             | apply (dotted_date_rewritten digits "/"%char Hlen Hall)].
    + left. split; [reflexivity |]. split; [reflexivity |].
      apply crdb_date_missing. exact Hm.
  - left. split; [reflexivity |]. split; [reflexivity |].
    apply truthy_false in Ht. rewrite Ht. intros pre m rest Hl.
    cbn [chars list_ascii_of_string] in Hl. symmetry in Hl.
    apply app_eq_nil in Hl as (_ & Hl). apply app_eq_nil in Hl as (-> & _).
    intros (digits & Hlen & _ & Hm).
    destruct digits as [|d1 [|d2 [|m1 [|m2 [|y1 [|y2 [|y3 [|y4 [|? ?]]]]]]]]];
      simpl in Hlen; try lia.
    cbn [crdb_date] in Hm. rewrite chars_text in Hm. discriminate Hm.
Qed.

(** [group1] of a match: empty when there is none, else a text of the
    body of the first group. *)
Lemma group1_text (r body : regex) (l : string) :
  always_captures 1 r = true ->
  (forall x z, rmatch r x (fun y => Some y) = Some z ->
     exists v prev next, get_cap 1 (ms_caps z) = Some v /\ denotes body prev v next) ->
  group1 (regex_match r l) = ""
  \/ exists v prev next,
       group1 (regex_match r l) = text v /\ denotes body prev v next.
Proof.
  intros Hall Hbody. destruct (regex_match r l) as [m|] eqn:Hm; [| left; reflexivity].
  right. cbn [group1]. exact (first_group_text r body l m Hall Hbody Hm).
Qed.

Lemma three_digits (s : list ascii) :
  length s = 3 -> all_in is_digit s ->
  exists a b c, s = [a; b; c] /\ all_in is_digit [a; b; c].
Proof.
  intros Hlen Hall. destruct s as [|a [|b [|c [|? ?]]]]; try discriminate.
  exists a, b, c. auto.
Qed.

Lemma reps_comma_groups (n mn : nat) (mx : option nat) (prev : option ascii)
    (s next : list ascii) :
  reps (denotes (Cat (lit ",") (times 3 3 digit))) n mn mx prev s next ->
  exists groups,
    s = concat groups
    /\ Forall (fun g => exists a b c, g = [","%char; a; b; c]
                                     /\ all_in is_digit [a; b; c]) groups.
Proof.
  revert mn mx prev s. induction n as [|n IH]; intros mn mx prev s H;
    cbn [reps] in H.
  - destruct H as (-> & _). exists []. split; [reflexivity | constructor].
  - destruct H as (_ & s1 & s2 & -> & Hg & _ & Hrest).
    apply IH in Hrest as (groups & -> & Hall).
    cbn [lit chars list_ascii_of_string map cat_all denotes] in Hg.
    destruct Hg as (c & ds & -> & (a & -> & Ha) & Hds).
    apply is_char_eq in Ha as ->.
    apply denotes_times_class in Hds as (Hlen & Hdigits); [| lia].
    destruct (three_digits ds ltac:(lia) Hdigits) as (x & y & z & -> & Hxyz).
    exists ([","%char; x; y; z] :: groups). split; [reflexivity |].
    constructor; [| exact Hall]. eauto.
Qed.

Lemma denotes_cents (prev : option ascii) (s next : list ascii) :
  denotes (opt (Cat (lit ".") (times 2 2 digit))) prev s next ->
  s = [] \/ exists a b, s = ["."%char; a; b] /\ all_in is_digit [a; b].
Proof.
  intros H. cbn [opt denotes] in H. destruct H as (n & H).
  pose proof (reps_count _ _ _ _ _ _ _ H) as (Hhi & _).
  specialize (Hhi 1 eq_refl).
  destruct n as [|[|n]]; [| | lia]; cbn [reps] in H.
  - left. apply H.
  - right. destruct H as (_ & s1 & s2 & -> & Hg & _ & -> & _).
    cbn [lit chars list_ascii_of_string map cat_all denotes] in Hg.
    destruct Hg as (c & ds & -> & (a & -> & Ha) & Hds).
    apply is_char_eq in Ha as ->.
    apply denotes_times_class in Hds as (Hlen & Hdigits); [| lia].
    destruct ds as [|x [|y [|? ?]]]; simpl in Hlen; try lia.
    exists x, y. rewrite app_nil_r. auto.
Qed.

(** The texts of the numeric group of the NMB amount patterns. *)
Lemma numeric_group_text (prev : option ascii) (v next : list ascii) :
  denotes numeric_group prev v next -> number_text (text v).
Proof.
  intros H. cbn [numeric_group cat_all denotes] in H.
  destruct H as (whole & r1 & -> & Hwhole & middle & cents & -> & Hmiddle & Hcents).
  apply denotes_plus_class in Hwhole as (Hne & Hdigits).
  cbn [star denotes] in Hmiddle. destruct Hmiddle as (n & Hmiddle).
  apply reps_comma_groups in Hmiddle as (groups & -> & Hgroups).
  apply denotes_cents in Hcents.
  exists whole, groups, cents. auto.
Qed.

Lemma amount_pattern_group (x z : MatchState) :
  rmatch Pattern.amount x (fun y => Some y) = Some z ->
  exists v prev next,
    get_cap 1 (ms_caps z) = Some v /\ denotes numeric_group prev v next.
Proof.
  unfold Pattern.amount. cbn [cat_all]. intros H.
  apply skip_prefix in H as (y & H).
  apply group_with_suffix in H; [exact H | vm_compute; tauto].
Qed.

Lemma altAmount_pattern_group (x z : MatchState) :
  rmatch Pattern.altAmount x (fun y => Some y) = Some z ->
  exists v prev next,
    get_cap 1 (ms_caps z) = Some v /\ denotes numeric_group prev v next.
Proof.
  unfold Pattern.altAmount. cbn [cat_all]. intros H.
  apply skip_prefix in H as (y & H).
  apply group_with_suffix in H; [exact H | vm_compute; tauto].
Qed.

Lemma deposit_pattern_group (x z : MatchState) :
  rmatch Pattern.deposit x (fun y => Some y) = Some z ->
  exists v prev next,
    get_cap 1 (ms_caps z) = Some v /\ denotes numeric_group prev v next.
Proof.
  unfold Pattern.deposit. cbn [cat_all]. intros H.
  apply group_with_suffix in H; [exact H | vm_compute; tauto].
Qed.

Lemma description_pattern_group (x z : MatchState) :
  rmatch Pattern.description x (fun y => Some y) = Some z ->
  exists v prev next,
    get_cap 1 (ms_caps z) = Some v /\ denotes (plus digit) prev v next.
Proof.
  unfold Pattern.description. cbn [cat_all]. intros H.
  apply skip_prefix in H as (y & H). apply skip_prefix in H as (y' & H).
  apply group_alone in H. exact H.
Qed.

Lemma number_text_truthy (s : string) : number_text s -> truthy s = true.
Proof.
  intros (whole & groups & cents & -> & Hne & _).
  destruct whole as [|a whole]; [congruence | reflexivity].
Qed.

(** The amount of an NMB line, as the three patterns give it. *)
Lemma nmb_amount_shape (l : string) :
  let amount0 := group1 (regex_match Pattern.amount l) in
  let amount :=
    if truthy amount0 then amount0
    else let amount1 := group1 (regex_match Pattern.altAmount l) in
         if truthy amount1 then amount1
         else match regex_match Pattern.deposit l with
              | Some m => at_index m 1
              | None => amount1
              end in
  amount = "" \/ number_text amount.
Proof.
  cbv zeta.
  destruct (group1_text Pattern.amount numeric_group l eq_refl amount_pattern_group)
    as [-> | (v & prev & next & -> & Hd)].
  - cbn [truthy].
    destruct (group1_text Pattern.altAmount numeric_group l eq_refl
                altAmount_pattern_group) as [-> | (v & prev & next & -> & Hd)].
    + cbn [truthy].
      destruct (regex_match Pattern.deposit l) as [m|] eqn:Hm; [| auto].
      right.
      destruct (first_group_text Pattern.deposit numeric_group l m eq_refl
                  deposit_pattern_group Hm) as (v & prev & next & -> & Hd).
      eapply numeric_group_text. exact Hd.
    + right. pose proof (numeric_group_text _ _ _ Hd) as Hn.
      rewrite (number_text_truthy _ Hn). exact Hn.
  - right. pose proof (numeric_group_text _ _ _ Hd) as Hn.
    rewrite (number_text_truthy _ Hn). exact Hn.
Qed.

(** X7.  The amount of an NMB record is empty or a number text: digits,
    then groups of a comma and three digits, then possibly a point and two
    digits.  Its reference id is empty or made of digits only.  The two
    revisions of the extractor return the same amount and reference. *)
Theorem nmb_amount_and_reference_are_numeric (line : string) :
  let r := Ledger.parseTransactionLine ecma line in
  let q := QuickBooks.parseTransactionLine ecma line in
  (Ledger.amount r = "" \/ number_text (Ledger.amount r))
  /\ all_in is_digit (chars (Ledger.refId r))
  /\ QuickBooks.amount q = Ledger.amount r
  /\ QuickBooks.invoiceNo q = Ledger.refId r.
Proof.
  cbv zeta.
  destruct (ledger_nmb_line line) as [(Ht & Hr) | (Ht & ->)];
    destruct (quickbooks_nmb_line line) as [(Ht' & Hq) | (Ht' & ->)];
    try congruence; [| cbn; repeat split; auto; constructor].
  apply ledger_nmb_fields in Hr as (_ & -> & -> & _).
  apply quickbooks_nmb_fields in Hq as (_ & -> & -> ).
  split; [apply nmb_amount_shape |]. split; [| auto].
  destruct (group1_text Pattern.description (plus digit) (trim line) eq_refl
              description_pattern_group) as [-> | (v & prev & next & -> & Hd)].
  - constructor.
  - rewrite chars_text. apply denotes_plus_class in Hd. apply Hd.
Qed.

(* ===================================================================== *)
(** * Trimming *)
(* ===================================================================== *)

Lemma drop_spaces_length (l : list ascii) : length (drop_spaces l) <= length l.
Proof.
  induction l as [|a l IH]; [reflexivity |].
  cbn [drop_spaces]. destruct (is_space a); simpl; lia.
Qed.

Lemma drop_spaces_fixed (l : list ascii) :
  drop_spaces l = l
  <-> match l with [] => True | a :: _ => is_space a = false end.
Proof.
  destruct l as [|a l]; [tauto |]. cbn [drop_spaces].
  destruct (is_space a) eqn:Ha; split; auto; try discriminate.
  intros H. pose proof (drop_spaces_length l) as Hlen. rewrite H in Hlen.
  simpl in Hlen. lia.
Qed.

Lemma drop_spaces_suffix (l : list ascii) :
  exists pre, l = pre ++ drop_spaces l /\ all_in is_space pre.
Proof.
  induction l as [|a l (pre & IH & Hpre)]; [exists []; split; [reflexivity | constructor] |].
  cbn [drop_spaces]. destruct (is_space a) eqn:Ha.
  - exists (a :: pre). split; [cbn [app]; f_equal; exact IH | constructor; assumption].
  - exists []. split; [reflexivity | constructor].
Qed.

Lemma drop_spaces_idem (l : list ascii) :
  drop_spaces (drop_spaces l) = drop_spaces l.
Proof.
  induction l as [|a l IH]; [reflexivity |].
  cbn [drop_spaces]. destruct (is_space a) eqn:Ha; [exact IH |].
  cbn [drop_spaces]. rewrite Ha. reflexivity.
Qed.

(** A trimmed text neither starts nor ends with white space. *)
Lemma trim_chars_tidy (l : list ascii) :
  drop_spaces (trim_chars l) = trim_chars l
  /\ drop_spaces (rev (trim_chars l)) = rev (trim_chars l).
Proof.
  unfold trim_chars. rewrite List.rev_involutive. split; [| apply drop_spaces_idem].
  set (m := drop_spaces l).
  assert (Hm : drop_spaces m = m) by apply drop_spaces_idem.
  destruct (drop_spaces_suffix (rev m)) as (pre & Hrev & Hpre).
  set (k := drop_spaces (rev m)) in *.
  apply drop_spaces_fixed.
  destruct (rev k) as [|a rk] eqn:Hrk; [exact I |].
  assert (Hm' : m = rev k ++ rev pre).
  { rewrite <- List.rev_app_distr, <- Hrev, List.rev_involutive. reflexivity. }
  rewrite Hrk in Hm'. rewrite Hm' in Hm. cbn [app] in Hm.
  apply drop_spaces_fixed in Hm. exact Hm.
Qed.

Lemma trim_chars_idem (l : list ascii) : trim_chars (trim_chars l) = trim_chars l.
Proof.
  destruct (trim_chars_tidy l) as (H1 & H2).
  unfold trim_chars at 1. rewrite H1, H2. apply List.rev_involutive.
Qed.

Lemma trim_idem (s : string) : trim (trim s) = trim s.
Proof. unfold trim. rewrite chars_text, trim_chars_idem. reflexivity. Qed.

Lemma drop_spaces_keeps (P : ascii -> Prop) (l : list ascii) :
  Forall P l -> Forall P (drop_spaces l).
Proof.
  intros H. destruct (drop_spaces_suffix l) as (pre & Hl & _).
  rewrite Hl in H. apply Forall_app in H. apply H.
Qed.

Lemma trim_chars_keeps (P : ascii -> Prop) (l : list ascii) :
  Forall P l -> Forall P (trim_chars l).
Proof.
  intros H. unfold trim_chars.
  apply List.Forall_rev, drop_spaces_keeps, List.Forall_rev, drop_spaces_keeps, H.
Qed.

(* ===================================================================== *)
(** * The identifiers of the records *)
(* ===================================================================== *)






Lemma account_pattern_group (x z : MatchState) :
  rmatch Pattern.account x (fun y => Some y) = Some z ->
  exists v prev next,
    get_cap 1 (ms_caps z) = Some v /\ denotes (times 10 14 digit) prev v next.
Proof.
  unfold Pattern.account. cbn [cat_all]. intros H.
  apply skip_prefix in H as (y & H).
  apply group_with_suffix in H; [exact H | vm_compute; tauto].
Qed.

Lemma ref_pattern_group (x z : MatchState) :
  rmatch Pattern.ref x (fun y => Some y) = Some z ->
  exists v prev next,
    get_cap 1 (ms_caps z) = Some v /\ denotes (plus (Class is_alnum)) prev v next.
Proof.
  unfold Pattern.ref. cbn [cat_all]. intros H.
  apply skip_prefix in H as (y & H). apply group_alone in H. exact H.
Qed.

Lemma name_pattern_group (x z : MatchState) :
  rmatch Pattern.name x (fun y => Some y) = Some z ->
  exists v prev next,
    get_cap 1 (ms_caps z) = Some v
    /\ denotes (plus (Class (fun a => is_letter a || is_space a))) prev v next.
Proof.
  unfold Pattern.name. cbn [cat_all]. intros H.
  apply skip_prefix in H as (y & H).
  apply group_with_suffix in H; [exact H | vm_compute; tauto].
Qed.

(** X9.  The identifiers of a CRDB record.  The account number is empty or
    10 to 14 digits, and the user id is the account number.  The reference
    id is empty or letters and digits, and the transaction reference
    number is the reference id.  The client name is letters and white
    space without white space at either end.  The comment and the raw
    line are the trimmed line.  In the bookkeeping schema the invoice
    number is that reference id and the reference memo is the account
    number, or the reference id when there is no account number. *)
Theorem crdb_identifiers (line : string) :
  truthy (trim line) = true ->
  let r := Ledger.parseCRDBTransactionLine ecma line in
  let q := QuickBooks.parseCRDBTransactionLine ecma line in
  (Ledger.accountNumber r = ""
   \/ (10 <= String.length (Ledger.accountNumber r) <= 14
       /\ all_in is_digit (chars (Ledger.accountNumber r))))
  /\ Ledger.userId r = Ledger.accountNumber r
  /\ all_in is_alnum (chars (Ledger.refId r))
  /\ Ledger.transactionReferenceNumber r = Ledger.refId r
  /\ all_in (fun a => is_letter a || is_space a) (chars (Ledger.clientName r))
  /\ trim (Ledger.clientName r) = Ledger.clientName r
  /\ Ledger.comment r = trim line
  /\ Ledger.rawLine r = trim line
  /\ QuickBooks.invoiceNo q = Ledger.refId r
  /\ QuickBooks.referenceMemo q = or_else (Ledger.accountNumber r) (Ledger.refId r)
  /\ QuickBooks.customer q = Ledger.clientName r.
Proof.
  intros Hline. cbv zeta.
  destruct (ledger_crdb_line line) as [(_ & Hr) | (Ht & _)]; [| congruence].
  destruct (quickbooks_crdb_line line) as [(_ & Hq) | (Ht & _)]; [| congruence].
  apply ledger_crdb_fields in Hr as (_ & Hacc & -> & Href & -> & Hname & -> & ->).
  apply quickbooks_crdb_fields in Hq as (_ & Hinv & -> & ->).
  rewrite Hinv, Hacc, Href, Hname.
  repeat split.
  - destruct (group1_text Pattern.account (times 10 14 digit) (trim line) eq_refl
                account_pattern_group) as [-> | (v & prev & next & -> & Hd)];
      [left; reflexivity | right].
    apply denotes_times_class in Hd as (Hlen & Hall); [| lia].
    rewrite <- length_chars, chars_text. auto.
  - destruct (group1_text Pattern.ref (plus (Class is_alnum)) (trim line) eq_refl
                ref_pattern_group) as [-> | (v & prev & next & -> & Hd)];
      [constructor |].
    apply denotes_plus_class in Hd as (_ & Hall). rewrite chars_text. exact Hall.
  - destruct (regex_match Pattern.name (trim line)) as [n|] eqn:Hn; [| constructor].
    destruct (first_group_text Pattern.name _ (trim line) n eq_refl
                name_pattern_group Hn) as (v & prev & next & -> & Hd).
    apply denotes_plus_class in Hd as (_ & Hall).
    unfold trim. rewrite !chars_text. apply trim_chars_keeps. exact Hall.
  - destruct (regex_match Pattern.name (trim line)); [apply trim_idem | reflexivity].
Qed.

Lemma crdb_identifiers_witness :
  let r := Ledger.parseCRDBTransactionLine ecma
             "19.01.2026 22:40:00 REF:19bd7c60dae84833 TO SAVCOM:Lawrence sospeter mshana:963330000354 N/A 0.00 12,500.00 595,288,508.22" in
  Ledger.userId r = "963330000354"
  /\ Ledger.transactionReferenceNumber r = "19bd7c60dae84833"
  /\ Ledger.clientName r = "Lawrence sospeter mshana".
Proof.
  pose proof (crdb_identifiers
    "19.01.2026 22:40:00 REF:19bd7c60dae84833 TO SAVCOM:Lawrence sospeter mshana:963330000354 N/A 0.00 12,500.00 595,288,508.22"
    eq_refl) as H.
  cbv zeta in H. destruct H as (_ & Hid & _ & Href & _).
  split; [rewrite Hid; vm_compute; reflexivity |].
  split; [rewrite Href; vm_compute; reflexivity | vm_compute; reflexivity].
Defined.

(* ===================================================================== *)
(** * The records of a batch *)
(* ===================================================================== *)

Lemma ledger_line_record (bankType : BankType) (line : string) :
  truthy (trim line) = true ->
  let r := Ledger.parse_line ecma bankType line in
  Ledger.errorMessage r
  = (if Ledger.isValid r then None else Some (no_fields_message bankType))
  /\ Ledger.rawLine r = trim line.
Proof.
  intros Hline. cbv zeta. destruct bankType; cbn [Ledger.parse_line no_fields_message].
  - destruct (ledger_nmb_line line) as [(_ & Hr) | (Ht & _)]; [| congruence].
    apply ledger_nmb_rules_valid in Hr as (_ & Hmsg & Hraw). auto.
  - destruct (ledger_crdb_line line) as [(_ & Hr) | (Ht & _)]; [| congruence].
    pose proof (ledger_crdb_rules_valid _ _ _ Hr) as (_ & Hmsg & _).
    apply ledger_crdb_fields in Hr as (_ & _ & _ & _ & _ & _ & _ & Hraw). auto.
Qed.

(** X10.  The records of a batch.  With the matcher of the language,
    every successful record of a batch has no error message, every failed
    record has the message that none of the key fields was found, and the
    raw line of every record is one of the lines of the input, trimmed and
    not empty: the records for an empty line and for a fault of the
    extraction never appear in a batch. *)
Theorem batch_records_are_of_lines (rawData : string) (bankType : BankType) :
  let result := Ledger.parseTransactions ecma rawData bankType in
  Forall (fun r => Ledger.isValid r = true /\ Ledger.errorMessage r = None)
         (successful result)
  /\ Forall (fun r => Ledger.isValid r = false
                      /\ Ledger.errorMessage r = Some (no_fields_message bankType))
            (failed result)
  /\ Forall (fun r => exists line,
                        In line (split_lines rawData)
                        /\ Ledger.rawLine r = trim line
                        /\ Ledger.rawLine r <> "")
            (successful result ++ failed result).
Proof.
  cbv zeta. unfold Ledger.parseTransactions.
  rewrite (push_loop Ledger.isValid (Ledger.parse_line ecma bankType)
             (input_lines rawData)) by apply input_lines_nonblank.
  cbn [successful failed fst snd app].
  assert (Hlines : forall r,
            In r (map (Ledger.parse_line ecma bankType) (input_lines rawData)) ->
            exists line, In line (split_lines rawData)
                         /\ truthy (trim line) = true
                         /\ r = Ledger.parse_line ecma bankType line).
  { intros r Hr. apply in_map_iff in Hr as (line & <- & Hline).
    unfold input_lines in Hline. apply List.filter_In in Hline as (Hin & Ht).
    eauto. }
  split; [| split]; apply List.Forall_forall; intros r Hr.
  - apply List.filter_In in Hr as (Hr & Hvalid).
    apply Hlines in Hr as (line & _ & Ht & ->).
    destruct (ledger_line_record bankType line Ht) as (Hmsg & _).
    rewrite Hvalid in Hmsg. auto.
  - apply List.filter_In in Hr as (Hr & Hvalid). apply negb_true_iff in Hvalid.
    apply Hlines in Hr as (line & _ & Ht & ->).
    destruct (ledger_line_record bankType line Ht) as (Hmsg & _).
    rewrite Hvalid in Hmsg. auto.
  - assert (Hin : In r (map (Ledger.parse_line ecma bankType) (input_lines rawData))).
    { apply in_app_or in Hr as [Hr | Hr]; apply List.filter_In in Hr; apply Hr. }
    apply Hlines in Hin as (line & Hline & Ht & ->).
    destruct (ledger_line_record bankType line Ht) as (_ & Hraw).
    exists line. split; [exact Hline |]. split; [exact Hraw |].
    rewrite Hraw. apply truthy_true. exact Ht.
Qed.

(* ===================================================================== *)
(** * The member code and the enrichment by the directory *)
(* ===================================================================== *)

Lemma canonical_M (a : ascii) :
  ignore_case (is_char "M"%char) a = true -> canonicalize a = "M"%char.
Proof. on_every_code_unit a. Qed.

Lemma canonical_C (a : ascii) :
  ignore_case (is_char "C"%char) a = true -> canonicalize a = "C"%char.
Proof. on_every_code_unit a. Qed.

Lemma canonical_digit (a : ascii) :
  is_digit a = true -> canonicalize a = a.
Proof. on_every_code_unit a. Qed.

Lemma canonical_letter (a : ascii) :
  ignore_case is_upper a = true -> is_upper (canonicalize a) = true.
Proof. on_every_code_unit a. Qed.

Lemma memberCode_pattern_group (x z : MatchState) :
  rmatch Pattern.memberCode x (fun y => Some y) = Some z ->
  exists v prev next,
    get_cap 1 (ms_caps z) = Some v
    /\ denotes (cat_all [lit_i "MC"; times 3 3 digit;
                         times 3 3 (Class (ignore_case is_upper))]) prev v next.
Proof.
  unfold Pattern.memberCode. cbn [cat_all]. intros H.
  apply skip_prefix in H as (y & H).
  apply group_with_suffix in H; [exact H | vm_compute; tauto].
Qed.

Lemma member_code_shape (description : string) :
  let code := Directory.extractMemberIdFromDescription description in
  code = "" \/ member_code_text code.
Proof.
  cbv zeta. unfold Directory.extractMemberIdFromDescription.
  destruct (regex_match Pattern.memberCode description) as [m|] eqn:Hm; [| auto].
  right.
  destruct (first_group_text Pattern.memberCode _ description m eq_refl
              memberCode_pattern_group Hm) as (v & prev & next & -> & Hd).
  cbn [cat_all lit_i chars list_ascii_of_string map denotes] in Hd.
  destruct Hd as (mc & r1 & -> & (s1 & s2 & -> & (a & -> & Ha) & (b & -> & Hb))
                  & ds & ls & -> & Hds & Hls).
  apply denotes_times_class in Hds as (Hdl & Hdd); [| lia].
  apply denotes_times_class in Hls as (Hll & Hlu); [| lia].
  destruct (three_digits ds ltac:(lia) Hdd) as (d1 & d2 & d3 & -> & Hd123).
  destruct ls as [|l1 [|l2 [|l3 [|? ?]]]]; simpl in Hll; try lia.
  unfold Directory.toUpperCase. rewrite chars_text.
  cbn [app map].
  inversion Hd123 as [|? ? Hd1 Hd']; subst. inversion Hd' as [|? ? Hd2 Hd'']; subst.
  inversion Hd'' as [|? ? Hd3 _]; subst.
  inversion Hlu as [|? ? Hl1 Hl']; subst. inversion Hl' as [|? ? Hl2 Hl'']; subst.
  inversion Hl'' as [|? ? Hl3 _]; subst.
  rewrite (canonical_M a Ha), (canonical_C b Hb), (canonical_digit d1 Hd1),
    (canonical_digit d2 Hd2), (canonical_digit d3 Hd3).
  exists d1, d2, d3, (canonicalize l1), (canonicalize l2), (canonicalize l3).
  split; [reflexivity |]. split; [exact Hd123 |].
  repeat constructor; apply canonical_letter; assumption.
Qed.

(** X11.  The member code read from a description is empty or in its
    canonical form, [MC], three digits and three upper-case letters,
    whatever the case of the letters in the description.  The enrichment
    of the batch parser changes the customer of a record only when the
    record is valid and the directory has an entry whose member id is the
    code read from the raw line, in that canonical form, and whose
    customer name is not empty; the new customer is the name of the
    first such entry. *)
Theorem enrichment_uses_canonical_codes
    (customerMappings : list Directory.CustomerMapping)
    (parsed : QuickBooks.ParsedTransaction) :
  let code := Directory.extractMemberIdFromDescription (QuickBooks.rawLine parsed) in
  let enriched := QuickBooks.enrich customerMappings parsed in
  (code = "" \/ member_code_text code)
  /\ (enriched = parsed
      \/ (QuickBooks.isValid parsed = true
          /\ member_code_text code
          /\ exists earlier entry later,
               customerMappings = earlier ++ entry :: later
               /\ Forall (fun m => Directory.memberId m <> code) earlier
               /\ Directory.memberId entry = code
               /\ Directory.customerName entry <> ""
               /\ enriched
                  = QuickBooks.set_customer (Directory.customerName entry) parsed)).
Proof.
  cbv zeta. pose proof (member_code_shape (QuickBooks.rawLine parsed)) as Hcode.
  cbv zeta in Hcode. split; [exact Hcode |].
  unfold QuickBooks.enrich.
  destruct (QuickBooks.isValid parsed) eqn:Hvalid; cbn [andb]; [| auto].
  destruct (0 <? length customerMappings); [| auto].
  destruct (truthy (Directory.extractMemberIdFromDescription
                      (QuickBooks.rawLine parsed))) eqn:Ht; [| auto].
  destruct Hcode as [Hcode | Hcode]; [rewrite Hcode in Ht; discriminate |].
  unfold Directory.findCustomerByMemberId.
  set (code := Directory.extractMemberIdFromDescription (QuickBooks.rawLine parsed))
    in *.
  assert (Hfind : forall ms,
            match List.find (fun m => String.eqb (Directory.memberId m) code) ms with
            | Some entry =>
                exists earlier later,
                  ms = earlier ++ entry :: later
                  /\ Forall (fun m => Directory.memberId m <> code) earlier
                  /\ Directory.memberId entry = code
            | None => True
            end).
  { induction ms as [|m ms IH]; [exact I |]. cbn [List.find].
    destruct (String.eqb (Directory.memberId m) code) eqn:He.
    - apply String.eqb_eq in He. exists [], ms. auto.
    - apply String.eqb_neq in He.
      destruct (List.find _ ms) as [entry|]; [| exact I].
      destruct IH as (earlier & later & -> & Hall & Hid).
      exists (m :: earlier), later. auto. }
  specialize (Hfind customerMappings).
  destruct (List.find _ customerMappings) as [entry|]; [| auto].
  destruct (truthy (Directory.customerName entry)) eqn:Hname; [| auto].
  right. destruct Hfind as (earlier & later & Hms & Hall & Hid).
  split; [reflexivity |]. split; [exact Hcode |].
  exists earlier, entry, later. apply truthy_true in Hname. auto.
Qed.

(* ===================================================================== *)
(** * The overlay of the customer mappings *)
(* ===================================================================== *)

Lemma is_match_overlay (mapping m : Resolver.CustomerMapping)
    (t : Ledger.ParsedTransaction) :
  Resolver.is_match (Resolver.overlay mapping t) m = Resolver.is_match t m.
Proof. reflexivity. Qed.

Lemma resolve_keeps (customerMappings : list Resolver.CustomerMapping)
    (t : Ledger.ParsedTransaction) :
  let t' := Resolver.resolve customerMappings t in
  Ledger.refId t' = Ledger.refId t
  /\ Ledger.userId t' = Ledger.userId t
  /\ Ledger.amount t' = Ledger.amount t
  /\ Ledger.transactionDate t' = Ledger.transactionDate t
  /\ Ledger.rawLine t' = Ledger.rawLine t
  /\ Ledger.isValid t' = Ledger.isValid t
  /\ Ledger.errorMessage t' = Ledger.errorMessage t.
Proof.
  cbv zeta. unfold Resolver.resolve.
  destruct (Resolver.find_mapping customerMappings t); repeat split.
Qed.

(** X12.  The overlay of the customer mappings leaves alone what the rest
    of the application keys on.  It keeps the failed records, the three
    counters and the bank type of the parse result, and the number and
    order of the successful records; in every successful record it keeps
    the reference id, the user id, the amount, the date, the raw line,
    the validity and the error message.  So the keys that the existence
    check of the store looks up are the same before and after the
    overlay. *)
Theorem mappings_keep_the_keys (customerMappings : list Resolver.CustomerMapping)
    (result : ParseResult Ledger.ParsedTransaction) :
  let enriched := Resolver.applyCustomerMappings customerMappings result in
  let kept t := (Ledger.refId t, Ledger.userId t, Ledger.amount t,
                 Ledger.transactionDate t, Ledger.rawLine t, Ledger.isValid t,
                 Ledger.errorMessage t) in
  failed enriched = failed result
  /\ totalLines enriched = totalLines result
  /\ successCount enriched = successCount result
  /\ failCount enriched = failCount result
  /\ bankType enriched = bankType result
  /\ map kept (successful enriched) = map kept (successful result)
  /\ forall bank, Store.candidate_keys (successful enriched) bank
                  = Store.candidate_keys (successful result) bank.
Proof.
  cbv zeta. unfold Resolver.applyCustomerMappings.
  destruct (0 <? length customerMappings); [| repeat split].
  cbn [successful failed totalLines successCount failCount bankType].
  repeat split.
  - rewrite map_map. apply map_ext. intros t.
    destruct (resolve_keeps customerMappings t) as (-> & -> & -> & -> & -> & -> & ->).
    reflexivity.
  - intros bank. unfold Store.candidate_keys. f_equal.
    rewrite map_map. apply map_ext. intros t.
    destruct (resolve_keeps customerMappings t) as (Href & Huser & _).
    destruct bank; cbn; assumption.
Qed.

Lemma or_else_twice (a b : string) : or_else a (or_else a b) = or_else a b.
Proof. unfold or_else. destruct (truthy a); reflexivity. Qed.

Lemma or_else_inner (a b : string) : or_else (or_else a b) b = or_else a b.
Proof.
  unfold or_else. destruct (truthy a) eqn:Ha; [rewrite Ha; reflexivity |].
  destruct (truthy b); reflexivity.
Qed.

Lemma nullable_or_twice (v : nullable) (d : string) :
  nullable_or v (nullable_or v d) = nullable_or v d.
Proof. destruct v; [apply or_else_twice | reflexivity]. Qed.

(** X13.  The overlay is idempotent: a record that has taken the fields
    of its mapping takes the same mapping again and is not changed by it,
    so applying the mappings to an enriched parse result changes
    nothing. *)
Theorem mappings_apply_once (customerMappings : list Resolver.CustomerMapping)
    (result : ParseResult Ledger.ParsedTransaction) :
  (forall t, Resolver.resolve customerMappings (Resolver.resolve customerMappings t)
             = Resolver.resolve customerMappings t)
  /\ Resolver.applyCustomerMappings customerMappings
       (Resolver.applyCustomerMappings customerMappings result)
     = Resolver.applyCustomerMappings customerMappings result.
Proof.
  assert (Hresolve : forall t,
            Resolver.resolve customerMappings (Resolver.resolve customerMappings t)
            = Resolver.resolve customerMappings t).
  { intros t. unfold Resolver.resolve at 2 3.
    destruct (Resolver.find_mapping customerMappings t) as [mapping|] eqn:Hfind.
    - unfold Resolver.resolve.
      assert (Hagain : Resolver.find_mapping customerMappings
                         (Resolver.overlay mapping t) = Some mapping).
      { exact Hfind. }
      rewrite Hagain. unfold Resolver.overlay.
      cbn [Ledger.clientName Ledger.memberId Ledger.refId Ledger.userId
           Ledger.emailAddress Ledger.productType Ledger.productName
           Ledger.accountNumber Ledger.amount Ledger.type Ledger.principal
           Ledger.interest Ledger.charges Ledger.chargeName
           Ledger.transactionDate Ledger.operationType Ledger.transactionMode
           Ledger.transactionReferenceNumber Ledger.receiptNumber
           Ledger.chequeNumber Ledger.comment Ledger.rawLine Ledger.isValid
           Ledger.errorMessage Ledger.nationalId].
      rewrite !nullable_or_twice. f_equal.
      + destruct (Resolver.account_number mapping) as [acct|]; cbn [nullable_or].
        * unfold or_else.
          destruct (truthy acct) eqn:Ha; [rewrite ?Ha; reflexivity |].
          destruct (truthy (Ledger.accountNumber t)) eqn:Hb;
            [rewrite ?Hb; reflexivity |].
          rewrite ?Hb.
          destruct (truthy (if String.eqb (Resolver.member_id mapping)
                                          (Ledger.userId t)
                            then Ledger.userId t else "")) eqn:Hc;
            rewrite ?Hc; reflexivity.
        * apply or_else_inner.
      + destruct (Resolver.customer_name mapping) as [n|]; [| reflexivity].
        destruct (truthy n); reflexivity.
    - unfold Resolver.resolve. rewrite Hfind. reflexivity. }
  split; [exact Hresolve |].
  unfold Resolver.applyCustomerMappings.
  destruct (0 <? length customerMappings) eqn:Hlen; [| reflexivity].
  cbn [successful failed totalLines successCount failCount bankType].
  f_equal. rewrite map_map. apply map_ext. exact Hresolve.
Qed.

(* ===================================================================== *)
(** * The comma-separated export *)
(* ===================================================================== *)

Lemma chars_app (a b : string) : chars (a +:+ b) = chars a ++ chars b.
Proof.
  unfold chars. induction a as [|c a IH]; [reflexivity |].
  simpl. f_equal. exact IH.
Qed.

Lemma or_else_empty (s : string) : or_else s "" = s.
Proof. destruct s; reflexivity. Qed.

Lemma includes_char (c : ascii) (l : list ascii) :
  includes_chars l [c] = existsb (is_char c) l.
Proof.
  induction l as [|a l IH]; [reflexivity |].
  cbn [includes_chars is_prefix existsb]. rewrite IH, andb_true_r.
  unfold is_char. rewrite (Nat.eqb_sym (code c) (code a)). reflexivity.
Qed.

Lemma csv_cell_chars (cell : string) :
  chars (Writer.csv_cell cell)
  = if existsb special (chars cell)
    then Writer.quote
         :: substitute (is_char Writer.quote) [Writer.quote; Writer.quote] (chars cell)
         ++ [Writer.quote]
    else chars cell.
Proof.
  unfold Writer.csv_cell. cbv zeta. rewrite or_else_empty.
  unfold includes. rewrite !chars_text, !includes_char.
  assert (Hor : existsb (is_char Writer.comma) (chars cell)
                || existsb (is_char Writer.quote) (chars cell)
                || existsb (is_char Writer.line_feed) (chars cell)
                = existsb special (chars cell)).
  { induction (chars cell) as [|a l IH]; [reflexivity |].
    cbn [existsb]. rewrite <- IH. unfold special.
    destruct (is_char Writer.comma a), (is_char Writer.quote a),
      (is_char Writer.line_feed a), (existsb (is_char Writer.comma) l),
      (existsb (is_char Writer.quote) l); reflexivity. }
  rewrite Hor. destruct (existsb special (chars cell)); [| reflexivity].
  rewrite !chars_app, !chars_text.
  change (lit (text [Writer.quote])) with (Class (is_char Writer.quote)).
  rewrite replace_class, !chars_text. reflexivity.
Qed.

Lemma read_plain_run (s : list ascii) :
  forall mode cur row rest,
    mode <> Writer.InQuoted ->
    Forall (fun a => special a = false) s ->
    Writer.read_from mode cur row (s ++ rest)
    = Writer.read_from (match s with [] => mode | _ :: _ => Writer.InPlain end)
                       (rev s ++ cur) row rest.
Proof.
  induction s as [|a s IH]; intros mode cur row rest Hmode Hall; [reflexivity |].
  inversion Hall as [|? ? Ha Hs]; subst.
  unfold special in Ha. apply orb_false_iff in Ha as (Ha & Hlf).
  apply orb_false_iff in Ha as (Hcomma & Hquote).
  cbn [app Writer.read_from]. rewrite Hcomma, Hlf, Hquote.
  assert (Hstep : Writer.read_from mode cur row (a :: s ++ rest)
                  = Writer.read_from Writer.InPlain (a :: cur) row (s ++ rest)).
  { cbn [Writer.read_from]. rewrite Hcomma, Hlf, Hquote.
    destruct mode; [reflexivity | reflexivity | congruence | reflexivity]. }
  cbn [Writer.read_from] in Hstep. rewrite Hcomma, Hlf, Hquote in Hstep.
  destruct mode; try congruence;
    (rewrite (IH Writer.InPlain (a :: cur) row rest ltac:(discriminate) Hs);
     cbn [rev]; rewrite <- app_assoc; destruct s; reflexivity).
Qed.

Lemma read_quoted_run (s : list ascii) :
  forall cur row rest,
    Writer.read_from Writer.InQuoted cur row
      (substitute (is_char Writer.quote) [Writer.quote; Writer.quote] s
       ++ Writer.quote :: rest)
    = Writer.read_from Writer.AfterQuote (rev s ++ cur) row rest.
Proof.
  induction s as [|a s IH]; intros cur row rest; [reflexivity |].
  unfold substitute. cbn [flat_map]. fold (substitute (is_char Writer.quote)
                                             [Writer.quote; Writer.quote] s).
  destruct (is_char Writer.quote a) eqn:Ha.
  - apply is_char_eq in Ha as ->. cbn [app Writer.read_from].
    change (is_char Writer.quote Writer.quote) with true.
    change (is_char Writer.comma Writer.quote) with false.
    change (is_char Writer.line_feed Writer.quote) with false.
    cbv iota. rewrite IH. cbn [rev]. rewrite <- app_assoc. reflexivity.
  - cbn [app Writer.read_from]. rewrite Ha, IH. cbn [rev].
    rewrite <- app_assoc. reflexivity.
Qed.

Lemma read_end_of_cell (mode : Writer.ReaderMode) (cur : list ascii)
    (row : list string) (rest : list ascii) :
  mode <> Writer.InQuoted -> ends_cell rest ->
  Writer.read_from mode cur row rest = cell_done (text (rev cur)) row rest.
Proof.
  intros Hmode Hrest. destruct rest as [|a more];
    [destruct mode; reflexivity |].
  cbn [ends_cell] in Hrest. cbn [cell_done].
  destruct mode; try congruence; cbn [Writer.read_from];
    (destruct (is_char Writer.comma a); [reflexivity |];
     cbn [orb] in Hrest; rewrite Hrest; reflexivity).
Qed.

Lemma read_cell (cell : string) (row : list string) (rest : list ascii) :
  ends_cell rest ->
  Writer.read_from Writer.AtStart [] row (chars (Writer.csv_cell cell) ++ rest)
  = cell_done cell row rest.
Proof.
  intros Hrest. rewrite csv_cell_chars.
  destruct (existsb special (chars cell)) eqn:Hs.
  - cbn [app Writer.read_from].
    change (is_char Writer.quote Writer.quote) with true.
    change (is_char Writer.comma Writer.quote) with false.
    change (is_char Writer.line_feed Writer.quote) with false.
    cbv iota. rewrite <- app_assoc. cbn [app]. rewrite read_quoted_run.
    rewrite read_end_of_cell by (first [discriminate | exact Hrest]).
    rewrite app_nil_r, List.rev_involutive, text_chars. reflexivity.
  - rewrite read_plain_run.
    + rewrite read_end_of_cell.
      * rewrite app_nil_r, List.rev_involutive, text_chars. reflexivity.
      * destruct (chars cell); discriminate.
      * exact Hrest.
    + discriminate.
    + apply List.Forall_forall. intros a Ha.
      destruct (special a) eqn:Hspecial; [| reflexivity].
      assert (existsb special (chars cell) = true); [| congruence].
      apply existsb_exists. eauto.
Qed.

Lemma read_row (cells : list string) :
  cells <> [] ->
  forall row rest,
    match rest with [] => True | a :: _ => is_char Writer.line_feed a = true end ->
    Writer.read_from Writer.AtStart [] row
      (chars (Writer.join (text [Writer.comma]) (map Writer.csv_cell cells)) ++ rest)
    = match rest with
      | [] => [rev row ++ cells]
      | _ :: more => (rev row ++ cells) :: Writer.read_from Writer.AtStart [] [] more
      end.
Proof.
  induction cells as [|c cells IH]; intros Hne row rest Hrest; [congruence |].
  destruct cells as [|c2 cells].
  - cbn [map Writer.join]. rewrite read_cell.
    + destruct rest as [|a more]; cbn [cell_done rev]; [reflexivity |].
      replace (is_char Writer.comma a) with false; [reflexivity |].
      apply is_char_eq in Hrest as ->. reflexivity.
    + destruct rest; [exact I |]. cbn [ends_cell]. rewrite Hrest.
      apply orb_true_r.
  - change (map Writer.csv_cell (c :: c2 :: cells))
      with (Writer.csv_cell c :: map Writer.csv_cell (c2 :: cells)).
    change (Writer.join (text [Writer.comma])
              (Writer.csv_cell c :: map Writer.csv_cell (c2 :: cells)))
      with (Writer.csv_cell c +:+ text [Writer.comma]
            +:+ Writer.join (text [Writer.comma]) (map Writer.csv_cell (c2 :: cells))).
    rewrite !chars_app, chars_text, <- !app_assoc. cbn [app].
    rewrite read_cell by reflexivity. cbn [cell_done].
    change (is_char Writer.comma Writer.comma) with true. cbv iota.
    rewrite (IH ltac:(discriminate) (c :: row) rest Hrest).
    cbn [rev]. rewrite <- !app_assoc. reflexivity.
Qed.

(** The reader gives back the table that the writer was given. *)
Lemma read_table (data : list (list string)) :
  data <> [] -> Forall (fun row => row <> []) data ->
  Writer.read_csv (Writer.csv_text data) = data.
Proof.
  unfold Writer.read_csv, Writer.csv_text.
  induction data as [|r data IH]; intros Hne Hrows; [congruence |].
  inversion Hrows as [|? ? Hr Hrest]; subst.
  destruct data as [|r2 data].
  - cbn [map Writer.join].
    rewrite <- (app_nil_r (chars _)).
    rewrite (read_row r Hr [] [] I). reflexivity.
  - change (map (fun row => Writer.join (text [Writer.comma]) (map Writer.csv_cell row))
               (r :: r2 :: data))
      with (Writer.join (text [Writer.comma]) (map Writer.csv_cell r)
            :: map (fun row => Writer.join (text [Writer.comma])
                                           (map Writer.csv_cell row)) (r2 :: data)).
    set (lines := map (fun row => Writer.join (text [Writer.comma])
                                              (map Writer.csv_cell row)) (r2 :: data))
      in *.
    assert (Hjoin : forall x, Writer.join (text [Writer.line_feed]) (x :: lines)
                              = x +:+ text [Writer.line_feed]
                                +:+ Writer.join (text [Writer.line_feed]) lines)
      by (intros x; reflexivity).
    rewrite Hjoin, !chars_app, chars_text. cbn [app].
    rewrite (read_row r Hr []
               (Writer.line_feed :: chars (Writer.join (text [Writer.line_feed]) lines))
               eq_refl).
    cbn [rev app]. f_equal.
    apply IH; [discriminate | exact Hrest].
Qed.

Lemma ledger_table_rows (transactions : list Ledger.ParsedTransaction) :
  LedgerSheet.generateExcelData transactions <> []
  /\ Forall (fun row => row <> []) (LedgerSheet.generateExcelData transactions).
Proof.
  unfold LedgerSheet.generateExcelData. split; [discriminate |].
  constructor; [discriminate |].
  apply List.Forall_forall. intros row Hrow.
  apply in_map_iff in Hrow as (t & <- & _). discriminate.
Qed.

Lemma quickbooks_table_rows (transactions : list QuickBooks.ParsedTransaction) :
  QuickBooksSheet.generateExcelData transactions <> []
  /\ Forall (fun row => row <> []) (QuickBooksSheet.generateExcelData transactions).
Proof.
  unfold QuickBooksSheet.generateExcelData. split; [discriminate |].
  constructor; [discriminate |].
  apply List.Forall_forall. intros row Hrow.
  apply in_map_iff in Hrow as (t & <- & _). discriminate.
Qed.

(** X14.  The comma-separated export loses nothing of the table.  A
    reader that takes a cell starting with a quote up to the next quote
    that is not doubled, and any other cell up to the next comma or line
    feed, reads the text of [generateCSV] back into the table of
    [generateExcelData], whatever commas, quotes and line feeds the cells
    hold; so two lists of transactions with the same text have the same
    table.  This holds for both schemas. *)
Theorem csv_keeps_the_table :
  (forall ts, Writer.read_csv (LedgerWriter.generateCSV ts)
              = LedgerSheet.generateExcelData ts)
  /\ (forall ts1 ts2, LedgerWriter.generateCSV ts1 = LedgerWriter.generateCSV ts2 ->
                      LedgerSheet.generateExcelData ts1
                      = LedgerSheet.generateExcelData ts2)
  /\ (forall ts, Writer.read_csv (QuickBooksWriter.generateCSV ts)
                 = QuickBooksSheet.generateExcelData ts)
  /\ (forall ts1 ts2,
        QuickBooksWriter.generateCSV ts1 = QuickBooksWriter.generateCSV ts2 ->
        QuickBooksSheet.generateExcelData ts1
        = QuickBooksSheet.generateExcelData ts2).
Proof.
  assert (Hl : forall ts, Writer.read_csv (LedgerWriter.generateCSV ts)
                          = LedgerSheet.generateExcelData ts).
  { intros ts. destruct (ledger_table_rows ts) as (Hne & Hrows).
    apply read_table; assumption. }
  assert (Hq : forall ts, Writer.read_csv (QuickBooksWriter.generateCSV ts)
                          = QuickBooksSheet.generateExcelData ts).
  { intros ts. destruct (quickbooks_table_rows ts) as (Hne & Hrows).
    apply read_table; assumption. }
  split; [exact Hl |]. split; [| split; [exact Hq |]].
  - intros ts1 ts2 H. rewrite <- (Hl ts1), <- (Hl ts2), H. reflexivity.
  - intros ts1 ts2 H. rewrite <- (Hq ts1), <- (Hq ts2), H. reflexivity.
Qed.

(* ===================================================================== *)
(** * The XML escape *)
(* ===================================================================== *)

Lemma substitute_flat_map (p : ascii -> bool) (by_ : list ascii)
    (f : ascii -> list ascii) (l : list ascii) :
  substitute p by_ (flat_map f l) = flat_map (fun a => substitute p by_ (f a)) l.
Proof.
  unfold substitute. induction l as [|a l IH]; [reflexivity |].
  cbn [flat_map]. rewrite flat_map_app, IH. reflexivity.
Qed.

Lemma escaped_in_turn (a : ascii) :
  substitute (is_char "'"%char) (chars "&apos;")
    (substitute (is_char Writer.quote) (chars "&quot;")
       (substitute (is_char ">"%char) (chars "&gt;")
          (substitute (is_char "<"%char) (chars "&lt;")
             (substitute (is_char "&"%char) (chars "&amp;") [a]))))
  = Writer.escaped a.
Proof. destruct a as [[] [] [] [] [] [] [] []]; vm_compute; reflexivity. Qed.

(** The five replacements, one after the other, come to one replacement
    of each code unit by its escape: the [&] of an escape written by a
    later replacement is never escaped again. *)
Lemma escapeXML_chars (s : string) :
  chars (Writer.escapeXML s) = flat_map Writer.escaped (chars s).
Proof.
  unfold Writer.escapeXML. rewrite or_else_empty.
  change (lit "'") with (Class (is_char "'"%char)).
  change (lit (text [Writer.quote])) with (Class (is_char Writer.quote)).
  change (lit ">") with (Class (is_char ">"%char)).
  change (lit "<") with (Class (is_char "<"%char)).
  change (lit "&") with (Class (is_char "&"%char)).
  rewrite !replace_class, !chars_text.
  rewrite <- (app_nil_r (chars s)) at 1.
  assert (Hone : chars s ++ [] = flat_map (fun a => [a]) (chars s)).
  { rewrite app_nil_r. induction (chars s) as [|a l IH]; [reflexivity |].
    cbn [flat_map app]. f_equal. exact IH. }
  rewrite Hone, !substitute_flat_map.
  apply flat_map_ext. intros a. apply escaped_in_turn.
Qed.

Lemma escaped_no_markup (a : ascii) :
  forallb (fun c => negb (Writer.is_markup c)) (Writer.escaped a) = true.
Proof. destruct a as [[] [] [] [] [] [] [] []]; vm_compute; reflexivity. Qed.

Lemma unescape_escaped (a : ascii) (rest : list ascii) :
  Writer.unescape_head (Writer.escaped a ++ rest) = Some (a, rest).
Proof. destruct a as [[] [] [] [] [] [] [] []]; vm_compute; reflexivity. Qed.

Lemma escaped_injective (l1 l2 : list ascii) :
  flat_map Writer.escaped l1 = flat_map Writer.escaped l2 -> l1 = l2.
Proof.
  revert l2. induction l1 as [|a l1 IH]; intros [|b l2] H; cbn [flat_map] in H.
  - reflexivity.
  - apply (f_equal Writer.unescape_head) in H.
    rewrite unescape_escaped in H. discriminate.
  - apply (f_equal Writer.unescape_head) in H.
    rewrite unescape_escaped in H. discriminate.
  - apply (f_equal Writer.unescape_head) in H.
    rewrite !unescape_escaped in H. injection H as -> H.
    f_equal. apply IH. exact H.
Qed.

(** X15.  The XML escape.  The five replacements of [escapeXML] come to
    replacing each code unit by its own escape, so nothing is escaped
    twice; the escaped text holds none of the four markup characters,
    and two different texts never have the same escaped text. *)
Theorem xml_escape_is_sound (s : string) :
  chars (Writer.escapeXML s) = flat_map Writer.escaped (chars s)
  /\ forallb (fun c => negb (Writer.is_markup c)) (chars (Writer.escapeXML s)) = true
  /\ forall s', Writer.escapeXML s = Writer.escapeXML s' -> s = s'.
Proof.
  split; [apply escapeXML_chars |]. split.
  - rewrite escapeXML_chars. induction (chars s) as [|a l IH]; [reflexivity |].
    cbn [flat_map]. rewrite forallb_app, escaped_no_markup, IH. reflexivity.
  - intros s' H. apply (f_equal chars) in H. rewrite !escapeXML_chars in H.
    apply escaped_injective in H.
    rewrite <- (text_chars s), <- (text_chars s'), H. reflexivity.
Qed.

(* ===================================================================== *)
(** * The export of stored rows *)
(* ===================================================================== *)

Lemma or_else_same (s : string) : or_else s s = s.
Proof. destruct s; reflexivity. Qed.

(** X16.  What comes back from the store.  The sheet made from the rows
    that a save has written for valid records is the sheet of these
    records with some columns blank: the client name and the member id
    in the detailed schema, the customer, the country code and the
    exchange rate in the bookkeeping schema.  Every other column comes
    back as it was, whatever batch, identifier and creation time the
    rows have. *)
Theorem cloud_export_blanks_columns (batch : string) (id_of created_of : nat -> string) :
  (forall ts : list Ledger.ParsedTransaction,
     LedgerSheet.generateExcelData
       (LedgerCloud.convertToExportFormat
          (imap (fun i t => Cloud.stored_as (id_of i) (created_of i)
                                            (Store.saved_row batch t)) ts))
     = LedgerSheet.headers
       :: map (fun t => "" :: "" :: drop 2 (LedgerSheet.cells t)) ts)
  /\ (forall ts : list QuickBooks.ParsedTransaction,
        QuickBooksSheet.generateExcelData
          (QuickBooksCloud.convertToExportFormat
             (imap (fun i t => Cloud.stored_as (id_of i) (created_of i)
                                               (Store.saved_row batch t)) ts))
        = QuickBooksSheet.headers
          :: map (fun t => [QuickBooks.paymentDate t; "";
                            QuickBooks.paymentMethod t;
                            QuickBooks.depositToAccountName t;
                            QuickBooks.invoiceNo t; QuickBooks.journalNo t;
                            QuickBooks.amount t; QuickBooks.referenceMemo t;
                            ""; ""]) ts).
Proof.
  split; intros ts.
  - unfold LedgerSheet.generateExcelData, LedgerCloud.convertToExportFormat.
    f_equal. revert id_of created_of.
    induction ts as [|t ts IH]; intros id_of created_of; [reflexivity |].
    cbn [imap map]. f_equal; [| apply (IH (id_of ∘ S) (created_of ∘ S))].
    unfold LedgerSheet.cells.
    cbn -[or_else]. rewrite !or_else_empty. reflexivity.
  - unfold QuickBooksSheet.generateExcelData, QuickBooksCloud.convertToExportFormat.
    f_equal. revert id_of created_of.
    induction ts as [|t ts IH]; intros id_of created_of; [reflexivity |].
    cbn [imap map]. f_equal; [| apply (IH (id_of ∘ S) (created_of ∘ S))].
    unfold QuickBooksSheet.cells.
    cbn -[or_else]. rewrite or_else_empty, or_else_same. reflexivity.
Qed.

(* ===================================================================== *)
(** * The session identifier *)
(* ===================================================================== *)

(** X17.  The session identifier is stable.  The first call returns a
    non-empty identifier and leaves it in the storage under the key of
    the parser, touching no other key; every later call returns that
    identifier and leaves the storage as it is, whatever the clock and
    the random source give then.  An empty stored identifier counts as
    none. *)
Theorem session_id_is_stable (now random_now : nat) (random36 later36 : string)
    (localStorage : Session.Storage) :
  let first := Session.getSessionId now random36 localStorage in
  first.1 <> ""
  /\ first.2 !! Session.storageKey = Some first.1
  /\ (forall key, key <> Session.storageKey -> first.2 !! key = localStorage !! key)
  /\ Session.getSessionId random_now later36 first.2 = first
  /\ (forall sessionId, localStorage !! Session.storageKey = Some sessionId ->
                        sessionId <> "" -> first = (sessionId, localStorage)).
Proof.
  cbv zeta. unfold Session.getSessionId.
  destruct (localStorage !! Session.storageKey) as [stored|] eqn:Hstored.
  - destruct (truthy stored) eqn:Ht; cbn [negb fst snd].
    + rewrite Hstored. rewrite Ht. cbn [negb].
      split; [apply truthy_true; exact Ht |]. split; [reflexivity |].
      split; [reflexivity |]. split; [reflexivity |].
      intros sessionId Hs _. injection Hs as <-. reflexivity.
    + rewrite lookup_insert_eq. cbn [truthy String.append negb].
      split; [discriminate |]. split; [reflexivity |].
      split; [intros key Hkey; apply lookup_insert_ne; congruence |].
      split; [reflexivity |].
      intros sessionId Hs Hne. injection Hs as <-.
      apply truthy_false in Ht. congruence.
  - cbn [truthy negb fst snd]. rewrite lookup_insert_eq.
    cbn [truthy String.append negb].
    split; [discriminate |]. split; [reflexivity |].
    split; [intros key Hkey; apply lookup_insert_ne; congruence |].
    split; [reflexivity |]. intros sessionId Hs. discriminate.
Qed.

(* ===================================================================== *)
(** * The pages of the tables *)
(* ===================================================================== *)

Lemma page_succ {A : Type} (size k : nat) (l : list A) :
  Paging.page size (S k) l = take size (drop (k * size) l).
Proof.
  unfold Paging.page. f_equal; [| f_equal]; cbn [Nat.sub]; nia.
Qed.

Lemma pages_concat {A : Type} (size k : nat) :
  forall l : list A,
    length l <= k * size ->
    concat (map (fun p => Paging.page size p l) (seq 1 k)) = l.
Proof.
  induction k as [|k IH]; intros l Hlen.
  - destruct l; [reflexivity | simpl in Hlen; lia].
  - cbn [seq map concat]. rewrite <- seq_shift, map_map.
    rewrite (map_ext_in (fun p => Paging.page size (S p) l)
                        (fun p => Paging.page size p (drop size l))).
    + rewrite IH by (rewrite length_drop; nia).
      rewrite page_succ. cbn [Nat.mul drop]. apply take_drop.
    + intros p Hp. apply in_seq in Hp. destruct p as [|p]; [lia |].
      rewrite !page_succ, drop_drop. do 2 f_equal; nia.
Qed.

Lemma total_pages_cover (size n : nat) :
  0 < size ->
  n <= Paging.totalPages size n * size
  /\ (0 < n -> (Paging.totalPages size n - 1) * size < n)
  /\ (n = 0 -> Paging.totalPages size n = 0).
Proof.
  intros Hsize. unfold Paging.totalPages.
  pose proof (Nat.div_mod_eq (n + size - 1) size) as Hdm.
  pose proof (Nat.mod_upper_bound (n + size - 1) size ltac:(lia)) as Hmod.
  split; [nia |]. split; [intros Hn; nia |].
  intros ->. apply Nat.div_small. lia.
Qed.

Lemma pages_of_a_list {A : Type} (size : nat) (l : list A) :
  0 < size ->
  let total := Paging.totalPages size (length l) in
  concat (map (fun p => Paging.page size p l) (seq 1 total)) = l
  /\ (forall p, 1 <= p <= total -> 1 <= length (Paging.page size p l) <= size)
  /\ (forall p, total < p -> Paging.page size p l = [])
  /\ (forall p, 1 <= p <= total ->
        1 <= Paging.previous_page p <= total
        /\ 1 <= Paging.next_page total p <= total).
Proof.
  intros Hsize. cbv zeta.
  destruct (total_pages_cover size (length l) Hsize) as (Hcover & Hlast & Hzero).
  split; [apply pages_concat; exact Hcover |]. split; [| split].
  - intros p Hp. destruct p as [|k]; [lia |].
    rewrite page_succ, length_take, length_drop.
    assert (0 < length l) by (destruct (length l); [rewrite Hzero in Hp; lia | lia]).
    specialize (Hlast ltac:(lia)). nia.
  - intros p Hp. destruct p as [|k].
    + unfold Paging.page. reflexivity.
    + rewrite page_succ. rewrite drop_ge; [destruct size; reflexivity | nia].
  - intros p Hp. unfold Paging.previous_page, Paging.next_page. lia.
Qed.

(** X18.  The pages of a table partition its rows.  With 20 rows to a
    page in the results table and 5 in the panel of failed records, the
    pages 1 to [totalPages], one after the other, are the rows in order,
    each page holds at least one row and at most the page size, a page
    after the last one is empty, and the buttons for the previous and the
    next page never leave the range of the pages. *)
Theorem pages_partition_the_rows {A : Type} (rows : list A) :
  (let total := Paging.totalPages 20 (length rows) in
   concat (map (fun p => Paging.page 20 p rows) (seq 1 total)) = rows
   /\ (forall p, 1 <= p <= total -> 1 <= length (Paging.page 20 p rows) <= 20)
   /\ (forall p, total < p -> Paging.page 20 p rows = [])
   /\ (forall p, 1 <= p <= total ->
         1 <= Paging.previous_page p <= total
         /\ 1 <= Paging.next_page total p <= total))
  /\ (let total := Paging.totalPages 5 (length rows) in
      concat (map (fun p => Paging.page 5 p rows) (seq 1 total)) = rows
      /\ (forall p, 1 <= p <= total -> 1 <= length (Paging.page 5 p rows) <= 5)
      /\ (forall p, total < p -> Paging.page 5 p rows = [])
      /\ (forall p, 1 <= p <= total ->
            1 <= Paging.previous_page p <= total
            /\ 1 <= Paging.next_page total p <= total)).
Proof.
  split; apply pages_of_a_list; lia.
Qed.

(* ===================================================================== *)
(** * The input panel *)
(* ===================================================================== *)

Lemma blank_join (pieces : list (list ascii)) :
  forallb is_space (join_lines pieces) = forallb (forallb is_space) pieces.
Proof.
  induction pieces as [|p pieces IH]; [reflexivity |].
  destruct pieces as [|q pieces].
  - cbn [join_lines forallb]. rewrite andb_true_r. reflexivity.
  - change (join_lines (p :: q :: pieces))
      with (p ++ "010"%char :: join_lines (q :: pieces)).
    rewrite forallb_app. cbn [forallb] in *. rewrite IH. reflexivity.
Qed.

Lemma blank_text (s : string) :
  blank_line s = forallb blank_line (split_lines s).
Proof.
  unfold blank_line at 1. rewrite <- (split_lines_join s) at 1.
  rewrite chars_text, blank_join.
  induction (split_lines s) as [|piece pieces IH]; [reflexivity |].
  cbn [map forallb]. rewrite IH. reflexivity.
Qed.

Lemma no_line_left (pieces : list string) :
  length (List.filter (fun l => truthy (trim l)) pieces) = 0
  <-> forallb blank_line pieces = true.
Proof.
  induction pieces as [|p pieces IH]; [split; reflexivity |].
  cbn [List.filter forallb]. rewrite trim_blank.
  destruct (blank_line p); cbn [negb andb]; [exact IH |].
  split; [simpl; lia | discriminate].
Qed.

(** X19.  The input panel and the parser count the same lines.  The
    panel submits exactly when its line count is not zero, and it submits
    the text as it is with the chosen bank format; the parser then
    reports as total lines the line count that the panel showed. *)
Theorem panel_counts_the_parsed_lines (rt : RegExpRuntime) (inputData : string)
    (bankType : BankType) :
  (DataInput.handleSubmit inputData bankType = None
   <-> DataInput.lineCount inputData = 0)
  /\ (forall call, DataInput.handleSubmit inputData bankType = Some call ->
                   call = (inputData, bankType))
  /\ totalLines (Ledger.parseTransactions rt inputData bankType)
     = DataInput.lineCount inputData
  /\ (forall customerMappings,
        totalLines (QuickBooks.parseTransactions rt inputData bankType
                                                 customerMappings)
        = DataInput.lineCount inputData).
Proof.
  split; [| split; [| split; [reflexivity | intros; reflexivity]]].
  - unfold DataInput.handleSubmit, DataInput.lineCount.
    rewrite no_line_left, <- blank_text, trim_blank.
    destruct (blank_line inputData); cbn [negb]; split; congruence.
  - unfold DataInput.handleSubmit. intros call H.
    destruct (truthy (trim inputData)); congruence.
Qed.

(* ===================================================================== *)
(** * The handlers of the main page *)
(* ===================================================================== *)

Lemma take_push {A : Type} (e : A) (l : list A) :
  e :: take 9 l = take 10 (e :: l).
Proof. reflexivity. Qed.

Lemma take_10_twice {A : Type} (e : A) (l : list A) :
  take 10 (e :: take 10 l) = take 10 (e :: l).
Proof.
  cbn [take firstn]. f_equal. rewrite List.firstn_firstn. reflexivity.
Qed.

Lemma submissions_history (subs : list App.Submission) :
  forall s0,
    let s := fold_left App.submit subs s0 in
    App.customerMappings s = App.customerMappings s0
    /\ take 10 (map App.result (App.history s))
       = take 10 (rev (map (fun sub : App.Submission =>
                              App.submitted (App.customerMappings s0) sub.1.2 sub.2)
                           subs)
                  ++ map App.result (App.history s0))
    /\ (subs <> [] -> length (App.history s) <= 10).
Proof.
  induction subs as [|sub subs IH] using rev_ind; intros s0; cbv zeta.
  - cbn [fold_left map rev app]. split; [reflexivity |]. split; [reflexivity |].
    congruence.
  - rewrite fold_left_app. cbn [fold_left].
    destruct (IH s0) as (Hmaps & Hhist & _). cbv zeta in Hmaps, Hhist.
    set (s := fold_left App.submit subs s0) in *.
    destruct sub as [[[now created] data] bankType].
    cbn [App.submit App.handleDataSubmit App.customerMappings App.history].
    split; [exact Hmaps |]. split.
    + rewrite map_app, rev_app_distr. cbn [map rev app fst snd App.result].
      rewrite Hmaps. cbn [take firstn]. f_equal.
      rewrite <- List.firstn_map, List.firstn_firstn. cbn [Nat.min].
      apply (f_equal (take 9)) in Hhist.
      rewrite !List.firstn_firstn in Hhist. exact Hhist.
    + intros _. cbn [length]. rewrite length_take. lia.
Qed.

(** X20.  The local history holds the last ten submissions.  After any
    run of submissions the history is made of the results of the most
    recent ones, newest first, and never of more than ten once there has
    been a submission; the result on display is the newest one, and the
    transactions on display are its successful records.  The customer
    mappings are not touched. *)
Theorem history_keeps_the_last_ten (subs : list App.Submission) (s0 : App.State) :
  let s := fold_left App.submit subs s0 in
  let results := map (fun sub : App.Submission =>
                        App.submitted (App.customerMappings s0) sub.1.2 sub.2) subs in
  App.customerMappings s = App.customerMappings s0
  /\ (subs <> [] ->
      length (App.history s) <= 10
      /\ map App.result (App.history s)
         = take 10 (rev results ++ map App.result (App.history s0)))
  /\ (forall earlier sub, subs = earlier ++ [sub] ->
        let newest := App.submitted (App.customerMappings s0) sub.1.2 sub.2 in
        App.parseResult s = Some newest
        /\ App.transactions s = successful newest
        /\ option_map App.result (head (App.history s)) = Some newest
        /\ App.saveMessage s = None).
Proof.
  cbv zeta. destruct (submissions_history subs s0) as (Hmaps & Hhist & Hlen).
  cbv zeta in Hmaps, Hhist, Hlen.
  split; [exact Hmaps |]. split.
  - intros Hne. specialize (Hlen Hne). split; [exact Hlen |].
    rewrite <- Hhist. symmetry. apply take_ge. rewrite length_map. exact Hlen.
  - intros earlier sub ->. rewrite fold_left_app. cbn [fold_left].
    destruct (submissions_history earlier s0) as (Hm & _). cbv zeta in Hm.
    destruct sub as [[[now created] data] bankType].
    cbn [App.submit App.handleDataSubmit App.parseResult App.transactions
         App.history App.saveMessage head option_map App.result fst snd].
    rewrite Hm. auto.
Qed.

Section SavingFacts.
Import Store.
Context {Number : Type} (number_zero : Number)
        (number_add : Number -> Number -> Number)
        (amount_value : string -> Number).
Context (new_batch_id : nat -> string) (sessionId localeNow : string).

Implicit Types (w : @World Number).

Abbreviation save_to_cloud :=
  (App.handleSaveToCloud number_zero number_add amount_value new_batch_id
                         sessionId localeNow).

(** X21.  What the message after a save tells.  When the store never
    gives an empty batch id: the success message is shown exactly when a
    batch row was added, and then the refresh trigger goes up by one;
    with an error message, or with no message at all, the store is as it
    was before and the trigger is unchanged.  No message at all is what
    an all-duplicates save ends with.  Without a parse result, or with a
    parse result that has no successful record, no request is made at
    all.  The parse result and the transactions on display are never
    changed by a save. *)
Theorem save_message_tells_what_happened (localeDate localeTime : string)
    (s : App.State) w :
  (forall n, new_batch_id n <> "") ->
  let out := save_to_cloud localeDate localeTime s w in
  match App.saveMessage out.1 with
  | Some {| App.message_type := App.success |} =>
      (exists row, transaction_batches (db out.2)
                   = transaction_batches (db w) ++ [row])
      /\ App.cloudRefreshTrigger out.1 = App.cloudRefreshTrigger s + 1
  | _ =>
      db out.2 = db w
      /\ App.cloudRefreshTrigger out.1 = App.cloudRefreshTrigger s
  end
  /\ (match App.parseResult s with
      | Some result => successCount result = 0
      | None => True
      end ->
      out.2 = w
      /\ App.saveMessage out.1
         = Some {| App.message_type := App.error;
                   App.message_text := "No transactions to save" |})
  /\ App.parseResult out.1 = App.parseResult s
  /\ App.transactions out.1 = App.transactions s.
Proof.
  intros Hid. cbv zeta. unfold App.handleSaveToCloud. cbv zeta.
  destruct (App.parseResult s) as [result|] eqn:Hresult;
    [| cbn [fst snd App.with_message App.saveMessage App.cloudRefreshTrigger
            App.parseResult App.transactions]; auto].
  destruct (successCount result =? 0) eqn:Hcount.
  { cbn [fst snd App.with_message App.saveMessage App.cloudRefreshTrigger
         App.parseResult App.transactions]. auto. }
  apply Nat.eqb_neq in Hcount.
  pose proof (save_outcome number_zero number_add amount_value new_batch_id
                sessionId localeNow result
                (Some ("Batch " +:+ localeDate +:+ " " +:+ localeTime)) w) as Hout.
  cbv zeta in Hout.
  destruct (saveBatchToDatabase number_zero number_add amount_value new_batch_id
              sessionId localeNow result
              (Some ("Batch " +:+ localeDate +:+ " " +:+ localeTime)) w)
    as [saved w'].
  cbn [fst snd] in Hout.
  destruct Hout as [(Hnone & Hdb) | (ids & outs & Hsome & Hres & Hb & Hp)].
  - rewrite Hnone. cbn [nullable_or truthy].
    destruct (truthy (nullable_or (error saved) ""));
      cbn [fst snd App.with_message App.saveMessage App.cloudRefreshTrigger
           App.parseResult App.transactions App.message_type];
      (split; [auto |]); (split; [intros H; congruence | auto]).
  - rewrite Hres. cbn [error batchId nullable_or truthy].
    assert (Htrue : truthy (or_else (new_batch_id
                                       (length (transaction_batches (db w)))) "")
                    = true).
    { rewrite or_else_empty. apply truthy_true. apply Hid. }
    rewrite Htrue.
    cbn [fst snd App.with_message App.saveMessage App.cloudRefreshTrigger
         App.parseResult App.transactions App.message_type].
    split; [split; [eexists; exact Hb | reflexivity] |].
    split; [intros H; congruence | auto].
Qed.

End SavingFacts.

Lemma save_message_tells_what_happened_witness :
  let first := Demo.save Demo.sample_batch None (Demo.world [] []) in
  let state := {| App.isProcessing := false; App.isSaving := false;
                  App.parseResult := Some Demo.sample_batch;
                  App.transactions := successful Demo.sample_batch;
                  App.history := []; App.cloudRefreshTrigger := 1;
                  App.saveMessage := None; App.customerMappings := [] |} in
  let out := App.handleSaveToCloud 0%N N.add Demo.whole_units Demo.batch_id
               "session_1768917540_k3x9" "1/20/2026, 1:59:00 PM"
               "1/20/2026" "2:05:00 PM" state first.2 in
  App.saveMessage out.1 = None /\ Store.db out.2 = Store.db first.2.
Proof.
  cbv zeta.
  pose proof (save_message_tells_what_happened 0%N N.add Demo.whole_units
                Demo.batch_id "session_1768917540_k3x9" "1/20/2026, 1:59:00 PM"
                "1/20/2026" "2:05:00 PM"
                {| App.isProcessing := false; App.isSaving := false;
                   App.parseResult := Some Demo.sample_batch;
                   App.transactions := successful Demo.sample_batch;
                   App.history := []; App.cloudRefreshTrigger := 1;
                   App.saveMessage := None; App.customerMappings := [] |}
                (Demo.save Demo.sample_batch None (Demo.world [] [])).2) as H.
  cbv zeta in H.
  assert (Hmsg : App.saveMessage
            (App.handleSaveToCloud 0%N N.add Demo.whole_units Demo.batch_id
               "session_1768917540_k3x9" "1/20/2026, 1:59:00 PM"
               "1/20/2026" "2:05:00 PM"
               {| App.isProcessing := false; App.isSaving := false;
                  App.parseResult := Some Demo.sample_batch;
                  App.transactions := successful Demo.sample_batch;
                  App.history := []; App.cloudRefreshTrigger := 1;
                  App.saveMessage := None; App.customerMappings := [] |}
               (Demo.save Demo.sample_batch None (Demo.world [] [])).2).1 = None)
    by (vm_compute; reflexivity).
  split; [exact Hmsg |].
  destruct H as (H & _).
  - intros n. unfold Demo.batch_id. discriminate.
  - rewrite Hmsg in H. apply H.
Defined.

(* ===================================================================== *)
(** * The reader of the customer sheet *)
(* ===================================================================== *)

Lemma in_dropped {A : Type} (n : nat) (l : list A) (x : A) :
  In x (drop n l) -> In x l.
Proof.
  intros H. rewrite <- (take_drop n l). apply in_or_app. right. exact H.
Qed.

Lemma split_chars_keeps (P : ascii -> Prop) (sep : ascii) (l : list ascii) :
  forall cur, Forall P cur -> Forall P l ->
              Forall (Forall P) (Sheet.split_chars sep cur l).
Proof.
  induction l as [|a l IH]; intros cur Hcur Hl; cbn [Sheet.split_chars].
  - constructor; [apply List.Forall_rev; exact Hcur | constructor].
  - inversion Hl as [|? ? Ha Hl']; subst. destruct (is_char sep a).
    + constructor; [apply List.Forall_rev; exact Hcur |].
      apply IH; [constructor | exact Hl'].
    + apply IH; [constructor; assumption | exact Hl'].
Qed.

Lemma split_chars_no_sep (sep : ascii) (l : list ascii) :
  forall cur, Forall (fun a => is_char sep a = false) cur ->
              Forall (Forall (fun a => is_char sep a = false))
                     (Sheet.split_chars sep cur l).
Proof.
  induction l as [|a l IH]; intros cur Hcur; cbn [Sheet.split_chars].
  - constructor; [apply List.Forall_rev; exact Hcur | constructor].
  - destruct (is_char sep a) eqn:Ha.
    + constructor; [apply List.Forall_rev; exact Hcur |].
      apply IH. constructor.
    + apply IH. constructor; assumption.
Qed.

Lemma split_pieces (P : ascii -> Prop) (sep : ascii) (s piece : string) :
  Forall P (chars s) -> In piece (Sheet.split sep s) ->
  Forall P (chars piece) /\ Forall (fun a => is_char sep a = false) (chars piece).
Proof.
  intros Hs Hin. unfold Sheet.split in Hin.
  apply in_map_iff in Hin as (l & <- & Hl). rewrite chars_text. split.
  - pose proof (split_chars_keeps P sep (chars s) [] ltac:(constructor) Hs) as H.
    rewrite List.Forall_forall in H. apply H. exact Hl.
  - pose proof (split_chars_no_sep sep (chars s) [] ltac:(constructor)) as H.
    rewrite List.Forall_forall in H. apply H. exact Hl.
Qed.

Lemma trim_keeps (P : ascii -> Prop) (s : string) :
  Forall P (chars s) -> Forall P (chars (trim s)).
Proof. intros H. unfold trim. rewrite chars_text. apply trim_chars_keeps, H. Qed.

Lemma clean_part (line part : string) :
  Forall (fun a => is_char Writer.line_feed a = false) (chars line) ->
  In part (Sheet.split Writer.comma line) ->
  Sheet.clean (trim part).
Proof.
  intros Hline Hin.
  destruct (split_pieces _ Writer.comma line part Hline Hin) as (Hlf & Hcomma).
  split; [apply trim_idem |].
  apply trim_keeps. apply List.Forall_forall. intros a Ha.
  rewrite List.Forall_forall in Hlf, Hcomma. auto.
Qed.

(** X22.  What the reader of the customer sheet returns.  Whatever the
    text, every field of every customer that [parseCSV] returns has no
    white space at either end and holds neither a comma nor a line feed;
    and a text of one line, the header, gives no customer. *)
Theorem sheet_fields_are_clean (csvText : string) :
  Forall Sheet.clean_mapping (Sheet.parseCSV csvText)
  /\ (Forall (fun a => is_char Writer.line_feed a = false) (chars (trim csvText)) ->
      Sheet.parseCSV csvText = []).
Proof.
  split.
  - unfold Sheet.parseCSV. cbv zeta. apply List.Forall_forall. intros m Hm.
    apply in_flat_map in Hm as (raw & Hraw & Hm).
    apply in_dropped in Hraw.
    destruct (negb (truthy (trim raw))); [destruct Hm |].
    assert (Hline : Forall (fun a => is_char Writer.line_feed a = false)
                           (chars (trim raw))).
    { apply trim_keeps.
      apply (split_pieces (fun _ => True) Writer.line_feed (trim csvText) raw);
        [apply List.Forall_forall; auto | exact Hraw]. }
    unfold Sheet.mapping_of in Hm.
    destruct (Sheet.split Writer.comma (trim raw)) as [|p0 [|p1 [|p2 [|p3 more]]]]
      eqn:Hparts; try contradiction.
    destruct Hm as [<- | []].
    unfold Sheet.clean_mapping; cbn [Directory.memberId Directory.customerName
                                     Directory.phoneNumber Directory.transactionNumber].
    repeat split; try apply trim_idem;
      match goal with
      | |- Forall _ (chars (trim ?p)) =>
          apply (clean_part (trim raw) p Hline); rewrite Hparts; simpl; auto
      end.
  - intros Hone. unfold Sheet.parseCSV. cbv zeta.
    assert (Hsplit : forall l cur,
              Forall (fun a => is_char Writer.line_feed a = false) l ->
              Sheet.split_chars Writer.line_feed cur l = [rev cur ++ l]).
    { induction l as [|a l IH]; intros cur Hl; cbn [Sheet.split_chars].
      - rewrite app_nil_r. reflexivity.
      - inversion Hl as [|? ? Ha Hl']; subst. rewrite Ha, IH by exact Hl'.
        cbn [rev]. rewrite <- app_assoc. reflexivity. }
    unfold Sheet.split. rewrite Hsplit by exact Hone. reflexivity.
Qed.

Lemma split_plain (sep : ascii) (p : list ascii) :
  forall cur rest,
    Forall (fun a => is_char sep a = false) p ->
    Sheet.split_chars sep cur (p ++ rest) = Sheet.split_chars sep (rev p ++ cur) rest.
Proof.
  induction p as [|a p IH]; intros cur rest Hp; [reflexivity |].
  inversion Hp as [|? ? Ha Hp']; subst.
  cbn [app Sheet.split_chars]. rewrite Ha, IH by exact Hp'.
  cbn [rev]. rewrite <- app_assoc. reflexivity.
Qed.

Lemma join_cons (sep x y : string) (more : list string) :
  Writer.join sep (x :: y :: more) = x +:+ sep +:+ Writer.join sep (y :: more).
Proof. reflexivity. Qed.

(** Splitting what was joined gives the pieces back. *)
Lemma split_join (sep : ascii) (rest : list string) :
  forall x cur,
    Forall (fun s => Forall (fun a => is_char sep a = false) (chars s)) (x :: rest) ->
    map text (Sheet.split_chars sep cur (chars (Writer.join (text [sep]) (x :: rest))))
    = text (rev cur ++ chars x) :: rest.
Proof.
  induction rest as [|y rest IH]; intros x cur Hall;
    inversion Hall as [|? ? Hx Hrest]; subst.
  - cbn [Writer.join]. rewrite <- (app_nil_r (chars x)) at 1.
    rewrite split_plain by exact Hx. cbn [Sheet.split_chars map].
    rewrite List.rev_app_distr, List.rev_involutive. reflexivity.
  - rewrite join_cons, !chars_app, chars_text.
    rewrite split_plain by exact Hx. cbn [app Sheet.split_chars].
    change (is_char sep sep) with (code sep =? code sep). rewrite Nat.eqb_refl.
    cbn [map]. rewrite List.rev_app_distr, List.rev_involutive.
    rewrite (IH y [] Hrest). cbn [rev app]. rewrite text_chars. reflexivity.
Qed.

Lemma tidy_trim (l : list ascii) : Sheet.tidy l -> trim_chars l = l.
Proof.
  intros (_ & H1 & H2). unfold trim_chars. rewrite H1, H2.
  apply List.rev_involutive.
Qed.

Lemma tidy_of_trimmed (l : list ascii) :
  trim_chars l = l -> l <> [] -> Sheet.tidy l.
Proof.
  intros H Hne. destruct (trim_chars_tidy l) as (H1 & H2).
  rewrite H in H1, H2. split; auto.
Qed.

Lemma drop_spaces_app (a b : list ascii) :
  a <> [] -> drop_spaces a = a -> drop_spaces (a ++ b) = a ++ b.
Proof.
  intros Hne Ha. apply drop_spaces_fixed. apply drop_spaces_fixed in Ha.
  destruct a; [congruence | exact Ha].
Qed.

Lemma tidy_around (a middle b : list ascii) :
  Sheet.tidy a -> Sheet.tidy b -> Sheet.tidy (a ++ middle ++ b).
Proof.
  intros (Ha & Ha1 & _) (Hb & _ & Hb2). split; [| split].
  - destruct a; [congruence | discriminate].
  - apply drop_spaces_app; assumption.
  - rewrite !List.rev_app_distr, <- app_assoc.
    apply drop_spaces_app; [| exact Hb2].
    intros Hr. apply (f_equal (@rev ascii)) in Hr.
    rewrite List.rev_involutive in Hr. exact (Hb Hr).
Qed.

Lemma starts_before_comma (field rest : list ascii) :
  drop_spaces field = field ->
  drop_spaces (field ++ Writer.comma :: rest) = field ++ Writer.comma :: rest.
Proof.
  intros Hf. destruct field as [|a field]; [reflexivity |].
  apply drop_spaces_app; [discriminate | exact Hf].
Qed.

Lemma trimmed_ends (field : list ascii) :
  trim_chars field = field ->
  drop_spaces field = field /\ drop_spaces (rev field) = rev field.
Proof.
  intros H. destruct (trim_chars_tidy field) as (H1 & H2).
  rewrite H in H1, H2. auto.
Qed.

(** A line of fields without outer white space has none itself. *)
Lemma tidy_line (first last_ middle : list ascii) :
  trim_chars first = first -> trim_chars last_ = last_ ->
  Sheet.tidy (first ++ Writer.comma :: middle ++ Writer.comma :: last_).
Proof.
  intros Hfirst Hlast.
  apply trimmed_ends in Hfirst as (Hf & _). apply trimmed_ends in Hlast as (_ & Hl).
  split; [destruct first; discriminate |]. split.
  - apply starts_before_comma. exact Hf.
  - rewrite app_comm_cons, app_assoc, List.rev_app_distr. cbn [rev].
    rewrite <- app_assoc. cbn [app].
    apply starts_before_comma. exact Hl.
Qed.

Lemma clean_chars (field : string) :
  Sheet.clean field ->
  trim_chars (chars field) = chars field
  /\ Forall (fun a => is_char Writer.comma a = false) (chars field)
  /\ Forall (fun a => is_char Writer.line_feed a = false) (chars field).
Proof.
  intros (Htrim & Hall). split; [| split].
  - unfold trim in Htrim. apply (f_equal chars) in Htrim.
    rewrite chars_text in Htrim. exact Htrim.
  - eapply Forall_impl; [exact Hall |]. intros a Ha. apply Ha.
  - eapply Forall_impl; [exact Hall |]. intros a Ha. apply Ha.
Qed.

Lemma sheet_line_chars (m : Directory.CustomerMapping) :
  chars (Sheet.sheet_line m)
  = chars (Directory.memberId m) ++ Writer.comma
    :: chars (Directory.customerName m) ++ Writer.comma
    :: chars (Directory.phoneNumber m) ++ Writer.comma
    :: chars (Directory.transactionNumber m).
Proof.
  unfold Sheet.sheet_line. rewrite !join_cons. cbn [Writer.join].
  rewrite !chars_app, !chars_text. cbn [app]. reflexivity.
Qed.

Lemma sheet_line_tidy (m : Directory.CustomerMapping) :
  Sheet.clean_mapping m ->
  Sheet.tidy (chars (Sheet.sheet_line m))
  /\ Forall (fun a => is_char Writer.line_feed a = false) (chars (Sheet.sheet_line m)).
Proof.
  intros (H0 & H1 & H2 & H3).
  apply clean_chars in H0 as (T0 & _ & L0). apply clean_chars in H1 as (T1 & _ & L1).
  apply clean_chars in H2 as (T2 & _ & L2). apply clean_chars in H3 as (T3 & _ & L3).
  rewrite sheet_line_chars. split.
  - rewrite (app_comm_cons (chars (Directory.phoneNumber m))).
    rewrite (app_assoc (chars (Directory.customerName m))).
    apply tidy_line; assumption.
  - repeat (apply Forall_app; split; [assumption |]; constructor; [reflexivity |]).
    exact L3.
Qed.

Lemma sheet_line_parts (m : Directory.CustomerMapping) :
  Sheet.clean_mapping m ->
  Sheet.split Writer.comma (Sheet.sheet_line m)
  = [Directory.memberId m; Directory.customerName m; Directory.phoneNumber m;
     Directory.transactionNumber m].
Proof.
  intros (H0 & H1 & H2 & H3).
  apply clean_chars in H0 as (_ & C0 & _). apply clean_chars in H1 as (_ & C1 & _).
  apply clean_chars in H2 as (_ & C2 & _). apply clean_chars in H3 as (_ & C3 & _).
  unfold Sheet.split, Sheet.sheet_line.
  rewrite split_join by (repeat constructor; assumption).
  cbn [rev app]. rewrite text_chars. reflexivity.
Qed.

Lemma sheet_lines_read (ms : list Directory.CustomerMapping) :
  Forall Sheet.clean_mapping ms ->
  flat_map (fun raw =>
              if negb (truthy (trim raw)) then []
              else Sheet.mapping_of (Sheet.split Writer.comma (trim raw)))
           (map Sheet.sheet_line ms)
  = ms.
Proof.
  intros Hall. induction Hall as [|m ms Hm Hms IH]; [reflexivity |].
  cbn [map flat_map]. rewrite IH.
  destruct (sheet_line_tidy m Hm) as (Htidy & _).
  assert (Htrim : trim (Sheet.sheet_line m) = Sheet.sheet_line m).
  { unfold trim. rewrite (tidy_trim _ Htidy). apply text_chars. }
  rewrite Htrim.
  assert (Htrue : truthy (Sheet.sheet_line m) = true).
  { apply truthy_true. intros Hempty. destruct Htidy as (Hne & _).
    rewrite Hempty in Hne. apply Hne. reflexivity. }
  rewrite Htrue. cbn [negb]. rewrite (sheet_line_parts m Hm).
  cbn [Sheet.mapping_of app]. f_equal.
  destruct Hm as ((-> & _) & (-> & _) & (-> & _) & (-> & _)).
  destruct m; reflexivity.
Qed.

(** X23.  A sheet in the expected layout is read back exactly.  For a
    header line that is not empty, has no white space at either end and
    no line feed, and customers whose four fields have no white space at
    either end, no comma and no line feed, [parseCSV] reads the text made
    of the header and of one line [id,name,phone,number] for each
    customer back into the list of these customers, in order. *)
Theorem sheet_is_read_back (header : string) (ms : list Directory.CustomerMapping) :
  header <> "" -> trim header = header ->
  Forall (fun a => is_char Writer.line_feed a = false) (chars header) ->
  Forall Sheet.clean_mapping ms ->
  Sheet.parseCSV (Sheet.sheet_text header ms) = ms.
Proof.
  intros Hne Htrim Hlf Hms.
  assert (Hheader : Sheet.tidy (chars header)).
  { apply tidy_of_trimmed.
    - unfold trim in Htrim. apply (f_equal chars) in Htrim.
      rewrite chars_text in Htrim. exact Htrim.
    - intros Hnil. apply Hne. rewrite <- (text_chars header), Hnil. reflexivity. }
  assert (Hwhole : Sheet.tidy (chars (Sheet.sheet_text header ms))).
  { unfold Sheet.sheet_text. destruct ms as [|m ms] using rev_ind.
    - exact Hheader.
    - clear IHms. apply Forall_app in Hms as (_ & Hm).
      inversion Hm as [|? ? Hclean _]; subst.
      destruct (sheet_line_tidy m Hclean) as (Hlast & _).
      assert (Hshape : forall (lines : list string) (x last_ : string),
                exists middle,
                  chars (Writer.join (text [Writer.line_feed])
                                     (x :: lines ++ [last_]))
                  = chars x ++ middle ++ chars last_).
      { induction lines as [|y lines IHl]; intros x last_.
        - exists [Writer.line_feed]. cbn [app]. rewrite join_cons.
          cbn [Writer.join]. rewrite !chars_app, chars_text. reflexivity.
        - destruct (IHl y last_) as (middle & Hmid).
          exists (Writer.line_feed :: chars y ++ middle).
          cbn [app]. rewrite join_cons, !chars_app, chars_text.
          cbn [app] in Hmid. rewrite Hmid. cbn [app].
          rewrite <- !app_assoc. reflexivity. }
      rewrite map_app. cbn [map].
      destruct (Hshape (map Sheet.sheet_line ms) header (Sheet.sheet_line m))
        as (middle & ->).
      apply tidy_around; assumption. }
  unfold Sheet.parseCSV. cbv zeta.
  assert (Hsame : trim (Sheet.sheet_text header ms) = Sheet.sheet_text header ms).
  { unfold trim. rewrite (tidy_trim _ Hwhole). apply text_chars. }
  rewrite Hsame. unfold Sheet.sheet_text at 1. unfold Sheet.split.
  rewrite split_join.
  - cbn [rev app drop]. apply sheet_lines_read. exact Hms.
  - constructor; [exact Hlf |].
    apply List.Forall_forall. intros line Hline.
    apply in_map_iff in Hline as (m & <- & Hm).
    rewrite List.Forall_forall in Hms.
    apply (sheet_line_tidy m (Hms m Hm)).
Qed.

Lemma sheet_is_read_back_witness :
  let ms := [ {| Directory.memberId := "MC241EPW"; Directory.customerName := "ASHA JUMA";
                 Directory.phoneNumber := ""; Directory.transactionNumber := "PS2085594242" |};
              {| Directory.memberId := "MC236EPW"; Directory.customerName := "JOHN PETER";
                 Directory.phoneNumber := "0712345678"; Directory.transactionNumber := "" |} ] in
  Sheet.parseCSV (Sheet.sheet_text "Namba ya usajili,Jina,Simu,Miamala" ms) = ms.
Proof.
  cbv zeta. apply sheet_is_read_back.
  - discriminate.
  - vm_compute. reflexivity.
  - vm_compute. repeat constructor.
  - repeat constructor; vm_compute; reflexivity.
Defined.

(* ===================================================================== *)
(** ** The kinds of an NMB record *)
(* ===================================================================== *)

Lemma ledger_nmb_kinds (l : string) (r : Ledger.ParsedTransaction) :
  Ledger.nmb_rules ecma l = Normal r ->
  Ledger.productType r
  = (if includes (toLowerCase l) "cash deposit" then "Cash Deposit"
     else if includes (toLowerCase l) "transfer" then "Transfer"
     else if includes (toLowerCase l) "withdrawal" then "Withdrawal"
     else if includes (toLowerCase l) "payment" then "Payment"
     else "Cash Deposit")
  /\ Ledger.type r
     = (if includes (toLowerCase l) "withdrawal"
           || includes (toLowerCase l) "debit"
           || includes (toLowerCase l) "payment"
        then "Debit" else "Credit").
Proof.
  unfold Ledger.nmb_rules. intros H. returned H.
  cbn [Ledger.productType Ledger.type]. split; reflexivity.
Qed.

(** X24.  Debits and credits of the NMB extractor.  The record of a line
    that is not blank is a debit exactly when the line says withdrawal,
    debit or payment in any letter case, and a credit otherwise; the record
    of a blank line is neither.  A record whose product is a withdrawal or a
    payment is therefore always a debit, while a line that says cash deposit
    gives the product Cash Deposit whether its record is a debit or a
    credit. *)
Theorem nmb_debits_and_credits (line : string) :
  let r := Ledger.parseTransactionLine ecma line in
  let lower := toLowerCase (trim line) in
  let says_debit := includes lower "withdrawal" || includes lower "debit"
                    || includes lower "payment" in
  (Ledger.type r = "Debit" <-> truthy (trim line) = true /\ says_debit = true)
  /\ (Ledger.type r = "Credit"
      <-> truthy (trim line) = true /\ says_debit = false)
  /\ (Ledger.type r = "" <-> truthy (trim line) = false)
  /\ (Ledger.productType r = "Withdrawal" \/ Ledger.productType r = "Payment" ->
      Ledger.type r = "Debit")
  /\ (includes lower "cash deposit" = true ->
      Ledger.productType r = "Cash Deposit" /\ Ledger.type r
      = if says_debit then "Debit" else "Credit").
Proof.
  cbv zeta.
  destruct (ledger_nmb_line line) as [(Ht & Hr) | (Ht & ->)].
  - apply ledger_nmb_kinds in Hr as (-> & ->). rewrite Ht.
    destruct (includes (toLowerCase (trim line)) "cash deposit");
      destruct (includes (toLowerCase (trim line)) "transfer");
      destruct (includes (toLowerCase (trim line)) "withdrawal");
      destruct (includes (toLowerCase (trim line)) "debit");
      destruct (includes (toLowerCase (trim line)) "payment");
      cbn [orb]; intuition congruence.
  - apply truthy_false in Ht as Hempty. rewrite Hempty.
    cbn [Ledger.blank Ledger.type Ledger.productType truthy].
    vm_compute. intuition congruence.
Qed.
